(** * CircularBuffer<T> (lab1b/CircularBuffer.h): shallow embedding and properties

  The class template is embedded method by method.  A buffer object is a
  record of its five data members; the heap array behind the [buffer]
  pointer is a list of slots.  Methods run in a small state monad whose
  outcomes are: normal return, a thrown standard exception (together with
  the state of the object at the [throw]), or undefined behaviour (an array
  access outside the allocated block, a division by zero, a signed [int]
  overflow).

  [int] is modelled by [Z]; every [+], [-] and [%] of the source goes
  through a checked operation that is undefined outside
  [INT_MIN .. INT_MAX], as signed overflow is in C++.  [%] is the C++
  remainder, truncated towards zero ([Z.rem]).

  The file also embeds [WordsFreqAnalyzator::parse()] of
  lab0/lab0b/WordFreqAnalyzator.cpp; its definitions follow those of the
  buffer, its properties are at the end. *)

From Stdlib Require Import ZArith List String Bool Lia.
From Stdlib Require Import Ascii Sorted Permutation.
From Stdlib Require OrderedTypeEx DecimalString.
Import ListNotations.
Local Open Scope Z_scope.

(** ** Exceptions and outcomes *)

(** The four standard exception classes the header throws, with the message
  passed to the constructor. *)
Inductive exn : Type :=
| invalid_argument (what : string)
| out_of_range (what : string)
| overflow_error (what : string)
| underflow_error (what : string).

(** Result of an expression that has no object to mutate (constructors, the
  free comparison operators). *)
Inductive result (A : Type) : Type :=
| Ok (a : A)
| Throw (e : exn)
| UB.
Arguments Ok {A} a.
Arguments Throw {A} e.
Arguments UB {A}.

(** Monads with an "undefined behaviour" element; the checked [int]
  arithmetic is written once for all of them. *)
Class UBMonad (m : Type -> Type) : Type := {
ret : forall {A : Type}, A -> m A;
bind : forall {A B : Type}, m A -> (A -> m B) -> m B;
undefined : forall {A : Type}, m A
}.

Notation "x <- c ;; k" := (bind c (fun x => k))
(at level 61, c at next level, right associativity).
Notation "c ;; k" := (bind c (fun _ => k))
(at level 61, right associativity).

#[global] Instance result_monad : UBMonad result := {
ret := fun A a => Ok a;
bind := fun A B r k =>
  match r with Ok a => k a | Throw e => Throw e | UB => UB end;
undefined := fun A => UB
}.

(** ** Checked [int] arithmetic *)

Definition INT_MIN : Z := - 2 ^ 31.
Definition INT_MAX : Z := 2 ^ 31 - 1.

Definition in_int (z : Z) : bool := (INT_MIN <=? z) && (z <=? INT_MAX).

Section IntArith.
Context {m : Type -> Type} `{UBMonad m}.

Definition int_of (z : Z) : m Z := if in_int z then ret z else undefined.

(** [a + b] *)
Definition add (a b : Z) : m Z := int_of (a + b).
(** [a - b] *)
Definition sub (a b : Z) : m Z := int_of (a - b).
(** [a % b] *)
Definition rem (a b : Z) : m Z :=
  if (b =? 0) || ((a =? INT_MIN) && (b =? -1)) then undefined
  else ret (Z.rem a b).

(** [for (int i = lo; ...; ++i)] run [n] times, threading the loop-carried
    value [acc]. *)
Fixpoint for_up_n {Acc : Type} (n : nat) (i : Z) (acc : Acc)
         (body : Z -> Acc -> m Acc) : m Acc :=
  match n with
  | O => ret acc
  | S n' => acc' <- body i acc ;; for_up_n n' (i + 1) acc' body
  end.

(** [for (int i = hi; ...; --i)] run [n] times. *)
Fixpoint for_down_n (n : nat) (i : Z) (body : Z -> m unit) : m unit :=
  match n with
  | O => ret tt
  | S n' => body i ;; for_down_n n' (i - 1) body
  end.

(** [for (int i = lo; i < hi; ++i) body] where the body changes neither
    [i] nor [hi]. *)
Definition for_up (lo hi : Z) (body : Z -> m unit) : m unit :=
  for_up_n (Z.to_nat (hi - lo)) lo tt (fun i _ => body i).

(** The same loop with a local array (or other local) carried along. *)
Definition for_up_acc {Acc : Type} (lo hi : Z) (acc : Acc)
           (body : Z -> Acc -> m Acc) : m Acc :=
  for_up_n (Z.to_nat (hi - lo)) lo acc body.

(** [for (int i = hi; i >= lo; --i) body]. *)
Definition for_down (hi lo : Z) (body : Z -> m unit) : m unit :=
  for_down_n (Z.to_nat (hi - lo + 1)) hi body.
End IntArith.

(** ** Heap arrays *)

Section Arrays.
Context {T : Type}.

(** [a[n] = x] on a list; the caller checks the bound. *)
Fixpoint update (a : list T) (n : nat) (x : T) : list T :=
  match a, n with
  | [], _ => []
  | _ :: a', O => x :: a'
  | y :: a', S n' => y :: update a' n' x
  end.

(** Reading [a[i]]: undefined outside the allocated block. *)
Definition array_get (a : list T) (i : Z) : result T :=
  if i <? 0 then UB
  else match nth_error a (Z.to_nat i) with
       | Some x => Ok x
       | None => UB
       end.

(** Writing [a[i] = x]: undefined outside the allocated block. *)
Definition array_set (a : list T) (i : Z) (x : T) : result (list T) :=
  if (0 <=? i) && (i <? Z.of_nat (List.length a)) then Ok (update a (Z.to_nat i) x)
  else UB.
End Arrays.

(** ** The class *)

Section CircularBuffer.
Variable T : Type.

(** What a slot of [new T[n]] holds before it is assigned: the
    default-constructed [T] (for a scalar [T], the indeterminate value the
    slot happens to hold). *)
Variable dflt : T.

(** [realloc] of the C library, seen at the level of slots: from the old
    block and the requested size in bytes, either a null pointer ([None]) or
    the slots of the returned block.  Nothing is assumed about it. *)
Variable realloc : list T -> Z -> option (list T).

(** The data members.  [buffer] is the block the pointer owns; a null
    pointer and a zero-length block both have no slot. *)
Record CircularBuffer : Type := mkCB {
  capacity : Z;
  size : Z;
  buffer : list T;
  start : Z;
  end_ : Z
}.

Inductive outcome (A : Type) : Type :=
| Normal (a : A) (this : CircularBuffer)
| Raised (e : exn) (this : CircularBuffer)
| Undef.
Arguments Normal {A} a this.
Arguments Raised {A} e this.
Arguments Undef {A}.

Definition M (A : Type) : Type := CircularBuffer -> outcome A.

#[global] Instance M_monad : UBMonad M := {
  ret := fun A a this => Normal a this;
  bind := fun A B c k this =>
    match c this with
    | Normal a this' => k a this'
    | Raised e this' => Raised e this'
    | Undef => Undef
    end;
  undefined := fun A _ => Undef
}.

Definition throw {A : Type} (e : exn) : M A := fun this => Raised e this.
Definition get : M CircularBuffer := fun this => Normal this this.
Definition lift {A : Type} (r : result A) : M A :=
  fun this => match r with
              | Ok a => Normal a this
              | Throw e => Raised e this
              | UB => Undef
              end.

(** Value of a call on a [const] object, or on an object dropped after. *)
Definition eval {A : Type} (c : M A) (this : CircularBuffer) : result A :=
  match c this with
  | Normal a _ => Ok a
  | Raised e _ => Throw e
  | Undef => UB
  end.

(** Object left by a call that returns normally. *)
Definition exec {A : Type} (c : M A) (this : CircularBuffer)
  : result CircularBuffer :=
  match c this with
  | Normal _ this' => Ok this'
  | Raised e _ => Throw e
  | Undef => UB
  end.

(** Assignments to the data members. *)
Definition set_capacity_field (v : Z) : M unit :=
  fun this => Normal tt (mkCB v (size this) (buffer this) (start this) (end_ this)).
Definition set_size (v : Z) : M unit :=
  fun this => Normal tt (mkCB (capacity this) v (buffer this) (start this) (end_ this)).
Definition set_buffer (v : list T) : M unit :=
  fun this => Normal tt (mkCB (capacity this) (size this) v (start this) (end_ this)).
Definition set_start (v : Z) : M unit :=
  fun this => Normal tt (mkCB (capacity this) (size this) (buffer this) v (end_ this)).
Definition set_end (v : Z) : M unit :=
  fun this => Normal tt (mkCB (capacity this) (size this) (buffer this) (start this) v).

(** [new T[n]] *)
Definition new_array (n : Z) : list T := repeat dflt (Z.to_nat n).

(** [buffer[i]] as an rvalue, and [buffer[i] = x]. *)
Definition load (i : Z) : M T :=
  this <- get ;; lift (array_get (buffer this) i).
Definition store (i : Z) (x : T) : M unit :=
  this <- get ;;
  a <- lift (array_set (buffer this) i x) ;;
  set_buffer a.

(** [buffer[(start + i) % capacity]], the slot expression used throughout. *)
Definition slot (i : Z) : M Z :=
  this <- get ;;
  s <- add (start this) i ;;
  rem s (capacity this).

(** *** Constructors *)

(** [CircularBuffer()] *)
Definition CircularBuffer_default : CircularBuffer :=
  mkCB 0 0 [] (-1) (-1).

(** [explicit CircularBuffer(int capacity)] *)
Definition CircularBuffer_capacity (capacity : Z) : result CircularBuffer :=
  if capacity <=? 0
  then Throw (invalid_argument "Capacity must be greater than 0")
  else Ok (mkCB capacity 0 (new_array capacity) (-1) (-1)).

(** [CircularBuffer(int capacity, const T & elem)] *)
Definition CircularBuffer_fill (capacity : Z) (elem : T)
  : result CircularBuffer :=
  this <- CircularBuffer_capacity capacity ;;
  exec (for_up 0 capacity (fun i => store i elem) ;;
        set_size capacity ;;
        set_start 0 ;;
        this' <- get ;;
        e <- sub (size this') 1 ;;
        set_end e) this.

(** [CircularBuffer(const CircularBuffer<T> & cb)] *)
Definition CircularBuffer_copy (cb : CircularBuffer) : result CircularBuffer :=
  exec (for_up 0 (size cb) (fun i =>
          d <- slot i ;;
          s <- lift (eval (slot i) cb) ;;
          x <- lift (array_get (buffer cb) s) ;;
          store d x))
       (mkCB (capacity cb) (size cb) (new_array (capacity cb))
             (start cb) (end_ cb)).

(** *** Element access *)

(** [operator[](int i)] *)
Definition index (i : Z) : M T :=
  s <- slot i ;; load s.

(** [at(int i)] *)
Definition at_ (i : Z) : M T :=
  this <- get ;;
  if (i <? 0) || (i >=? size this)
  then throw (out_of_range "Index out of bounds")
  else s <- slot i ;; load s.

(** [front()] *)
Definition front : M T :=
  this <- get ;; load (start this).

(** [back()] *)
Definition back : M T :=
  this <- get ;; load (end_ this).

(** *** Observers *)

Definition get_size (this : CircularBuffer) : Z := size this.
Definition empty (this : CircularBuffer) : bool := size this =? 0.
Definition full (this : CircularBuffer) : bool := size this =? capacity this.
Definition get_capacity (this : CircularBuffer) : Z := capacity this.

(** [reserve()] *)
Definition reserve : M Z :=
  this <- get ;; sub (capacity this) (size this).

(** [is_linearized()] *)
Definition is_linearized : M bool :=
  this <- get ;;
  if start this =? 0
  then s <- sub (size this) 1 ;; ret (end_ this =? s)
  else ret false.

(** *** End insertion and removal *)

(** [push_back(const T & item)] *)
Definition push_back (item : T) : M unit :=
  this <- get ;;
  if full this then throw (overflow_error "Buffer is full") else
  e <- add (end_ this) 1 ;;
  e <- rem e (capacity this) ;;
  set_end e ;;
  store e item ;;
  (if size this =? 0 then set_start 0 else ret tt) ;;
  n <- add (size this) 1 ;;
  set_size n.

(** [push_front(const T & item)] *)
Definition push_front (item : T) : M unit :=
  this <- get ;;
  if full this then throw (overflow_error "Buffer is full") else
  s <- sub (start this) 1 ;;
  s <- add s (capacity this) ;;
  s <- rem s (capacity this) ;;
  set_start s ;;
  store s item ;;
  (if size this =? 0 then set_start 0 else ret tt) ;;
  n <- add (size this) 1 ;;
  set_size n.

(** [pop_back()].  The statement [start, end = -1, -1;] is a comma
    expression: it evaluates [start], assigns [-1] to [end], and evaluates
    [-1]; [start] is not assigned. *)
Definition pop_back : M unit :=
  this <- get ;;
  if empty this then throw (underflow_error "Buffer is empty") else
  e <- sub (end_ this) 1 ;;
  e <- add e (capacity this) ;;
  e <- rem e (capacity this) ;;
  set_end e ;;
  n <- sub (size this) 1 ;;
  set_size n ;;
  if n =? 0 then set_end (-1) else ret tt.

(** [pop_front()] *)
Definition pop_front : M unit :=
  this <- get ;;
  if empty this then throw (underflow_error "Buffer is empty") else
  s <- add (start this) 1 ;;
  s <- rem s (capacity this) ;;
  set_start s ;;
  n <- sub (size this) 1 ;;
  set_size n ;;
  if n =? 0 then set_end (-1) else ret tt.


(** *** Shape transformations *)

(** [linearize()].  The returned pointer is the new block, which is also
    what [buffer] holds afterwards; the model returns its slots. *)
Definition linearize : M (list T) :=
  this <- get ;;
  if size this =? 0 then ret [] else
  linearBuffer <- for_up_acc 0 (size this) (new_array (size this))
    (fun i linearBuffer =>
       s <- slot i ;;
       x <- load s ;;
       lift (array_set linearBuffer i x)) ;;
  set_start 0 ;;
  e <- sub (size this) 1 ;;
  set_end e ;;
  set_buffer linearBuffer ;;
  ret linearBuffer.

(** [rotate(int new_begin)].  [distance] is computed and not used after. *)
Definition rotate (new_begin : Z) : M unit :=
  this <- get ;;
  if (new_begin <? 0) || (new_begin >=? size this)
  then throw (out_of_range "Index out of bounds") else
  if new_begin =? start this then ret tt else
  distance <- sub new_begin (start this) ;;
  distance <- (if distance <? 0 then add distance (size this)
               else ret distance) ;;
  new_buffer <- for_up_acc 0 (size this) (new_array (capacity this))
    (fun i new_buffer =>
       s <- slot i ;;
       x <- load s ;;
       lift (array_set new_buffer i x)) ;;
  set_start 0 ;;
  e <- sub (size this) 1 ;;
  set_end e ;;
  set_buffer new_buffer.

(** *** Capacity and size *)

(** [set_capacity(int new_capacity)].  [capacity] is assigned before
    [realloc] is called, and [buffer] receives the result before it is
    compared with [nullptr]. *)
Definition set_capacity (new_capacity : Z) : M unit :=
  if new_capacity <=? 0
  then throw (invalid_argument "Capacity must be greater than 0") else
  set_capacity_field new_capacity ;;
  this <- get ;;
  match realloc (buffer this) new_capacity with
  | Some block => set_buffer block
  | None => set_buffer [] ;; throw (out_of_range "Index out of bounds")
  end.

(** [resize(int new_size, const T & item)] *)
Definition resize (new_size : Z) (item : T) : M unit :=
  this <- get ;;
  if (new_size <? 0) || (new_size >? capacity this)
  then throw (out_of_range "Invalid new size") else
  if new_size >? size this
  then for_up (size this) new_size (fun _ => push_back item)
  else if new_size <? size this
  then i0 <- sub (size this) 1 ;; for_down i0 new_size (fun _ => pop_back)
  else ret tt.

(** [operator=(const CircularBuffer<T> & cb)].  [self] tells whether
    [this == &cb]. *)
Definition assign (self : bool) (cb : CircularBuffer) : M unit :=
  if self then ret tt else
  set_capacity_field (capacity cb) ;;
  set_size (size cb) ;;
  set_start (start cb) ;;
  set_end (end_ cb) ;;
  set_buffer (new_array (capacity cb)) ;;
  for_up 0 (size cb) (fun i =>
    d <- slot i ;;
    s <- lift (eval (slot i) cb) ;;
    x <- lift (array_get (buffer cb) s) ;;
    store d x).

(** [swap(CircularBuffer<T> & cb)]: the pair is ([*this], [cb]) after the
    call. *)
Definition swap (this cb : CircularBuffer) : CircularBuffer * CircularBuffer :=
  let temp := buffer this in
  (mkCB (capacity this) (size this) (buffer cb) (start this) (end_ this),
   mkCB (capacity cb) (size cb) temp (start cb) (end_ cb)).

(** *** Interior insertion and removal *)

(** [insert(int pos, const T & item)] *)
Definition insert (pos : Z) (item : T) : M unit :=
  this <- get ;;
  if (pos <? 0) || (pos >? size this)
  then throw (out_of_range "Index out of bounds") else
  if full this then throw (overflow_error "Buffer is full") else
  i0 <- sub (size this) 1 ;;
  for_down i0 pos (fun i =>
    d <- add (start this) i ;;
    d <- add d 1 ;;
    d <- rem d (capacity this) ;;
    s <- slot i ;;
    x <- load s ;;
    store d x) ;;
  p <- slot pos ;;
  store p item ;;
  n <- add (size this) 1 ;;
  set_size n.

(** [erase(int first, int last)] *)
Definition erase (first last : Z) : M unit :=
  this <- get ;;
  if (first <? 0) || (last >=? size this) || (first >? last)
  then throw (out_of_range "Invalid range") else
  i0 <- add last 1 ;;
  for_up i0 (size this) (fun i =>
    d <- add (start this) i ;;
    k <- sub last first ;;
    k <- add k 1 ;;
    d <- sub d k ;;
    d <- rem d (capacity this) ;;
    s <- slot i ;;
    x <- load s ;;
    store d x) ;;
  k <- sub last first ;;
  k <- add k 1 ;;
  n <- sub (size this) k ;;
  set_size n ;;
  k <- sub last first ;;
  k <- add k 1 ;;
  e <- sub (end_ this) k ;;
  e <- add e (capacity this) ;;
  e <- rem e (capacity this) ;;
  set_end e.

(** [clear()] *)
Definition clear : M unit :=
  set_size 0 ;; set_start 0 ;; set_end 0.

End CircularBuffer.

Arguments mkCB {T}.
Arguments capacity {T}.
Arguments size {T}.
Arguments buffer {T}.
Arguments start {T}.
Arguments end_ {T}.
Arguments Normal {T A}.
Arguments Raised {T A}.
Arguments Undef {T A}.
Arguments outcome T A : clear implicits.
Arguments M T A : clear implicits.
Arguments throw {T A} e this.
Arguments get {T} this.
Arguments lift {T A} r this.
Arguments eval {T A} c this.
Arguments exec {T A} c this.
Arguments set_capacity_field {T} v this.
Arguments set_size {T} v this.
Arguments set_buffer {T} v this.
Arguments set_start {T} v this.
Arguments set_end {T} v this.
Arguments new_array {T} dflt n.
Arguments load {T} i this.
Arguments store {T} i x this.
Arguments slot {T} i this.
Arguments CircularBuffer_default {T}.
Arguments CircularBuffer_capacity {T} dflt capacity.
Arguments CircularBuffer_fill {T} dflt capacity elem.
Arguments CircularBuffer_copy {T} dflt cb.
Arguments index {T} i this.
Arguments at_ {T} i this.
Arguments front {T} this.
Arguments back {T} this.
Arguments get_size {T} this.
Arguments empty {T} this.
Arguments full {T} this.
Arguments get_capacity {T} this.
Arguments reserve {T} this.
Arguments is_linearized {T} this.
Arguments push_back {T} item this.
Arguments push_front {T} item this.
Arguments pop_back {T} this.
Arguments pop_front {T} this.
Arguments linearize {T} dflt this.
Arguments rotate {T} dflt new_begin this.
Arguments set_capacity {T} realloc new_capacity this.
Arguments resize {T} new_size item this.
Arguments assign {T} dflt self cb this.
Arguments swap {T} this cb.
Arguments insert {T} pos item this.
Arguments erase {T} first last this.
Arguments clear {T} this.

(** ** Comparison, for [T = int]

    [operator==] adds the value returned by [front()] to the loop index, so
    it is only well-typed for an integral [T]; it is embedded at [int]. *)

(** The loop of [operator==], [n] iterations from index [i]. *)
Fixpoint equal_from (n : nat) (i : Z) (a b : CircularBuffer Z) : result bool :=
  match n with
  | O => Ok true
  | S n' =>
      x <- (f <- eval front a ;;
            k <- add f i ;;
            k <- rem k (get_capacity a) ;;
            eval (index k) a) ;;
      y <- (f <- eval front b ;;
            k <- add f i ;;
            k <- rem k (get_capacity b) ;;
            eval (index k) b) ;;
      if negb (x =? y) then Ok false else equal_from n' (i + 1) a b
  end.

(** [operator==(const CircularBuffer<T> & a, const CircularBuffer<T> & b)] *)
Definition operator_eq (a b : CircularBuffer Z) : result bool :=
  if negb (get_size a =? get_size b) then Ok false
  else equal_from (Z.to_nat (get_size a)) 0 a b.

(** [operator!=(a, b)] *)
Definition operator_ne (a b : CircularBuffer Z) : result bool :=
  r <- operator_eq a b ;; Ok (negb r).

(** ** Scenarios and predicates used by the properties *)

(** A buffer of [int] built by [CircularBuffer<int> cb(c);] followed by the
    calls of [prog]; fresh slots hold [0]. *)
Definition built (c : Z) (prog : M Z unit) : result (CircularBuffer Z) :=
  this <- CircularBuffer_capacity 0 c ;; exec prog this.

(** An allocator whose [realloc] returns a null pointer. *)
Definition realloc_null (block : list Z) (bytes : Z) : option (list Z) := None.

(** The markers of a non-empty buffer agree with the ring layout: [start] is
    a slot of the block, the block has [capacity] slots, [end] is the slot of
    the last live element, and the index sum is an [int]. *)
Definition markers_consistent {T : Type} (this : CircularBuffer T) : Prop :=
  0 <= start this < capacity this /\
  Z.of_nat (List.length (buffer this)) = capacity this /\
  start this + size this - 1 <= INT_MAX /\
  end_ this = (start this + size this - 1) mod capacity this.

(** The four calls that insert or remove at an end. *)
Inductive end_call (T : Type) : Type :=
| PushBack (item : T)
| PushFront (item : T)
| PopBack
| PopFront.
Arguments PushBack {T} item.
Arguments PushFront {T} item.
Arguments PopBack {T}.
Arguments PopFront {T}.

Definition run_end_call {T : Type} (c : end_call T) : M T unit :=
  match c with
  | PushBack item => push_back item
  | PushFront item => push_front item
  | PopBack => pop_back
  | PopFront => pop_front
  end.

(** The exception each of them throws when it cannot proceed. *)
Definition end_call_error {T : Type} (c : end_call T) : exn :=
  match c with
  | PushBack _ | PushFront _ => overflow_error "Buffer is full"
  | PopBack | PopFront => underflow_error "Buffer is empty"
  end.

(** A caller that makes the calls one after the other inside [try]/[catch]:
    what each call threw (if anything) and the object at the end; [None] when
    a call has undefined behaviour. *)
Fixpoint attempts {T : Type} (cs : list (end_call T)) (this : CircularBuffer T)
  : option (list (option exn) * CircularBuffer T) :=
  match cs with
  | [] => Some ([], this)
  | c :: cs' =>
      match run_end_call c this with
      | Normal _ this' =>
          match attempts cs' this' with
          | Some (l, last) => Some (None :: l, last)
          | None => None
          end
      | Raised e this' =>
          match attempts cs' this' with
          | Some (l, last) => Some (Some e :: l, last)
          | None => None
          end
      | Undef => None
      end
  end.


(** A computation that contains no reachable [throw]. *)
Definition no_raise {T A : Type} (c : M T A) : Prop :=
  forall this e s, c this <> Raised e s.

(** Every member function that can be called on an existing object, with
    its arguments; values returned are dropped. *)
Inductive call (T : Type) : Type :=
| CallIndex (i : Z)
| CallAt (i : Z)
| CallFront
| CallBack
| CallLinearize
| CallRotate (new_begin : Z)
| CallReserve
| CallIsLinearized
| CallSetCapacity (new_capacity : Z)
| CallResize (new_size : Z) (item : T)
| CallAssign (self : bool) (cb : CircularBuffer T)
| CallPushBack (item : T)
| CallPushFront (item : T)
| CallPopBack
| CallPopFront
| CallInsert (pos : Z) (item : T)
| CallErase (first last : Z)
| CallClear.
Arguments CallIndex {T} i.
Arguments CallAt {T} i.
Arguments CallFront {T}.
Arguments CallBack {T}.
Arguments CallLinearize {T}.
Arguments CallRotate {T} new_begin.
Arguments CallReserve {T}.
Arguments CallIsLinearized {T}.
Arguments CallSetCapacity {T} new_capacity.
Arguments CallResize {T} new_size item.
Arguments CallAssign {T} self cb.
Arguments CallPushBack {T} item.
Arguments CallPushFront {T} item.
Arguments CallPopBack {T}.
Arguments CallPopFront {T}.
Arguments CallInsert {T} pos item.
Arguments CallErase {T} first last.
Arguments CallClear {T}.

Definition run_call {T : Type} (dflt : T)
           (realloc : list T -> Z -> option (list T)) (c : call T) : M T unit :=
  match c with
  | CallIndex i => index i ;; ret tt
  | CallAt i => at_ i ;; ret tt
  | CallFront => front ;; ret tt
  | CallBack => back ;; ret tt
  | CallLinearize => linearize dflt ;; ret tt
  | CallRotate new_begin => rotate dflt new_begin
  | CallReserve => reserve ;; ret tt
  | CallIsLinearized => is_linearized ;; ret tt
  | CallSetCapacity new_capacity => set_capacity realloc new_capacity
  | CallResize new_size item => resize new_size item
  | CallAssign self cb => assign dflt self cb
  | CallPushBack item => push_back item
  | CallPushFront item => push_front item
  | CallPopBack => pop_back
  | CallPopFront => pop_front
  | CallInsert pos item => insert pos item
  | CallErase first last => erase first last
  | CallClear => clear
  end.

(** Called on [this], the computation throws only with [this] untouched. *)
Definition raises_only_at {T A : Type} (this : CircularBuffer T) (c : M T A)
  : Prop :=
  forall e s, c this = Raised e s -> s = this.

(** The object with another block behind [buffer]. *)
Definition with_buffer {T : Type} (this : CircularBuffer T) (a : list T)
  : CircularBuffer T :=
  mkCB (capacity this) (size this) a (start this) (end_ this).

(** Position in the block of the slot [(st + j) % c] of a ring of [c] slots
    that starts at [st]. *)
Definition ring_slot (c st j : Z) : nat := Z.to_nat ((st + j) mod c).

(** The block has [capacity] slots, [start] is one of them, the count is
    within the capacity, [end] is [-1] or a slot, and twice the capacity is
    an [int] (so that no index sum overflows). *)
Definition ring_ready {T : Type} (this : CircularBuffer T) : Prop :=
  0 <= start this < capacity this /\
  Z.of_nat (List.length (buffer this)) = capacity this /\
  2 * capacity this <= INT_MAX /\
  0 <= size this <= capacity this /\
  -1 <= end_ this < capacity this.

(** The block has [capacity] slots, the count is within the capacity, and
    [end] is [-1] or a slot. *)
Definition block_ready {T : Type} (this : CircularBuffer T) : Prop :=
  Z.of_nat (List.length (buffer this)) = capacity this /\
  capacity this <= INT_MAX /\
  0 <= size this <= capacity this /\
  -1 <= end_ this < capacity this.


(** A computation that, when it returns normally, leaves [capacity] as it
    found it. *)
Definition keeps_capacity {T A : Type} (c : M T A) : Prop :=
  forall this a after, c this = Normal a after -> capacity after = capacity this.

(** What [at(0)], ..., [at(size - 1)] return: the logical sequence as a
    caller reads it through the checked accessor. *)
Definition contents {T : Type} (this : CircularBuffer T) : list (result T) :=
  map (fun j => eval (at_ (Z.of_nat j)) this) (seq 0 (Z.to_nat (size this))).

(** The state the constructors establish and the end operations keep: the
    block has [capacity] slots, the count is within the capacity, twice the
    capacity is an [int], and the markers are those of an empty buffer
    ([end = -1]) or delimit the live range. *)
Definition well_formed {T : Type} (this : CircularBuffer T) : Prop :=
  Z.of_nat (List.length (buffer this)) = capacity this /\
  0 < capacity this /\
  2 * capacity this <= INT_MAX /\
  ((size this = 0 /\ end_ this = -1 /\ -1 <= start this < capacity this) \/
   (0 < size this <= capacity this /\
    0 <= start this < capacity this /\
    end_ this = (start this + size this - 1) mod capacity this)).

(** A double-ended queue bounded by [c], on lists: the sequence an end call
    leaves, or the exception it throws. *)
Definition deque_step {T : Type} (c : Z) (call : end_call T) (l : list T)
  : exn + list T :=
  match call with
  | PushBack item =>
      if Z.of_nat (List.length l) =? c then inl (overflow_error "Buffer is full")
      else inr (l ++ [item])
  | PushFront item =>
      if Z.of_nat (List.length l) =? c then inl (overflow_error "Buffer is full")
      else inr (item :: l)
  | PopBack =>
      match l with
      | [] => inl (underflow_error "Buffer is empty")
      | _ :: _ => inr (removelast l)
      end
  | PopFront =>
      match l with
      | [] => inl (underflow_error "Buffer is empty")
      | _ :: l' => inr l'
      end
  end.

(** The queue after each call of [cs] in turn, with what each call threw. *)
Fixpoint deque_run {T : Type} (c : Z) (cs : list (end_call T)) (l : list T)
  : list (option exn) * list T :=
  match cs with
  | [] => ([], l)
  | call :: cs' =>
      match deque_step c call l with
      | inl e => let (es, l') := deque_run c cs' l in (Some e :: es, l')
      | inr l1 => let (es, l') := deque_run c cs' l1 in (None :: es, l')
      end
  end.

(** No [push_front] of [cs] meets an empty queue. *)
Fixpoint no_push_front_on_empty {T : Type} (c : Z) (cs : list (end_call T))
         (l : list T) : bool :=
  match cs with
  | [] => true
  | call :: cs' =>
      match call, l with
      | PushFront _, [] => false
      | _, _ => true
      end
      && no_push_front_on_empty c cs'
           (match deque_step c call l with inl _ => l | inr l1 => l1 end)
  end.

(** An argument of type [const T &] of a member function: a reference to
    an object that is no slot of the buffer's block, or to slot [k] of the
    block (what [cb[i]] returns when the call is made on [cb] itself). *)
Inductive cref (T : Type) : Type :=
| Outside (x : T)
| Slot (k : Z).
Arguments Outside {T} x.
Arguments Slot {T} k.

(** Reading through the reference. *)
Definition deref {T : Type} (item : cref T) : M T T :=
  match item with
  | Outside x => ret x
  | Slot k => load k
  end.

(** [insert(int pos, const T & item)] with the argument kept as a
    reference: [item] is read when it is assigned to the slot of [pos],
    after the shifting loop has run.  [insert pos x] is
    [insert_ref pos (Outside x)]. *)
Definition insert_ref {T : Type} (pos : Z) (item : cref T) : M T unit :=
  this <- get ;;
  if (pos <? 0) || (pos >? size this)
  then throw (out_of_range "Index out of bounds") else
  if full this then throw (overflow_error "Buffer is full") else
  i0 <- sub (size this) 1 ;;
  for_down i0 pos (fun i =>
    d <- add (start this) i ;;
    d <- add d 1 ;;
    d <- rem d (capacity this) ;;
    s <- slot i ;;
    x <- load s ;;
    store d x) ;;
  p <- slot pos ;;
  x <- deref item ;;
  store p x ;;
  n <- add (size this) 1 ;;
  set_size n.

(** The reference is to an outside object or to a slot of the block. *)
Definition valid_ref {T : Type} (this : CircularBuffer T) (item : cref T)
  : Prop :=
  match item with
  | Outside _ => True
  | Slot k => 0 <= k < capacity this
  end.

(** What [item] holds when [insert(pos, item)] reads it on [this].  Slot [k]
    is the slot of the logical index [i = (k - start) mod capacity]; by then
    the slots of the indices [pos + 1 .. size] hold what was one index
    lower, the other slots what they held. *)
Definition item_read {T : Type} (this : CircularBuffer T) (pos : Z)
           (item : cref T) : result T :=
  match item with
  | Outside x => Ok x
  | Slot k =>
      let i := (k - start this) mod capacity this in
      eval (index (if (pos <? i) && (i <=? size this) then i - 1 else i)) this
  end.

(** * WordsFreqAnalyzator (lab0/lab0b/WordFreqAnalyzator.cpp)

  [parse()] from the point where both streams are open: the lines that
  [getline] delivers are given as a list of strings, and the result is the
  rows written to the CSV stream, each as the word and its count; what
  [operator<<] prints for the count, a [double], is [write_double].  The
  third column is not modelled, nor is the stack the library's matcher
  needs for a long match.  The "C" locale is assumed for [std::tolower]
  and for the stream. *)

(** A [char] of the class [[a-zA-Z0-9]]. *)
Definition is_token_char (ch : ascii) : bool :=
  (("a" <=? ch) && (ch <=? "z") || ("A" <=? ch) && (ch <=? "Z")
   || ("0" <=? ch) && (ch <=? "9"))%char.

(** [std::tolower(ch)]. *)
Definition tolower (ch : ascii) : ascii :=
  if (("A" <=? ch) && (ch <=? "Z"))%char
  then ascii_of_N (N_of_ascii ch + 32)
  else ch.

(** A match that ends: it is reported unless it is empty ([+] needs one
    character). *)
Definition emit (run : string) (later : list string) : list string :=
  match run with
  | EmptyString => later
  | String _ _ => run :: later
  end.

(** The run of token characters at the head of [line] and the matches after
    it. *)
Fixpoint scan (line : string) : string * list string :=
  match line with
  | EmptyString => (EmptyString, [])
  | String ch line' =>
      let (run, later) := scan line' in
      if is_token_char ch then (String ch run, later)
      else (EmptyString, emit run later)
  end.

(** What the [sregex_iterator] over [[a-zA-Z0-9]+] yields on [line]: the
    maximal runs of token characters, from left to right. *)
Definition sregex_matches (line : string) : list string :=
  let (run, later) := scan line in emit run later.

(** [for (char &ch : word) ch = std::tolower(ch);] *)
Fixpoint lower (word : string) : string :=
  match word with
  | EmptyString => EmptyString
  | String ch word' => String (tolower ch) (lower word')
  end.

(** [std::map<std::string, int>]: the entries in the order the map iterates
    over them, ascending keys under [std::less<std::string>]. *)
Definition word_map : Type := list (string * Z).

(** [m[word] += 1]: a missing key is inserted with the value 0 first. *)
Fixpoint bump (word : string) (m : word_map) : result word_map :=
  match m with
  | [] => n <- add 0 1 ;; Ok [(word, n)]
  | (key, count) :: m' =>
      match (word ?= key)%string with
      | Lt => n <- add 0 1 ;; Ok ((word, n) :: m)
      | Eq => n <- add count 1 ;; Ok ((key, n) :: m')
      | Gt => m'' <- bump word m' ;; Ok ((key, count) :: m'')
      end
  end.

(** [p->second] for a pointer [p] to the entry with key [key].  Entries are
    never erased, so the pointer stays valid and the key is found. *)
Fixpoint second (m : word_map) (key : string) : Z :=
  match m with
  | [] => 0
  | (k, count) :: m' => if (key =? k)%string then count else second m' key
  end.

(** [std::list::sort(comp)], a stable sort: an element goes behind the
    elements that [comp] puts before it and were in front of it. *)
Fixpoint sort_insert {A : Type} (comp : A -> A -> bool) (x : A) (l : list A)
  : list A :=
  match l with
  | [] => [x]
  | y :: l' => if comp y x then y :: sort_insert comp x l' else x :: l
  end.

Definition list_sort {A : Type} (comp : A -> A -> bool) (l : list A) : list A :=
  fold_right (sort_insert comp) [] l.

(** The two containers of the object.  A pointer to a map entry is the key
    of the entry. *)
Record WordsFreqAnalyzator : Type := mkWFA {
  listOfMapEntries : list string;
  mapWithWordsFrequency : word_map
}.

(** The object [main] constructs. *)
Definition WordsFreqAnalyzator_new : WordsFreqAnalyzator := mkWFA [] [].

(** The inner [for] loop over the matches of one line. *)
Fixpoint count_matches (ms : list string) (m : word_map) : result word_map :=
  match ms with
  | [] => Ok m
  | word :: ms' => m' <- bump (lower word) m ;; count_matches ms' m'
  end.

(** The [while (getline(...))] loop. *)
Fixpoint read_lines (lines : list string) (m : word_map) : result word_map :=
  match lines with
  | [] => Ok m
  | line :: lines' =>
      m' <- count_matches (sregex_matches line) m ;; read_lines lines' m'
  end.

(** [parse()]: the rows written, and the object after the call.  A row is
    the word and the [int] count [pair->second]; the count reaches the
    stream as [double freq] (see [write_double]). *)
Definition parse (lines : list string) (this : WordsFreqAnalyzator)
  : result (list (string * Z) * WordsFreqAnalyzator) :=
  m <- read_lines lines (mapWithWordsFrequency this) ;;
  let entries :=
    list_sort (fun a b => second m b <? second m a)
              (listOfMapEntries this ++ map fst m) in
  Ok (map (fun p => (p, second m p)) entries, mkWFA entries m).

(** The decimal numeral of [n >= 0]. *)
Definition decimal (n : Z) : string :=
  DecimalString.NilZero.string_of_uint (N.to_uint (Z.to_N n)).

(** The six significant digits [m] without their trailing zeros. *)
Fixpoint strip_zeros (fuel : nat) (m : Z) : Z :=
  match fuel with
  | O => m
  | S fuel' =>
      if (m mod 10 =? 0) && (10 <=? m) then strip_zeros fuel' (m / 10) else m
  end.

(** The digits [m] with a point after the first one, if others follow. *)
Definition mantissa (m : Z) : string :=
  match decimal m with
  | String d EmptyString => String d EmptyString
  | String d rest => String d (String "." rest)
  | EmptyString => EmptyString
  end.

(** The exponent field: a sign and at least two digits. *)
Definition exponent (x : Z) : string :=
  String.append "e+" (String.append (if x <? 10 then "0" else "") (decimal x)).

(** [fileOStream << freq] for the [double] that holds the count [n >= 0]
    (an [int] converts exactly): the stream has its default format and
    precision 6, that of [printf] with [%g].  Below [10^6] this is the
    decimal numeral; from [10^6] on it is scientific notation with six
    significant digits, rounded to nearest with ties to the even digit, the
    trailing zeros (and a point left bare) dropped. *)
Definition write_double (n : Z) : string :=
  if n <? 1000000 then decimal n else
  let digits := Z.of_nat (String.length (decimal n)) in
  let scale := 10 ^ (digits - 6) in
  let q := n / scale in
  let r := n mod scale in
  let q := if (scale <? 2 * r) || ((scale =? 2 * r) && Z.odd q)
           then q + 1 else q in
  let (q, x) := if q =? 1000000 then (100000, digits) else (q, digits - 1) in
  String.append (mantissa (strip_zeros 5 q)) (exponent x).


(** The values [word] takes at the increment, in order. *)
Definition words (lines : list string) : list string :=
  flat_map (fun line => map lower (sregex_matches line)) lines.

(** Every character of [word] satisfies [p]. *)
Fixpoint all_chars (p : ascii -> bool) (word : string) : bool :=
  match word with
  | EmptyString => true
  | String ch word' => p ch && all_chars p word'
  end.

(** A match: a non-empty string of token characters. *)
Definition is_match (word : string) : Prop :=
  word <> EmptyString /\ all_chars is_token_char word = true.

(** Ascending keys, as [std::less<std::string>] orders them. *)
Definition key_before (a b : string) : Prop := (a ?= b)%string = Lt.

(** The keys of a map ascend strictly. *)
Definition ascending (m : word_map) : Prop :=
  StronglySorted key_before (map fst m).

(** The inner loop on words that are lower case already. *)
Fixpoint count_all (ws : list string) (m : word_map) : result word_map :=
  match ws with
  | [] => Ok m
  | word :: ws' => m' <- bump word m ;; count_all ws' m'
  end.

(** The sum of the counts of [rows]. *)
Definition total (rows : list (string * Z)) : Z :=
  fold_right (fun row sum => snd row + sum) 0 rows.

(** A lower-case letter or a digit. *)
Definition is_lower_or_digit (ch : ascii) : bool :=
  (("a" <=? ch) && (ch <=? "z") || ("0" <=? ch) && (ch <=? "9"))%char.

(** What a stable sort by descending [f] makes of a list in the order
    [R0]: larger [f] first; among equal [f], the order of the input. *)
Definition sorted_by {A : Type} (f : A -> Z) (R0 : A -> A -> Prop) (a b : A)
  : Prop :=
  f b < f a \/ (f a = f b /\ R0 a b).

(** The order of the rows: higher counts first, equal counts by ascending
    word. *)
Definition row_before (a b : string * Z) : Prop :=
  snd b < snd a \/ (snd a = snd b /\ (fst a ?= fst b)%string = Lt).


(** ** Properties *)

Lemma array_get_in_range {T : Type} (a : list T) (i : Z) :
  0 <= i < Z.of_nat (List.length a) -> exists x, array_get a i = Ok x.
Proof.
  intros Hi. unfold array_get.
  destruct (Z.ltb_spec i 0) as [Hneg | _]; [lia |].
  destruct (nth_error a (Z.to_nat i)) as [x |] eqn:Hnth.
  - now exists x.
  - apply nth_error_None in Hnth. lia.
Qed.

Lemma array_get_never_throws {T : Type} (a : list T) (i : Z) (e : exn) :
  array_get a i <> Throw e.
Proof.
  unfold array_get.
  destruct (i <? 0); [discriminate |].
  destruct (nth_error a (Z.to_nat i)); discriminate.
Qed.

Lemma load_never_raises {T : Type} (i : Z) (this s : CircularBuffer T) (e : exn) :
  load i this <> Raised e s.
Proof.
  unfold load, get, lift. cbn.
  destruct (array_get (buffer this) i) eqn:Hget; try discriminate.
  now apply array_get_never_throws in Hget.
Qed.

Lemma in_int_true (z : Z) : INT_MIN <= z <= INT_MAX -> in_int z = true.
Proof.
  intros Hz. unfold in_int. apply andb_true_iff. split; now apply Z.leb_le.
Qed.

Lemma int_bounds : INT_MIN = -2147483648 /\ INT_MAX = 2147483647.
Proof. split; reflexivity. Qed.

Lemma slot_in_ring {T : Type} (this : CircularBuffer T) (i : Z) :
  0 <= start this -> 0 <= i -> start this + i <= INT_MAX -> 0 < capacity this ->
  slot i this = Normal ((start this + i) mod capacity this) this.
Proof.
  intros Hs Hi Hmax Hcap. unfold slot, get, add, int_of, rem. cbn.
  rewrite in_int_true by (unfold INT_MIN; lia). cbn.
  destruct (Z.eqb_spec (capacity this) 0) as [H0 | _]; [lia |].
  destruct (Z.eqb_spec (capacity this) (-1)) as [H1 | _]; [lia |].
  rewrite andb_false_r. cbn.
  now rewrite Z.rem_mod_nonneg by lia.
Qed.

(** *** Computations without [throw] *)

Section NoRaise.
Context {T : Type}.

Lemma no_raise_ret {A : Type} (a : A) : no_raise (ret a : M T A).
Proof. intros this e s. discriminate. Qed.

Lemma no_raise_undefined {A : Type} : no_raise (undefined : M T A).
Proof. intros this e s. discriminate. Qed.

Lemma no_raise_bind {A B : Type} (c : M T A) (k : A -> M T B) :
  no_raise c -> (forall a, no_raise (k a)) -> no_raise (x <- c ;; k x).
Proof.
  intros Hc Hk this e s. cbn.
  destruct (c this) as [a this' | e' this' |] eqn:Hrun.
  - apply Hk.
  - now apply Hc in Hrun.
  - discriminate.
Qed.

Lemma no_raise_get : no_raise (@get T).
Proof. intros this e s. discriminate. Qed.

Lemma no_raise_set_capacity_field (v : Z) : no_raise (@set_capacity_field T v).
Proof. intros this e s. discriminate. Qed.

Lemma no_raise_set_size (v : Z) : no_raise (@set_size T v).
Proof. intros this e s. discriminate. Qed.

Lemma no_raise_set_buffer (v : list T) : no_raise (set_buffer v).
Proof. intros this e s. discriminate. Qed.

Lemma no_raise_set_start (v : Z) : no_raise (@set_start T v).
Proof. intros this e s. discriminate. Qed.

Lemma no_raise_set_end (v : Z) : no_raise (@set_end T v).
Proof. intros this e s. discriminate. Qed.

Lemma no_raise_int_of (z : Z) : no_raise (int_of z : M T Z).
Proof. intros this e s. unfold int_of. destruct (in_int z); discriminate. Qed.

Lemma no_raise_add (a b : Z) : no_raise (add a b : M T Z).
Proof. apply no_raise_int_of. Qed.

Lemma no_raise_sub (a b : Z) : no_raise (sub a b : M T Z).
Proof. apply no_raise_int_of. Qed.

Lemma no_raise_rem (a b : Z) : no_raise (rem a b : M T Z).
Proof.
  intros this e s. unfold rem.
  destruct ((b =? 0) || ((a =? INT_MIN) && (b =? -1))); discriminate.
Qed.

Lemma no_raise_lift {A : Type} (r : result A) :
  (forall e, r <> Throw e) -> no_raise (lift r : M T A).
Proof.
  intros Hr this e s. unfold lift. destruct r as [a | e' |]; try discriminate.
  now destruct (Hr e').
Qed.

Lemma array_set_never_throws (a : list T) (i : Z) (x : T) (e : exn) :
  array_set a i x <> Throw e.
Proof.
  unfold array_set.
  destruct ((0 <=? i) && (i <? Z.of_nat (List.length a))); discriminate.
Qed.

Lemma no_raise_load (i : Z) : no_raise (@load T i).
Proof. intros this e s. apply load_never_raises. Qed.

Lemma no_raise_store (i : Z) (x : T) : no_raise (store i x).
Proof.
  unfold store. apply no_raise_bind; [apply no_raise_get | intros this].
  apply no_raise_bind; [| intros a; apply no_raise_set_buffer].
  apply no_raise_lift. intros e. apply array_set_never_throws.
Qed.

Lemma no_raise_slot (i : Z) : no_raise (@slot T i).
Proof.
  unfold slot. apply no_raise_bind; [apply no_raise_get | intros this].
  apply no_raise_bind; [apply no_raise_add | intros s; apply no_raise_rem].
Qed.

Lemma no_raise_eval {A : Type} (c : M T A) (this : CircularBuffer T) (e : exn) :
  no_raise c -> eval c this <> Throw e.
Proof.
  intros Hc. unfold eval.
  destruct (c this) as [a this' | e' this' |] eqn:Hrun; try discriminate.
  now apply Hc in Hrun.
Qed.

Lemma no_raise_for_up_n {Acc : Type} (body : Z -> Acc -> M T Acc) :
  (forall i acc, no_raise (body i acc)) ->
  forall n i acc, no_raise (for_up_n n i acc body).
Proof.
  intros Hbody. induction n as [| n IH]; intros i acc; cbn [for_up_n].
  - apply no_raise_ret.
  - apply no_raise_bind; [apply Hbody | intros acc'; apply IH].
Qed.

Lemma no_raise_for_down_n (body : Z -> M T unit) :
  (forall i, no_raise (body i)) ->
  forall n i, no_raise (for_down_n n i body).
Proof.
  intros Hbody. induction n as [| n IH]; intros i; cbn [for_down_n].
  - apply no_raise_ret.
  - apply no_raise_bind; [apply Hbody | intros _; apply IH].
Qed.

Lemma no_raise_for_up (lo hi : Z) (body : Z -> M T unit) :
  (forall i, no_raise (body i)) -> no_raise (for_up lo hi body).
Proof. intros Hbody. unfold for_up. apply no_raise_for_up_n. intros i []. apply Hbody. Qed.

Lemma no_raise_for_up_acc {Acc : Type} (lo hi : Z) (acc : Acc)
      (body : Z -> Acc -> M T Acc) :
  (forall i a, no_raise (body i a)) -> no_raise (for_up_acc lo hi acc body).
Proof. intros Hbody. unfold for_up_acc. now apply no_raise_for_up_n. Qed.

Lemma no_raise_for_down (hi lo : Z) (body : Z -> M T unit) :
  (forall i, no_raise (body i)) -> no_raise (for_down hi lo body).
Proof. intros Hbody. unfold for_down. now apply no_raise_for_down_n. Qed.

End NoRaise.

Create HintDb no_raise.
#[global] Hint Resolve no_raise_ret no_raise_undefined no_raise_get
  no_raise_set_capacity_field no_raise_set_size no_raise_set_buffer
  no_raise_set_start no_raise_set_end no_raise_int_of no_raise_add
  no_raise_sub no_raise_rem no_raise_load no_raise_store no_raise_slot
  array_set_never_throws array_get_never_throws : no_raise.

(** Walks down a method body made of binds, conditionals and loops. *)
Ltac never_raises :=
  repeat match goal with
         | |- no_raise _ => solve [auto with no_raise]
         | |- no_raise (bind _ _) => apply no_raise_bind; [| intro]
         | |- no_raise (for_up _ _ _) => apply no_raise_for_up; intro
         | |- no_raise (for_up_acc _ _ _ _) => apply no_raise_for_up_acc; intros
         | |- no_raise (for_down _ _ _) => apply no_raise_for_down; intro
         | |- no_raise (lift _) => apply no_raise_lift; intro
         | |- eval _ _ <> Throw _ => apply no_raise_eval
         | |- array_get _ _ <> Throw _ => apply array_get_never_throws
         | |- array_set _ _ _ <> Throw _ => apply array_set_never_throws
         | |- no_raise (if ?b then _ else _) => destruct b
         end.

(** *** Exceptions thrown before any assignment *)

Section Guards.
Context {T : Type}.

Lemma raises_only_at_throw {A : Type} (this : CircularBuffer T) (e : exn) :
  raises_only_at this (throw e : M T A).
Proof. intros e' s Hrun. now inversion Hrun. Qed.

Lemma raises_only_at_no_raise {A : Type} (this : CircularBuffer T) (c : M T A) :
  no_raise c -> raises_only_at this c.
Proof. intros Hc e s Hrun. now apply Hc in Hrun. Qed.

Lemma raises_only_at_get {A : Type} (this : CircularBuffer T)
      (k : CircularBuffer T -> M T A) :
  raises_only_at this (k this) -> raises_only_at this (x <- get ;; k x).
Proof. intros Hk e s Hrun. exact (Hk e s Hrun). Qed.

(** One [push_back] on a buffer that is not full: undefined, or one more
    element and the same capacity. *)
Lemma push_back_outcome (item : T) (this : CircularBuffer T) :
  full this = false ->
  push_back item this = Undef \/
  exists after,
    push_back item this = Normal tt after /\
    size after = size this + 1 /\ capacity after = capacity this.
Proof.
  intros Hfull. unfold push_back, add, rem, int_of, store, lift, array_set.
  cbn. rewrite Hfull.
  repeat match goal with
         | |- context [if ?b then _ else _] => destruct b
         end; cbn;
    first [left; reflexivity | right; eexists; repeat split].
Qed.

(** One [pop_back] on a buffer that is not empty. *)
Lemma pop_back_outcome (this : CircularBuffer T) :
  empty this = false ->
  pop_back this = Undef \/
  exists after,
    pop_back this = Normal tt after /\
    size after = size this - 1 /\ capacity after = capacity this.
Proof.
  intros Hempty. unfold pop_back, add, sub, rem, int_of.
  cbn. rewrite Hempty.
  repeat match goal with
         | |- context [if ?b then _ else _] => destruct b
         end; cbn;
    first [left; reflexivity | right; eexists; repeat split].
Qed.

Lemma push_back_loop_never_raises (item : T) (n : nat) :
  forall (i : Z) (this : CircularBuffer T) e s,
    size this + Z.of_nat n <= capacity this ->
    for_up_n n i tt (fun _ _ => push_back item) this <> Raised e s.
Proof.
  induction n as [| n IH]; intros i this e s Hroom; cbn [for_up_n].
  - discriminate.
  - cbn -[push_back for_up_n].
    destruct (push_back_outcome item this) as [Hub | (after & Hok & Hsize & Hcap)].
    + unfold full. apply Z.eqb_neq. lia.
    + now rewrite Hub.
    + rewrite Hok. apply IH. lia.
Qed.

Lemma pop_back_loop_never_raises (n : nat) :
  forall (i : Z) (this : CircularBuffer T) e s,
    Z.of_nat n <= size this ->
    for_down_n n i (fun _ => pop_back) this <> Raised e s.
Proof.
  induction n as [| n IH]; intros i this e s Hsize; cbn [for_down_n].
  - discriminate.
  - cbn -[pop_back for_down_n].
    destruct (pop_back_outcome this) as [Hub | (after & Hok & Hsz & Hcap)].
    + unfold empty. apply Z.eqb_neq. lia.
    + now rewrite Hub.
    + rewrite Hok. apply IH. lia.
Qed.

Lemma resize_raises_only_at (new_size : Z) (item : T) (this : CircularBuffer T) :
  raises_only_at this (resize new_size item).
Proof.
  unfold resize. apply raises_only_at_get.
  destruct (Z.ltb_spec new_size 0) as [Hneg | Hnonneg]; cbn [orb].
  { apply raises_only_at_throw. }
  destruct (Z.gtb_spec new_size (capacity this)) as [Hbig | Hfits].
  { apply raises_only_at_throw. }
  destruct (Z.gtb_spec new_size (size this)) as [Hgrow | Hle].
  - intros e s Hrun. exfalso. revert Hrun. unfold for_up.
    apply push_back_loop_never_raises. lia.
  - destruct (Z.ltb_spec new_size (size this)) as [Hshrink | Hsame].
    + intros e s Hrun. exfalso. revert Hrun. cbn. unfold sub, int_of.
      destruct (in_int (size this - 1)); [| discriminate]. cbn.
      unfold for_down. apply pop_back_loop_never_raises. lia.
    + apply raises_only_at_no_raise. never_raises.
Qed.

(** What [set_capacity] does when it throws. *)
Lemma set_capacity_raises (realloc : list T -> Z -> option (list T))
      (new_capacity : Z) (this s : CircularBuffer T) (e : exn) :
  set_capacity realloc new_capacity this = Raised e s ->
  s = this \/ (0 < new_capacity /\ realloc (buffer this) new_capacity = None).
Proof.
  unfold set_capacity.
  destruct (Z.leb_spec new_capacity 0) as [Hn | Hpos].
  - intros Hrun. left. now inversion Hrun.
  - cbn. destruct (realloc (buffer this) new_capacity) eqn:Hre.
    + discriminate.
    + intros _. now right.
Qed.

Lemma raises_only_at_drop {A : Type} (this : CircularBuffer T) (c : M T A) :
  raises_only_at this c -> raises_only_at this (c ;; ret tt).
Proof.
  intros Hc e s Hrun. cbn in Hrun.
  destruct (c this) as [a this' | e' this' |] eqn:Hc'; try discriminate.
  inversion Hrun; subst. now apply (Hc e).
Qed.

(** Splits a method body into its guards and a rest without [throw]. *)
Ltac guards_first :=
  repeat match goal with
         | |- raises_only_at _ (bind get _) =>
             apply raises_only_at_get; cbv beta
         | |- raises_only_at _ (bind _ (fun _ => ret tt)) =>
             apply raises_only_at_drop
         | |- raises_only_at _ (throw _) => apply raises_only_at_throw
         | |- raises_only_at _ (if ?b then _ else _) => destruct b
         | |- raises_only_at _ _ =>
             apply raises_only_at_no_raise; solve [never_raises]
         end.

(** X20.  Every [throw] statement of the header is reached before the object
    is modified, except the one of [set_capacity] that follows a null
    [realloc]: when a call ends in one of the exceptions the header throws,
    the object is as it was before the call.  ([std::bad_alloc] from
    [new] is no [throw] of the header; allocation succeeds here.) *)
Lemma throws_precede_assignments (dflt : T)
      (realloc : list T -> Z -> option (list T))
      (c : call T) (this s : CircularBuffer T) (e : exn) :
  run_call dflt realloc c this = Raised e s ->
  s = this \/
  exists new_capacity,
    c = CallSetCapacity new_capacity /\ 0 < new_capacity /\
    realloc (buffer this) new_capacity = None.
Proof.
  destruct c as [i | i | | | | new_begin | | | new_capacity | new_size item
                 | self cb | item | item | | | pos item | first last |];
    cbn [run_call]; intros Hrun;
    try (apply set_capacity_raises in Hrun as [Hsame | [Hpos Hnull]];
         [now left | right; now exists new_capacity]);
    left; revert e s Hrun;
    match goal with
    | |- forall e s, ?c ?this = Raised e s -> s = ?this =>
        change (raises_only_at this c)
    end.
  - unfold index. guards_first.
  - unfold at_. guards_first.
  - unfold front. guards_first.
  - unfold back. guards_first.
  - unfold linearize. guards_first.
  - unfold rotate. guards_first.
  - unfold reserve. guards_first.
  - unfold is_linearized. guards_first.
  - apply resize_raises_only_at.
  - unfold assign. guards_first.
  - unfold push_back. guards_first.
  - unfold push_front. guards_first.
  - unfold pop_back. guards_first.
  - unfold pop_front. guards_first.
  - unfold insert. guards_first.
  - unfold erase. guards_first.
  - unfold clear. guards_first.
Qed.

End Guards.

(** *** Blocks and single steps *)

Section Steps.
Context {T : Type}.

Lemma update_length (a : list T) (n : nat) (x : T) :
  List.length (update a n x) = List.length a.
Proof.
  revert n. induction a as [| y a IH]; intros [| n]; cbn; try reflexivity.
  now rewrite IH.
Qed.

Lemma nth_error_update_eq (a : list T) (n : nat) (x : T) :
  (n < List.length a)%nat -> nth_error (update a n x) n = Some x.
Proof.
  revert n. induction a as [| y a IH]; intros [| n] Hn; cbn in *;
    try lia; try reflexivity.
  apply IH. lia.
Qed.

Lemma nth_error_update_neq (a : list T) (n m : nat) (x : T) :
  n <> m -> nth_error (update a n x) m = nth_error a m.
Proof.
  revert n m. induction a as [| y a IH]; intros [| n] [| m] Hnm; cbn;
    try reflexivity; try congruence.
  apply IH. congruence.
Qed.

(** A sequence whose first computation returns normally continues with the
    value and the object it left. *)
Lemma bind_run {A B : Type} (m : M T A) (k : A -> M T B)
      (s s' : CircularBuffer T) (a : A) :
  m s = Normal a s' -> (x <- m ;; k x) s = k a s'.
Proof. intros Hm. cbn. now rewrite Hm. Qed.

Lemma add_run (a b : Z) (s : CircularBuffer T) :
  INT_MIN <= a + b <= INT_MAX -> add a b s = Normal (a + b) s.
Proof. intros Hr. unfold add, int_of. now rewrite in_int_true. Qed.

Lemma sub_run (a b : Z) (s : CircularBuffer T) :
  INT_MIN <= a - b <= INT_MAX -> sub a b s = Normal (a - b) s.
Proof. intros Hr. unfold sub, int_of. now rewrite in_int_true. Qed.

Lemma rem_run (a b : Z) (s : CircularBuffer T) :
  0 < b -> rem a b s = Normal (Z.rem a b) s.
Proof.
  intros Hb. unfold rem.
  destruct (Z.eqb_spec b 0) as [H0 | _]; [lia |].
  destruct (Z.eqb_spec b (-1)) as [H1 | _]; [lia |].
  now rewrite andb_false_r.
Qed.

Lemma load_run (i : Z) (x : T) (s : CircularBuffer T) :
  0 <= i -> nth_error (buffer s) (Z.to_nat i) = Some x ->
  load i s = Normal x s.
Proof.
  intros Hi Hx. unfold load, get, lift, array_get. cbn.
  destruct (Z.ltb_spec i 0) as [Hneg | _]; [lia |].
  now rewrite Hx.
Qed.

Lemma store_run (i : Z) (x : T) (s : CircularBuffer T) :
  0 <= i < Z.of_nat (List.length (buffer s)) ->
  store i x s = Normal tt (with_buffer s (update (buffer s) (Z.to_nat i) x)).
Proof.
  intros Hi. unfold store, get, lift, array_set. cbn.
  destruct (Z.leb_spec 0 i) as [_ | Hneg]; [| lia].
  destruct (Z.ltb_spec i (Z.of_nat (List.length (buffer s)))) as [_ | Hbig]; [| lia].
  reflexivity.
Qed.

Lemma with_buffer_same (s : CircularBuffer T) : with_buffer s (buffer s) = s.
Proof. now destruct s. Qed.

End Steps.

(** Runs the first computation of a sequence with [tac]. *)
Ltac run_with tac := erewrite bind_run; [cbv beta | tac].

(** *** The ring *)

Lemma ring_slot_bound (c st j : Z) :
  0 < c -> (ring_slot c st j < Z.to_nat c)%nat.
Proof.
  intros Hc. unfold ring_slot.
  pose proof (Z.mod_pos_bound (st + j) c Hc). lia.
Qed.

Lemma ring_slot_inj (c st j j' : Z) :
  0 <= st < c -> 0 <= j < c -> 0 <= j' < c ->
  ring_slot c st j = ring_slot c st j' -> j = j'.
Proof.
  intros Hst Hj Hj' Heq. unfold ring_slot in Heq.
  assert (Hc : 0 < c) by lia.
  pose proof (Z.mod_pos_bound (st + j) c Hc).
  pose proof (Z.mod_pos_bound (st + j') c Hc).
  assert (Hmod : (st + j) mod c = (st + j') mod c) by lia.
  destruct (Z_lt_ge_dec (st + j) c) as [Hs | Hl];
    destruct (Z_lt_ge_dec (st + j') c) as [Hs' | Hl'].
  - rewrite !Z.mod_small in Hmod by lia. lia.
  - rewrite (Z.mod_small (st + j)) in Hmod by lia.
    replace (st + j') with ((st + j' - c) + 1 * c) in Hmod by lia.
    rewrite Z.mod_add, Z.mod_small in Hmod by lia. lia.
  - rewrite (Z.mod_small (st + j')) in Hmod by lia.
    replace (st + j) with ((st + j - c) + 1 * c) in Hmod by lia.
    rewrite Z.mod_add, Z.mod_small in Hmod by lia. lia.
  - replace (st + j) with ((st + j - c) + 1 * c) in Hmod by lia.
    replace (st + j') with ((st + j' - c) + 1 * c) in Hmod by lia.
    rewrite !Z.mod_add, !Z.mod_small in Hmod by lia. lia.
Qed.

(** *** The two shifting loops *)

Section Shifts.
Context {T : Type}.
Variables c st : Z.
Hypothesis Hst : 0 <= st < c.

Lemma ring_slot_some (a : list T) (j : Z) :
  Z.of_nat (List.length a) = c -> exists x, nth_error a (ring_slot c st j) = Some x.
Proof.
  intros Hlen. destruct (nth_error a (ring_slot c st j)) as [x |] eqn:Hnth.
  - now exists x.
  - apply nth_error_None in Hnth.
    pose proof (ring_slot_bound c st j). lia.
Qed.

(** The loop of [insert]: [k] iterations downwards from [i], each copying
    the element of logical index [i] to logical index [i + 1]. *)
Lemma shift_up_loop (body : Z -> M T unit) :
  (forall i s x,
      capacity s = c -> start s = st ->
      Z.of_nat (List.length (buffer s)) = c ->
      0 <= i -> i + 1 < c ->
      nth_error (buffer s) (ring_slot c st i) = Some x ->
      body i s
      = Normal tt (with_buffer s (update (buffer s) (ring_slot c st (i + 1)) x))) ->
  forall (k : nat) (i : Z) (s : CircularBuffer T),
    capacity s = c -> start s = st ->
    Z.of_nat (List.length (buffer s)) = c ->
    0 <= i - Z.of_nat k + 1 -> i + 1 < c ->
    exists a',
      for_down_n k i body s = Normal tt (with_buffer s a') /\
      List.length a' = List.length (buffer s) /\
      forall j, 0 <= j < c ->
        nth_error a' (ring_slot c st j) =
        if (i - Z.of_nat k + 1 <? j) && (j <=? i + 1)
        then nth_error (buffer s) (ring_slot c st (j - 1))
        else nth_error (buffer s) (ring_slot c st j).
Proof.
  intros Hbody. induction k as [| k IH]; intros i s Hcap Hstart Hlen Hlow Hhigh.
  - exists (buffer s). cbn [for_down_n]. rewrite with_buffer_same.
    split; [reflexivity |]. split; [reflexivity |].
    intros j Hj.
    destruct (Z.ltb_spec (i - Z.of_nat 0 + 1) j), (Z.leb_spec j (i + 1));
      cbn [andb]; try reflexivity; lia.
  - destruct (ring_slot_some (buffer s) i Hlen) as [x Hx].
    assert (Hstep := Hbody i s x Hcap Hstart Hlen ltac:(lia) Hhigh Hx).
    destruct (IH (i - 1) (with_buffer s (update (buffer s) (ring_slot c st (i + 1)) x))) as (a' & Hrun & Hlen' & Hview);
      try reflexivity; try assumption; try lia.
    { cbn [buffer with_buffer]. now rewrite update_length. }
    exists a'. split; [| split].
    + cbn [for_down_n]. rewrite (bind_run _ _ _ _ _ Hstep). exact Hrun.
    + rewrite Hlen'. cbn [buffer with_buffer]. apply update_length.
    + intros j Hj. rewrite (Hview j Hj). cbn [buffer with_buffer].
      assert (Hin : (ring_slot c st (i + 1) < List.length (buffer s))%nat).
      { pose proof (ring_slot_bound c st (i + 1)). lia. }
      destruct (Z.ltb_spec (i - 1 - Z.of_nat k + 1) j),
               (Z.leb_spec j (i - 1 + 1)),
               (Z.ltb_spec (i - Z.of_nat (S k) + 1) j),
               (Z.leb_spec j (i + 1)); cbn [andb]; try lia;
        first [ apply nth_error_update_neq; intros Heq;
                apply ring_slot_inj in Heq; lia
              | assert (j = i + 1) by lia; subst j;
                rewrite nth_error_update_eq by exact Hin;
                now replace (i + 1 - 1) with i by lia ].
Qed.

(** The loop of [erase] for a range of one element: [k] iterations upwards
    from [i], each copying the element of logical index [i] to logical
    index [i - 1]. *)
Lemma shift_down_loop (body : Z -> M T unit) :
  (forall i s x,
      capacity s = c -> start s = st ->
      Z.of_nat (List.length (buffer s)) = c ->
      1 <= i -> i < c ->
      nth_error (buffer s) (ring_slot c st i) = Some x ->
      body i s
      = Normal tt (with_buffer s (update (buffer s) (ring_slot c st (i - 1)) x))) ->
  forall (k : nat) (i : Z) (s : CircularBuffer T),
    capacity s = c -> start s = st ->
    Z.of_nat (List.length (buffer s)) = c ->
    1 <= i -> i + Z.of_nat k <= c ->
    exists a',
      for_up_n k i tt (fun i _ => body i) s = Normal tt (with_buffer s a') /\
      List.length a' = List.length (buffer s) /\
      forall j, 0 <= j < c ->
        nth_error a' (ring_slot c st j) =
        if (i - 1 <=? j) && (j <? i - 1 + Z.of_nat k)
        then nth_error (buffer s) (ring_slot c st (j + 1))
        else nth_error (buffer s) (ring_slot c st j).
Proof.
  intros Hbody. induction k as [| k IH]; intros i s Hcap Hstart Hlen Hlow Hhigh.
  - exists (buffer s). cbn [for_up_n]. rewrite with_buffer_same.
    split; [reflexivity |]. split; [reflexivity |].
    intros j Hj.
    destruct (Z.leb_spec (i - 1) j), (Z.ltb_spec j (i - 1 + Z.of_nat 0));
      cbn [andb]; try reflexivity; lia.
  - destruct (ring_slot_some (buffer s) i Hlen) as [x Hx].
    assert (Hstep := Hbody i s x Hcap Hstart Hlen Hlow ltac:(lia) Hx).
    destruct (IH (i + 1) (with_buffer s (update (buffer s) (ring_slot c st (i - 1)) x))) as (a' & Hrun & Hlen' & Hview);
      try reflexivity; try assumption; try lia.
    { cbn [buffer with_buffer]. now rewrite update_length. }
    exists a'. split; [| split].
    + cbn [for_up_n]. rewrite (bind_run _ _ _ _ _ Hstep). exact Hrun.
    + rewrite Hlen'. cbn [buffer with_buffer]. apply update_length.
    + intros j Hj. rewrite (Hview j Hj). cbn [buffer with_buffer].
      assert (Hin : (ring_slot c st (i - 1) < List.length (buffer s))%nat).
      { pose proof (ring_slot_bound c st (i - 1)). lia. }
      destruct (Z.leb_spec (i + 1 - 1) j),
               (Z.ltb_spec j (i + 1 - 1 + Z.of_nat k)),
               (Z.leb_spec (i - 1) j),
               (Z.ltb_spec j (i - 1 + Z.of_nat (S k))); cbn [andb]; try lia;
        first [ apply nth_error_update_neq; intros Heq;
                apply ring_slot_inj in Heq; lia
              | assert (j = i - 1) by lia; subst j;
                rewrite nth_error_update_eq by exact Hin;
                now replace (i - 1 + 1) with i by lia ].
Qed.

End Shifts.

(** *** [insert], and [erase] of one element, on a ring whose markers are in
    place *)

Section InsertErase.
Context {T : Type}.

Lemma insert_run (this : CircularBuffer T) (pos : Z) (item : T) :
  ring_ready this -> size this <> capacity this -> 0 <= pos <= size this ->
  exists a',
    insert pos item this
    = Normal tt (mkCB (capacity this) (size this + 1) a' (start this) (end_ this)) /\
    List.length a' = List.length (buffer this) /\
    forall j, 0 <= j < capacity this ->
      nth_error a' (ring_slot (capacity this) (start this) j) =
      if j =? pos then Some item
      else if (pos <? j) && (j <=? size this)
           then nth_error (buffer this) (ring_slot (capacity this) (start this) (j - 1))
           else nth_error (buffer this) (ring_slot (capacity this) (start this) j).
Proof.
  intros (Hst & Hlen & Hmax & Hsize & Hend) Hroom Hpos.
  destruct int_bounds as [Hmin Hmaxv].
  pose (body := fun i : Z =>
          (d <- add (start this) i ;;
           d <- add d 1 ;;
           d <- rem d (capacity this) ;;
           s <- slot i ;;
           x <- load s ;;
           store d x) : M T unit).
  assert (Hbody : forall i s x,
             capacity s = capacity this -> start s = start this ->
             Z.of_nat (List.length (buffer s)) = capacity this ->
             0 <= i -> i + 1 < capacity this ->
             nth_error (buffer s) (ring_slot (capacity this) (start this) i) = Some x ->
             body i s
             = Normal tt (with_buffer s (update (buffer s)
                            (ring_slot (capacity this) (start this) (i + 1)) x))).
  { intros i s x Hc Hs Hl Hi Hi' Hx. unfold body.
    run_with ltac:(apply add_run; lia).
    run_with ltac:(apply add_run; lia).
    run_with ltac:(apply rem_run; lia).
    run_with ltac:(apply slot_in_ring; lia).
    rewrite Hc, Hs.
    run_with ltac:(apply load_run; [apply Z.mod_pos_bound; lia | exact Hx]).
    rewrite Z.rem_mod_nonneg by lia.
    replace (start this + i + 1) with (start this + (i + 1)) by lia.
    apply store_run. rewrite Hl. apply Z.mod_pos_bound. lia. }
  destruct (shift_up_loop (capacity this) (start this) Hst body Hbody
              (Z.to_nat (size this - 1 - pos + 1)) (size this - 1) this
              eq_refl eq_refl Hlen)
    as (a1 & Hloop & Hlen1 & Hview1); [lia | lia |].
  eexists. split; [| split].
  - unfold insert.
    run_with reflexivity.
    destruct (Z.ltb_spec pos 0) as [Hneg | _]; [lia |].
    destruct (Z.gtb_spec pos (size this)) as [Hbig | _]; [lia |].
    cbn [orb]. unfold full.
    destruct (Z.eqb_spec (size this) (capacity this)) as [Hfull | _]; [lia |].
    run_with ltac:(apply sub_run; lia).
    unfold for_down.
    run_with ltac:(exact Hloop).
    run_with ltac:(apply slot_in_ring; cbn [start capacity with_buffer]; lia).
    run_with ltac:(apply store_run; cbn [start capacity buffer with_buffer];
                   rewrite Hlen1, Hlen; apply Z.mod_pos_bound; lia).
    run_with ltac:(apply add_run; lia).
    reflexivity.
  - cbn [start capacity buffer with_buffer].
    now rewrite update_length.
  - intros j Hj. cbn [start capacity buffer with_buffer].
    change (Z.to_nat ((start this + pos) mod capacity this))
      with (ring_slot (capacity this) (start this) pos).
    assert (Hin : (ring_slot (capacity this) (start this) pos < List.length a1)%nat).
    { pose proof (ring_slot_bound (capacity this) (start this) pos). lia. }
    destruct (Z.eqb_spec j pos) as [-> | Hne].
    + now apply nth_error_update_eq.
    + rewrite nth_error_update_neq
        by (intros Heq; apply ring_slot_inj in Heq; lia).
      rewrite (Hview1 j Hj).
      rewrite Z2Nat.id by lia.
      destruct (Z.ltb_spec (size this - 1 - (size this - 1 - pos + 1) + 1) j),
               (Z.leb_spec j (size this - 1 + 1)),
               (Z.ltb_spec pos j), (Z.leb_spec j (size this));
        cbn [andb]; try reflexivity; lia.
Qed.

Lemma erase_one_run (this : CircularBuffer T) (pos : Z) :
  0 <= start this < capacity this ->
  Z.of_nat (List.length (buffer this)) = capacity this ->
  2 * capacity this <= INT_MAX ->
  0 <= pos < size this -> size this <= capacity this ->
  -1 <= end_ this < capacity this ->
  exists a' e',
    erase pos pos this
    = Normal tt (mkCB (capacity this) (size this - 1) a' (start this) e') /\
    List.length a' = List.length (buffer this) /\
    forall j, 0 <= j < capacity this ->
      nth_error a' (ring_slot (capacity this) (start this) j) =
      if (pos <=? j) && (j <? size this - 1)
      then nth_error (buffer this) (ring_slot (capacity this) (start this) (j + 1))
      else nth_error (buffer this) (ring_slot (capacity this) (start this) j).
Proof.
  intros Hst Hlen Hmax Hpos Hsize Hend.
  destruct int_bounds as [Hmin Hmaxv].
  pose (body := fun i : Z =>
          (d <- add (start this) i ;;
           k <- sub pos pos ;;
           k <- add k 1 ;;
           d <- sub d k ;;
           d <- rem d (capacity this) ;;
           s <- slot i ;;
           x <- load s ;;
           store d x) : M T unit).
  assert (Hbody : forall i s x,
             capacity s = capacity this -> start s = start this ->
             Z.of_nat (List.length (buffer s)) = capacity this ->
             1 <= i -> i < capacity this ->
             nth_error (buffer s) (ring_slot (capacity this) (start this) i) = Some x ->
             body i s
             = Normal tt (with_buffer s (update (buffer s)
                            (ring_slot (capacity this) (start this) (i - 1)) x))).
  { intros i s x Hc Hs Hl Hi Hi' Hx. unfold body.
    run_with ltac:(apply add_run; lia).
    run_with ltac:(apply sub_run; lia).
    run_with ltac:(apply add_run; lia).
    run_with ltac:(apply sub_run; lia).
    run_with ltac:(apply rem_run; lia).
    run_with ltac:(apply slot_in_ring; lia).
    rewrite Hc, Hs.
    run_with ltac:(apply load_run; [apply Z.mod_pos_bound; lia | exact Hx]).
    rewrite Z.rem_mod_nonneg by lia.
    replace (start this + i - (pos - pos + 1)) with (start this + (i - 1)) by lia.
    apply store_run. rewrite Hl. apply Z.mod_pos_bound. lia. }
  destruct (shift_down_loop (capacity this) (start this) Hst body Hbody
              (Z.to_nat (size this - (pos + 1))) (pos + 1) this
              eq_refl eq_refl Hlen)
    as (a1 & Hloop & Hlen1 & Hview1); [lia | lia |].
  exists a1, (Z.rem (end_ this - 1 + capacity this) (capacity this)).
  split; [| split].
  - unfold erase.
    run_with reflexivity.
    destruct (Z.ltb_spec pos 0) as [Hneg | _]; [lia |].
    destruct (Z.geb_spec pos (size this)) as [Hbig | _]; [lia |].
    destruct (Z.gtb_spec pos pos) as [Hgt | _]; [lia |].
    cbn [orb].
    run_with ltac:(apply add_run; lia).
    unfold for_up.
    run_with ltac:(exact Hloop).
    run_with ltac:(apply sub_run; lia).
    run_with ltac:(apply add_run; lia).
    run_with ltac:(apply sub_run; lia).
    run_with reflexivity.
    run_with ltac:(apply sub_run; lia).
    run_with ltac:(apply add_run; lia).
    run_with ltac:(apply sub_run; lia).
    run_with ltac:(apply add_run; lia).
    run_with ltac:(apply rem_run; lia).
    replace (size this - (pos - pos + 1)) with (size this - 1) by lia.
    replace (end_ this - (pos - pos + 1)) with (end_ this - 1) by lia.
    reflexivity.
  - exact Hlen1.
  - intros j Hj. rewrite (Hview1 j Hj).
    rewrite Z2Nat.id by lia.
    destruct (Z.leb_spec (pos + 1 - 1) j),
             (Z.ltb_spec j (pos + 1 - 1 + (size this - (pos + 1)))),
             (Z.leb_spec pos j), (Z.ltb_spec j (size this - 1));
      cbn [andb]; try reflexivity; lia.
Qed.

Lemma at_run (j : Z) (x : T) (s : CircularBuffer T) :
  0 <= start s < capacity s -> 2 * capacity s <= INT_MAX ->
  0 <= j < size s -> j < capacity s ->
  nth_error (buffer s) (ring_slot (capacity s) (start s) j) = Some x ->
  at_ j s = Normal x s.
Proof.
  intros Hst Hmax Hj Hjc Hx. unfold at_.
  run_with reflexivity.
  destruct (Z.ltb_spec j 0) as [Hneg | _]; [lia |].
  destruct (Z.geb_spec j (size s)) as [Hbig | _]; [lia |].
  cbn [orb].
  run_with ltac:(apply slot_in_ring; lia).
  apply load_run; [apply Z.mod_pos_bound; lia | exact Hx].
Qed.

(** On a buffer that is not full and whose markers are in place,
    [insert(pos, item)] followed by [erase(pos, pos)] returns normally and
    leaves the count, the capacity and the element at every logical index as
    they were. *)
Lemma insert_erase_round_trip (this : CircularBuffer T) (pos : Z) (item : T) :
  ring_ready this -> size this <> capacity this -> 0 <= pos <= size this ->
  exists after,
    (insert pos item ;; erase pos pos) this = Normal tt after /\
    size after = size this /\
    capacity after = capacity this /\
    forall j, 0 <= j < size this ->
      exists x, at_ j this = Normal x this /\ at_ j after = Normal x after.
Proof.
  intros Hready Hroom Hpos.
  destruct (insert_run this pos item Hready Hroom Hpos)
    as (a2 & Hins & Hlen2 & Hview2).
  destruct Hready as (Hst & Hlen & Hmax & Hsize & Hend).
  set (s2 := mkCB (capacity this) (size this + 1) a2 (start this) (end_ this)) in *.
  destruct (erase_one_run s2 pos) as (a3 & e3 & Hera & Hlen3 & Hview3);
    cbn [s2 start capacity size buffer end_]; try lia.
  exists (mkCB (capacity this) (size this) a3 (start this) e3).
  split; [| split; [reflexivity | split; [reflexivity |]]].
  - rewrite (bind_run _ _ _ _ _ Hins). rewrite Hera.
    cbn [s2 start capacity size buffer end_].
    now replace (size this + 1 - 1) with (size this) by lia.
  - intros j Hj.
    destruct (ring_slot_some (capacity this) (start this) Hst (buffer this) j Hlen)
      as [x Hx].
    exists x. split.
    + apply at_run; try assumption; lia.
    + apply at_run; cbn [start capacity size buffer]; try lia.
      cbn [s2 start capacity size buffer end_] in Hview3.
      rewrite Hview3 by lia.
      destruct (Z.leb_spec pos j), (Z.ltb_spec j (size this + 1 - 1));
        cbn [andb]; try lia.
      * rewrite Hview2 by lia.
        destruct (Z.eqb_spec (j + 1) pos) as [Heq | _]; [lia |].
        destruct (Z.ltb_spec pos (j + 1)), (Z.leb_spec (j + 1) (size this));
          cbn [andb]; try lia.
        now replace (j + 1 - 1) with j by lia.
      * rewrite Hview2 by lia.
        destruct (Z.eqb_spec j pos) as [Heq | _]; [lia |].
        destruct (Z.ltb_spec pos j), (Z.leb_spec j (size this));
          cbn [andb]; try lia.
        exact Hx.
Qed.

End InsertErase.

(** *** The end insertions *)

Section Pushes.
Context {T : Type}.

(** Both pushes throw exactly when the buffer is full, and then leave it as
    it was. *)
Lemma push_back_full_iff (item : T) (this : CircularBuffer T) :
  (exists e s, push_back item this = Raised e s) <-> size this = capacity this.
Proof.
  split.
  - intros (e & s & Hrun). unfold push_back in Hrun.
    rewrite (bind_run get _ this this this eq_refl) in Hrun.
    unfold full in Hrun.
    destruct (Z.eqb_spec (size this) (capacity this)) as [Hfull | _];
      [exact Hfull |].
    exfalso. revert Hrun.
    match goal with |- ?c this = _ -> _ => assert (Hc : no_raise c) end.
    { never_raises. }
    apply Hc.
  - intros Hfull. exists (overflow_error "Buffer is full"), this.
    unfold push_back. run_with reflexivity.
    unfold full. now rewrite Hfull, Z.eqb_refl.
Qed.

Lemma push_front_full_iff (item : T) (this : CircularBuffer T) :
  (exists e s, push_front item this = Raised e s) <-> size this = capacity this.
Proof.
  split.
  - intros (e & s & Hrun). unfold push_front in Hrun.
    rewrite (bind_run get _ this this this eq_refl) in Hrun.
    unfold full in Hrun.
    destruct (Z.eqb_spec (size this) (capacity this)) as [Hfull | _];
      [exact Hfull |].
    exfalso. revert Hrun.
    match goal with |- ?c this = _ -> _ => assert (Hc : no_raise c) end.
    { never_raises. }
    apply Hc.
  - intros Hfull. exists (overflow_error "Buffer is full"), this.
    unfold push_front. run_with reflexivity.
    unfold full. now rewrite Hfull, Z.eqb_refl.
Qed.

(** [push_back] on a buffer that is not full, whatever [start] is: one more
    element, and [back()] is the new item. *)
Lemma push_back_run (item : T) (this : CircularBuffer T) :
  block_ready this -> size this <> capacity this ->
  exists after,
    push_back item this = Normal tt after /\
    size after = size this + 1 /\
    capacity after = capacity this /\
    back after = Normal item after.
Proof.
  intros (Hlen & Hmax & Hsize & Hend) Hroom.
  destruct int_bounds as [Hmin Hmaxv].
  assert (Hslot : 0 <= Z.rem (end_ this + 1) (capacity this) < capacity this).
  { apply Z.rem_bound_pos; lia. }
  destruct (size this =? 0) eqn:Hzero;
    (eexists; split; [| split; [| split]];
     [ unfold push_back; run_with reflexivity;
       unfold full;
       destruct (Z.eqb_spec (size this) (capacity this)) as [Hfull | _];
       [lia |];
       run_with ltac:(apply add_run; lia);
       run_with ltac:(apply rem_run; lia);
       run_with reflexivity;
       run_with ltac:(apply store_run; cbn [buffer]; lia);
       rewrite Hzero;
       run_with reflexivity;
       run_with ltac:(apply add_run; lia);
       reflexivity
     | reflexivity
     | reflexivity
     | unfold back;
       cbn [with_buffer buffer end_ size capacity start];
       run_with reflexivity;
       apply load_run; cbn [buffer end_]; [lia |];
       apply nth_error_update_eq; lia ]).
Qed.

(** [push_front] on a buffer that is neither empty nor full and whose
    [start] is a slot: one more element, and [front()] is the new item. *)
Lemma push_front_run (item : T) (this : CircularBuffer T) :
  ring_ready this -> 0 < size this -> size this <> capacity this ->
  exists after,
    push_front item this = Normal tt after /\
    size after = size this + 1 /\
    capacity after = capacity this /\
    front after = Normal item after.
Proof.
  intros (Hst & Hlen & Hmax & Hsize & Hend) Hpos Hroom.
  destruct int_bounds as [Hmin Hmaxv].
  assert (Hslot : 0 <= Z.rem (start this - 1 + capacity this) (capacity this)
                  < capacity this).
  { apply Z.rem_bound_pos; lia. }
  destruct (Z.eqb_spec (size this) 0) as [H0 | Hne]; [lia |].
  eexists. split; [| split; [| split]].
  - unfold push_front. run_with reflexivity.
    unfold full.
    destruct (Z.eqb_spec (size this) (capacity this)) as [Hfull | _]; [lia |].
    run_with ltac:(apply sub_run; lia).
    run_with ltac:(apply add_run; lia).
    run_with ltac:(apply rem_run; lia).
    run_with reflexivity.
    run_with ltac:(apply store_run; cbn [buffer]; lia).
    destruct (Z.eqb_spec (size this) 0) as [H0 | _]; [lia |].
    run_with reflexivity.
    run_with ltac:(apply add_run; lia).
    reflexivity.
  - reflexivity.
  - reflexivity.
  - unfold front. cbn [with_buffer buffer end_ size capacity start].
    run_with reflexivity.
    apply load_run; cbn [buffer start]; [lia |].
    apply nth_error_update_eq. lia.
Qed.

End Pushes.

(** *** [rotate] and [set_capacity] as written *)

Section RotateSetCapacity.
Context {T : Type}.

(** The copying loop of [rotate] (and of [linearize]): [k] iterations from
    [i], each copying the element of logical index [i] to position [i] of
    the new block; the object is only read. *)
Lemma copy_loop (s : CircularBuffer T) :
  0 <= start s < capacity s ->
  Z.of_nat (List.length (buffer s)) = capacity s ->
  2 * capacity s <= INT_MAX ->
  forall (k : nat) (i : Z) (acc : list T),
    Z.of_nat (List.length acc) = capacity s ->
    0 <= i -> i + Z.of_nat k <= capacity s ->
    exists acc',
      for_up_n k i acc
        (fun i new_buffer =>
           p <- slot i ;; x <- load p ;; lift (array_set new_buffer i x)) s
      = Normal acc' s /\
      List.length acc' = List.length acc /\
      forall j, 0 <= j < capacity s ->
        nth_error acc' (Z.to_nat j) =
        if (i <=? j) && (j <? i + Z.of_nat k)
        then nth_error (buffer s) (ring_slot (capacity s) (start s) j)
        else nth_error acc (Z.to_nat j).
Proof.
  intros Hst Hlen Hmax. destruct int_bounds as [Hmin Hmaxv].
  induction k as [| k IH]; intros i acc Hacc Hlow Hhigh.
  - exists acc. cbn [for_up_n]. split; [reflexivity |]. split; [reflexivity |].
    intros j Hj.
    destruct (Z.leb_spec i j), (Z.ltb_spec j (i + Z.of_nat 0));
      cbn [andb]; try reflexivity; lia.
  - destruct (ring_slot_some (capacity s) (start s) Hst (buffer s) i Hlen)
      as [x Hx].
    destruct (IH (i + 1) (update acc (Z.to_nat i) x))
      as (acc' & Hrun & Hlen' & Hview); try lia.
    { now rewrite update_length. }
    exists acc'. split; [| split].
    + cbn [for_up_n].
      erewrite bind_run; [exact Hrun |].
      run_with ltac:(apply slot_in_ring; lia).
      run_with ltac:(apply load_run; [apply Z.mod_pos_bound; lia | exact Hx]).
      unfold lift, array_set.
      destruct (Z.leb_spec 0 i) as [_ | Hneg]; [| lia].
      destruct (Z.ltb_spec i (Z.of_nat (List.length acc))) as [_ | Hbig]; [| lia].
      reflexivity.
    + rewrite Hlen'. apply update_length.
    + intros j Hj. rewrite (Hview j Hj).
      destruct (Z.leb_spec (i + 1) j), (Z.ltb_spec j (i + 1 + Z.of_nat k)),
               (Z.leb_spec i j), (Z.ltb_spec j (i + Z.of_nat (S k)));
        cbn [andb]; try reflexivity; try lia;
        first [ apply nth_error_update_neq; lia
              | assert (j = i) by lia; subst j;
                rewrite nth_error_update_eq by lia; now rewrite Hx ].
Qed.

(** X19.  [rotate(new_begin)] with a valid argument, on a buffer whose markers
    are in place, returns normally and leaves the count, the capacity and
    the element at every logical index as they were. *)
Lemma rotate_run (dflt : T) (this : CircularBuffer T) (new_begin : Z) :
  ring_ready this -> 0 <= new_begin < size this ->
  exists after,
    rotate dflt new_begin this = Normal tt after /\
    size after = size this /\
    capacity after = capacity this /\
    forall j, 0 <= j < size this ->
      exists x, at_ j this = Normal x this /\ at_ j after = Normal x after.
Proof.
  intros (Hst & Hlen & Hmax & Hsize & Hend) Hnew.
  destruct int_bounds as [Hmin Hmaxv].
  destruct (Z.eqb_spec new_begin (start this)) as [Hsame | Hmove].
  - exists this. split; [| split; [reflexivity | split; [reflexivity |]]].
    + unfold rotate. run_with reflexivity.
      destruct (Z.ltb_spec new_begin 0) as [Hneg | _]; [lia |].
      destruct (Z.geb_spec new_begin (size this)) as [Hbig | _]; [lia |].
      cbn [orb].
      destruct (Z.eqb_spec new_begin (start this)) as [_ | Hne]; [| lia].
      reflexivity.
    + intros j Hj.
      destruct (ring_slot_some (capacity this) (start this) Hst (buffer this) j Hlen)
        as [x Hx].
      exists x. split; apply at_run; try assumption; lia.
  - destruct (copy_loop this Hst Hlen Hmax (Z.to_nat (size this - 0)) 0
                (new_array dflt (capacity this)))
      as (acc' & Hrun & Hlen' & Hview); try lia.
    { unfold new_array. rewrite repeat_length. lia. }
    assert (Hlen'' : Z.of_nat (List.length acc') = capacity this).
    { rewrite Hlen'. unfold new_array. rewrite repeat_length. lia. }
    exists (mkCB (capacity this) (size this) acc' 0 (size this - 1)).
    split; [| split; [reflexivity | split; [reflexivity |]]].
    + unfold rotate. run_with reflexivity.
      destruct (Z.ltb_spec new_begin 0) as [Hneg | _]; [lia |].
      destruct (Z.geb_spec new_begin (size this)) as [Hbig | _]; [lia |].
      cbn [orb].
      destruct (Z.eqb_spec new_begin (start this)) as [Heq | _]; [lia |].
      run_with ltac:(apply sub_run; lia).
      destruct (new_begin - start this <? 0).
      * run_with ltac:(apply add_run; lia).
        unfold for_up_acc. run_with ltac:(exact Hrun).
        run_with reflexivity.
        run_with ltac:(apply sub_run; lia).
        run_with reflexivity.
        reflexivity.
      * run_with reflexivity.
        unfold for_up_acc. run_with ltac:(exact Hrun).
        run_with reflexivity.
        run_with ltac:(apply sub_run; lia).
        run_with reflexivity.
        reflexivity.
    + intros j Hj.
      destruct (ring_slot_some (capacity this) (start this) Hst (buffer this) j Hlen)
        as [x Hx].
      exists x. split; [apply at_run; try assumption; lia |].
      apply at_run; cbn [start capacity size buffer]; try lia.
      unfold ring_slot. rewrite Z.add_0_l, Z.mod_small by lia.
      rewrite Hview by lia.
      rewrite Z2Nat.id by lia.
      destruct (Z.leb_spec 0 j), (Z.ltb_spec j (0 + (size this - 0)));
        cbn [andb]; try lia.
      exact Hx.
Qed.

(** [set_capacity] with a positive argument and a [realloc] that returns a
    block: the capacity becomes the argument, the block is whatever
    [realloc] returned, and the count is not touched, also when it exceeds
    the new capacity. *)
Lemma set_capacity_run (realloc : list T -> Z -> option (list T))
      (this : CircularBuffer T) (new_capacity : Z) (block : list T) :
  0 < new_capacity ->
  realloc (buffer this) new_capacity = Some block ->
  set_capacity realloc new_capacity this
  = Normal tt (mkCB new_capacity (size this) block (start this) (end_ this)).
Proof.
  intros Hpos Hblock. unfold set_capacity.
  destruct (Z.leb_spec new_capacity 0) as [Hn | _]; [lia |].
  run_with reflexivity. run_with reflexivity.
  cbn [buffer]. now rewrite Hblock.
Qed.

End RotateSetCapacity.


(** *** The capacity once constructed *)

Section Capacity.
Context {T : Type}.

Lemma keeps_capacity_ret {A : Type} (a : A) : keeps_capacity (ret a : M T A).
Proof. intros this a' after Hrun. now inversion Hrun. Qed.

Lemma keeps_capacity_undefined {A : Type} : keeps_capacity (undefined : M T A).
Proof. intros this a after Hrun. discriminate. Qed.

Lemma keeps_capacity_throw {A : Type} (e : exn) : keeps_capacity (throw e : M T A).
Proof. intros this a after Hrun. discriminate. Qed.

Lemma keeps_capacity_bind {A B : Type} (c : M T A) (k : A -> M T B) :
  keeps_capacity c -> (forall a, keeps_capacity (k a)) ->
  keeps_capacity (x <- c ;; k x).
Proof.
  intros Hc Hk this b after Hrun. cbn in Hrun.
  destruct (c this) as [a this' | e this' |] eqn:Hfirst; try discriminate.
  apply Hk in Hrun. apply Hc in Hfirst. congruence.
Qed.

Lemma keeps_capacity_get : keeps_capacity (@get T).
Proof. intros this a after Hrun. now inversion Hrun. Qed.

Lemma keeps_capacity_set_size (v : Z) : keeps_capacity (@set_size T v).
Proof. intros this a after Hrun. now inversion Hrun. Qed.

Lemma keeps_capacity_set_buffer (v : list T) : keeps_capacity (set_buffer v).
Proof. intros this a after Hrun. now inversion Hrun. Qed.

Lemma keeps_capacity_set_start (v : Z) : keeps_capacity (@set_start T v).
Proof. intros this a after Hrun. now inversion Hrun. Qed.

Lemma keeps_capacity_set_end (v : Z) : keeps_capacity (@set_end T v).
Proof. intros this a after Hrun. now inversion Hrun. Qed.

Lemma keeps_capacity_lift {A : Type} (r : result A) :
  keeps_capacity (lift r : M T A).
Proof.
  intros this a after Hrun. unfold lift in Hrun.
  destruct r; try discriminate. now inversion Hrun.
Qed.

Lemma keeps_capacity_int_of (z : Z) : keeps_capacity (int_of z : M T Z).
Proof.
  intros this a after Hrun. unfold int_of in Hrun.
  destruct (in_int z); [now inversion Hrun | discriminate].
Qed.

Lemma keeps_capacity_add (a b : Z) : keeps_capacity (add a b : M T Z).
Proof. apply keeps_capacity_int_of. Qed.

Lemma keeps_capacity_sub (a b : Z) : keeps_capacity (sub a b : M T Z).
Proof. apply keeps_capacity_int_of. Qed.

Lemma keeps_capacity_rem (a b : Z) : keeps_capacity (rem a b : M T Z).
Proof.
  intros this r after Hrun. unfold rem in Hrun.
  destruct ((b =? 0) || ((a =? INT_MIN) && (b =? -1)));
    [discriminate | now inversion Hrun].
Qed.

Lemma keeps_capacity_for_up_n {Acc : Type} (body : Z -> Acc -> M T Acc) :
  (forall i acc, keeps_capacity (body i acc)) ->
  forall n i acc, keeps_capacity (for_up_n n i acc body).
Proof.
  intros Hbody. induction n as [| n IH]; intros i acc; cbn [for_up_n].
  - apply keeps_capacity_ret.
  - apply keeps_capacity_bind; [apply Hbody | intros acc'; apply IH].
Qed.

Lemma keeps_capacity_for_down_n (body : Z -> M T unit) :
  (forall i, keeps_capacity (body i)) ->
  forall n i, keeps_capacity (for_down_n n i body).
Proof.
  intros Hbody. induction n as [| n IH]; intros i; cbn [for_down_n].
  - apply keeps_capacity_ret.
  - apply keeps_capacity_bind; [apply Hbody | intros _; apply IH].
Qed.

End Capacity.

Create HintDb keeps_capacity.
#[global] Hint Resolve keeps_capacity_ret keeps_capacity_undefined
  keeps_capacity_throw keeps_capacity_get keeps_capacity_set_size
  keeps_capacity_set_buffer keeps_capacity_set_start keeps_capacity_set_end
  keeps_capacity_lift keeps_capacity_int_of keeps_capacity_add
  keeps_capacity_sub keeps_capacity_rem : keeps_capacity.

(** Walks down a method body, unfolding the helpers that are themselves
    sequences. *)
Ltac capacity_kept :=
  repeat match goal with
         | |- keeps_capacity _ => solve [auto with keeps_capacity]
         | |- keeps_capacity (bind _ _) =>
             apply keeps_capacity_bind; [| intro]
         | |- keeps_capacity (for_up _ _ _) =>
             unfold for_up; apply keeps_capacity_for_up_n; intros
         | |- keeps_capacity (for_up_acc _ _ _ _) =>
             unfold for_up_acc; apply keeps_capacity_for_up_n; intros
         | |- keeps_capacity (for_down _ _ _) =>
             unfold for_down; apply keeps_capacity_for_down_n; intros
         | |- keeps_capacity (if ?b then _ else _) => destruct b
         | |- keeps_capacity (load _) => unfold load
         | |- keeps_capacity (store _ _) => unfold store
         | |- keeps_capacity (slot _) => unfold slot
         | |- keeps_capacity (push_back _) => unfold push_back
         | |- keeps_capacity pop_back => unfold pop_back
         end.

(** X21.  No member function other than [set_capacity] and the assignment
    operator changes [capacity]; [set_capacity] only sets a positive one,
    and assignment copies the one of its argument.  A buffer whose capacity
    is positive therefore keeps a positive capacity, whatever is called on
    it, as long as the buffers assigned to it have a positive capacity
    too. *)
Lemma capacity_stays_positive {T : Type} (dflt : T)
      (realloc : list T -> Z -> option (list T))
      (c : call T) (this after : CircularBuffer T) :
  0 < capacity this ->
  match c with CallAssign _ cb => 0 < capacity cb | _ => True end ->
  run_call dflt realloc c this = Normal tt after ->
  0 < capacity after.
Proof.
  intros Hpos Hsrc Hrun.
  destruct c as [i | i | | | | new_begin | | | new_capacity | new_size item
                 | self cb | item | item | | | pos item | first last |];
    cbn [run_call] in Hrun;
    try (lazymatch type of Hrun with
         | set_capacity _ _ _ = _ => fail
         | assign _ _ _ _ = _ => fail
         | _ => idtac
         end;
         enough (Hkeep : capacity after = capacity this) by lia;
         revert Hrun;
         match goal with
         | |- ?c _ = Normal tt _ -> _ =>
             assert (Hc : keeps_capacity c); [| now apply Hc]
         end).
  - unfold index. capacity_kept.
  - unfold at_. capacity_kept.
  - unfold front. capacity_kept.
  - unfold back. capacity_kept.
  - unfold linearize. capacity_kept.
  - unfold rotate. capacity_kept.
  - unfold reserve. capacity_kept.
  - unfold is_linearized. capacity_kept.
  - unfold set_capacity in Hrun.
    destruct (Z.leb_spec new_capacity 0) as [Hn | Hn]; [discriminate |].
    cbn in Hrun.
    destruct (realloc (buffer this) new_capacity); [| discriminate].
    inversion Hrun; subst. exact Hn.
  - unfold resize. capacity_kept.
  - unfold assign in Hrun. destruct self.
    + inversion Hrun; subst. exact Hpos.
    + rewrite (bind_run (set_capacity_field (capacity cb)) _ this _ tt eq_refl)
        in Hrun.
      revert Hrun.
      match goal with
      | |- ?c _ = Normal tt _ -> _ =>
          assert (Hc : keeps_capacity c) by capacity_kept;
          intros Hrun; apply Hc in Hrun
      end.
      rewrite Hrun. exact Hsrc.
  - unfold push_back. capacity_kept.
  - unfold push_front. capacity_kept.
  - unfold pop_back. capacity_kept.
  - unfold pop_front. capacity_kept.
  - unfold insert. capacity_kept.
  - unfold erase. capacity_kept.
  - unfold clear. capacity_kept.
Qed.

(** ** The unit tests of [tests.cpp], run on the embedding *)

(** [DefaultConstructor] *)
Example test_DefaultConstructor :
  empty (@CircularBuffer_default Z) = true /\
  get_size (@CircularBuffer_default Z) = 0 /\
  get_capacity (@CircularBuffer_default Z) = 0 /\
  eval reserve (@CircularBuffer_default Z) = Ok 0.
Proof. repeat split. Qed.

(** [CapacityConstructor] *)
Example test_CapacityConstructor :
  exists buffer0 buffer2 : CircularBuffer Z,
    CircularBuffer_capacity 0 10 = Ok buffer0 /\
    empty buffer0 = true /\ get_size buffer0 = 0 /\
    get_capacity buffer0 = 10 /\ eval reserve buffer0 = Ok 10 /\
    exec (push_back 1 ;; push_back 2) buffer0 = Ok buffer2 /\
    get_size buffer2 = 2 /\
    eval front buffer2 = Ok 1 /\ eval back buffer2 = Ok 2.
Proof.
  exists (mkCB 10 0 (repeat 0 10) (-1) (-1)),
         (mkCB 10 2 (1 :: 2 :: repeat 0 8) 0 1).
  repeat split.
Qed.

(** [CopyConstructor], up to the comparison of the two buffers, which reads
    slots that were never assigned. *)
Example test_CopyConstructor :
  exists buffer1 buffer2 : CircularBuffer Z,
    built 5 (push_back 1 ;; push_back 2 ;; push_back 3) = Ok buffer1 /\
    get_size buffer1 = 3 /\
    eval front buffer1 = Ok 1 /\ eval back buffer1 = Ok 3 /\
    CircularBuffer_copy 0 buffer1 = Ok buffer2 /\
    get_size buffer2 = 3 /\
    eval front buffer2 = Ok 1 /\ eval back buffer2 = Ok 3.
Proof.
  exists (mkCB 5 3 [1; 2; 3; 0; 0] 0 2), (mkCB 5 3 [1; 2; 3; 0; 0] 0 2).
  repeat split.
Qed.

(** [CapacityAndElementConstructor] *)
Example test_CapacityAndElementConstructor :
  exists buffer : CircularBuffer Z,
    CircularBuffer_fill 0 5 42 = Ok buffer /\
    get_size buffer = 5 /\
    eval front buffer = Ok 42 /\ eval back buffer = Ok 42 /\
    Forall (fun i => eval (index i) buffer = Ok 42) [0; 1; 2; 3; 4].
Proof.
  exists (mkCB 5 5 [42; 42; 42; 42; 42] 0 4).
  repeat split. repeat constructor.
Qed.

(** [OperatorAccessConst], [AtAccessNonConst] and [AtAccessConst] *)
Example test_AtAccess :
  exists cb : CircularBuffer Z,
    built 5 (push_back 10 ;; push_back 20 ;; push_back 30) = Ok cb /\
    eval (index 2) cb = Ok 30 /\
    eval (at_ 1) cb = Ok 20 /\
    eval (at_ 2) cb = Ok 30 /\
    eval (at_ 5) cb = Throw (out_of_range "Index out of bounds").
Proof.
  exists (mkCB 5 3 [10; 20; 30; 0; 0] 0 2). repeat split.
Qed.

(** [AtAccessThrowsOnOutOfRange] *)
Example test_AtAccessThrowsOnOutOfRange :
  exists cb0 cb1 : CircularBuffer Z,
    CircularBuffer_capacity 0 5 = Ok cb0 /\
    eval (at_ 0) cb0 = Throw (out_of_range "Index out of bounds") /\
    exec (push_back 100) cb0 = Ok cb1 /\
    eval (at_ 0) cb1 = Ok 100 /\
    eval (at_ 1) cb1 = Throw (out_of_range "Index out of bounds").
Proof.
  exists (mkCB 5 0 [0; 0; 0; 0; 0] (-1) (-1)), (mkCB 5 1 [100; 0; 0; 0; 0] 0 0).
  repeat split.
Qed.

(** [SizeFunction] *)
Example test_SizeFunction :
  (cb <- built 5 (ret tt) ;; Ok (get_size cb)) = Ok 0 /\
  (cb <- built 5 (push_back 5) ;; Ok (get_size cb)) = Ok 1 /\
  (cb <- built 5 (push_back 5 ;; push_back 10) ;; Ok (get_size cb)) = Ok 2.
Proof. repeat split. Qed.

(** ** The general lemmas at concrete buffers *)

(** The buffer left by [push_back(1); push_back(2); push_back(3);
    pop_front()] on a buffer of capacity 3: it holds [2, 3] from slot 1. *)
Example ring_ready_after_pop_front :
  built 3 (push_back 1 ;; push_back 2 ;; push_back 3 ;; pop_front)
  = Ok (mkCB 3 2 [1; 2; 3] 1 2) /\
  ring_ready (mkCB 3 2 [1; 2; 3] 1 2).
Proof.
  split; [reflexivity |].
  unfold ring_ready, INT_MAX. cbn. lia.
Qed.

Example push_front_run_at_wrapped_buffer :
  exists after,
    push_front 7 (mkCB 3 2 [1; 2; 3] 1 2) = Normal tt after /\
    size after = 3 /\
    capacity after = 3 /\
    front after = Normal 7 after.
Proof.
  apply (push_front_run 7 (mkCB 3 2 [1; 2; 3] 1 2)).
  - exact (proj2 ring_ready_after_pop_front).
  - cbn. lia.
  - cbn. lia.
Qed.

Example push_back_run_at_fresh_buffer :
  exists after,
    push_back 7 (mkCB 3 0 [0; 0; 0] (-1) (-1)) = Normal tt after /\
    size after = 1 /\
    capacity after = 3 /\
    back after = Normal 7 after.
Proof.
  apply (push_back_run 7 (mkCB 3 0 [0; 0; 0] (-1) (-1))).
  - unfold block_ready, INT_MAX. cbn. lia.
  - cbn. lia.
Qed.

(** ** The claims *)

(** C1, at the failing input.  On the buffer of capacity 3 left by
    [push_back(1); pop_back()] (count 0, not full), [push_front(7)] returns
    normally and the count becomes 1, but the item was written to slot 2
    while [start] was set to 0: [front()] yields 1, not 7. *)
Theorem push_front_on_emptied_buffer :
  exists this after : CircularBuffer Z,
    built 3 (push_back 1 ;; pop_back) = Ok this /\
    full this = false /\
    size this = 0 /\
    push_front 7 this = Normal tt after /\
    size after = 1 /\
    front after = Normal 1 after.
Proof.
  exists (mkCB 3 0 [1; 0; 0] 0 (-1)), (mkCB 3 1 [1; 0; 7] 0 (-1)).
  repeat split.
Qed.

(** C2, at the failing input.  [a] has capacity 2 and holds [1]; [b] has
    capacity 3 and holds [7, 8].  After [a.swap(b)], [a] owns the block of
    [b] but keeps its own capacity 2, count 1 and markers, so that [at(1)],
    which was 8 in [b], is out of range in [a]. *)
Theorem swap_exchanges_storage_only :
  exists a b : CircularBuffer Z,
    built 2 (push_back 1) = Ok a /\
    built 3 (push_back 7 ;; push_back 8) = Ok b /\
    swap a b = (mkCB 2 1 [7; 8; 0] 0 0, mkCB 3 2 [1; 0] 0 1) /\
    capacity (fst (swap a b)) = capacity a /\
    size (fst (swap a b)) = size a /\
    capacity (fst (swap a b)) <> capacity b /\
    size (fst (swap a b)) <> size b /\
    eval (at_ 1) b = Ok 8 /\
    eval (at_ 1) (fst (swap a b))
    = Throw (out_of_range "Index out of bounds").
Proof.
  exists (mkCB 2 1 [1; 0] 0 0), (mkCB 3 2 [7; 8; 0] 0 1).
  repeat split; cbn; discriminate.
Qed.

(** C3, counterexample.  After [push_back(1); clear()] on a buffer of
    capacity 3 the count is 0, yet [front()] and [back()] both return
    normally, with the stale value 1, instead of failing. *)
Lemma front_back_on_cleared_buffer :
  exists this : CircularBuffer Z,
    built 3 (push_back 1 ;; clear) = Ok this /\
    size this = 0 /\
    front this = Normal 1 this /\
    back this = Normal 1 this.
Proof.
  exists (mkCB 3 0 [1; 0; 0] 0 0). repeat split.
Qed.

(** C3 (as amended).  [front()] and [back()] contain no [throw]: whatever
    the count, they never fail with the empty-buffer error (nor any other);
    they read the slots at the physical indices [start] and [end].  For
    every buffer with count > 0 whose markers are consistent, they return
    the first and the last live element, i.e. what [at(0)] and
    [at(count - 1)] return. *)
Theorem front_back_unchecked {T : Type} (this : CircularBuffer T) :
  (forall e s, front this <> Raised e s) /\
  (forall e s, back this <> Raised e s) /\
  (0 < size this -> markers_consistent this ->
   exists x y,
     front this = Normal x this /\ at_ 0 this = Normal x this /\
     back this = Normal y this /\ at_ (size this - 1) this = Normal y this).
Proof.
  split; [| split].
  - intros e s. unfold front. cbn. apply load_never_raises.
  - intros e s. unfold back. cbn. apply load_never_raises.
  - intros Hsize (Hstart & Hlen & Hmax & Hend).
    destruct (array_get_in_range (buffer this) (start this)) as [x Hx]; [lia |].
    destruct (array_get_in_range (buffer this) (end_ this)) as [y Hy].
    { rewrite Hend, Hlen. apply Z.mod_pos_bound. lia. }
    exists x, y.
    assert (Hfront : front this = Normal x this).
    { unfold front, load, get, lift. cbn. now rewrite Hx. }
    assert (Hback : back this = Normal y this).
    { unfold back, load, get, lift. cbn. now rewrite Hy. }
    repeat split; try assumption.
    + unfold at_. cbn -[slot load]. unfold get.
      destruct (Z.geb_spec 0 (size this)) as [Hge | _]; [lia |]. cbn -[slot load].
      rewrite slot_in_ring by lia.
      rewrite Z.add_0_r, Z.mod_small by lia.
      unfold load, get, lift. cbn. now rewrite Hx.
    + unfold at_. cbn -[slot load]. unfold get.
      destruct (Z.ltb_spec (size this - 1) 0) as [Hlt | _]; [lia |].
      destruct (Z.geb_spec (size this - 1) (size this)) as [Hge | _]; [lia |].
      cbn -[slot load].
      rewrite slot_in_ring by lia.
      replace (start this + (size this - 1)) with (start this + size this - 1) by lia.
      rewrite <- Hend.
      unfold load, get, lift. cbn. now rewrite Hy.
Qed.

(** The hypotheses of the C3 theorem hold of the buffer left by
    [push_back(1); push_back(2)] on a buffer of capacity 3. *)
Lemma front_back_unchecked_witness :
  0 < size (mkCB 3 2 [1; 2; 0] 0 1) /\
  markers_consistent (mkCB 3 2 [1; 2; 0] 0 1) /\
  exists x y,
    front (mkCB 3 2 [1; 2; 0] 0 1) = Normal x (mkCB 3 2 [1; 2; 0] 0 1) /\
    at_ 0 (mkCB 3 2 [1; 2; 0] 0 1) = Normal x (mkCB 3 2 [1; 2; 0] 0 1) /\
    back (mkCB 3 2 [1; 2; 0] 0 1) = Normal y (mkCB 3 2 [1; 2; 0] 0 1) /\
    at_ (size (mkCB 3 2 [1; 2; 0] 0 1) - 1) (mkCB 3 2 [1; 2; 0] 0 1)
    = Normal y (mkCB 3 2 [1; 2; 0] 0 1).
Proof.
  assert (Hsize : 0 < size (mkCB 3 2 [1; 2; 0] 0 1)) by (cbn; lia).
  assert (Hmark : markers_consistent (mkCB 3 2 [1; 2; 0] 0 1)).
  { unfold markers_consistent, INT_MAX. cbn. lia. }
  split; [exact Hsize |]. split; [exact Hmark |].
  exact (proj2 (proj2 (front_back_unchecked (mkCB 3 2 [1; 2; 0] 0 1))) Hsize Hmark).
Defined.

(** C4, at the failing input.  On the full buffer [1, 2, 3] of capacity 3,
    [rotate(1)] returns normally and the element at every logical index is
    what it was: the element at index 0 is still 1, not the former element
    at index 1. *)
Theorem rotate_keeps_logical_order :
  exists this after : CircularBuffer Z,
    built 3 (push_back 1 ;; push_back 2 ;; push_back 3) = Ok this /\
    eval (at_ 0) this = Ok 1 /\
    eval (at_ 1) this = Ok 2 /\
    eval (at_ 2) this = Ok 3 /\
    rotate 0 1 this = Normal tt after /\
    eval (at_ 0) after = Ok 1 /\
    eval (at_ 1) after = Ok 2 /\
    eval (at_ 2) after = Ok 3.
Proof.
  exists (mkCB 3 3 [1; 2; 3] 0 2), (mkCB 3 3 [1; 2; 3] 0 2).
  repeat split.
Qed.

(** C5, counterexample.  [set_capacity(0)] on the buffer of capacity 3
    holding [1] throws [std::invalid_argument], whatever [realloc] does,
    although 0 is not negative. *)
Lemma set_capacity_zero_rejected :
  exists this : CircularBuffer Z,
    built 3 (push_back 1) = Ok this /\
    forall realloc,
      set_capacity realloc 0 this
      = Raised (invalid_argument "Capacity must be greater than 0") this.
Proof.
  exists (mkCB 3 1 [1; 0; 0] 0 0). split; reflexivity.
Qed.

(** C5 (as amended).  [set_capacity(new_capacity)] fails with
    [std::invalid_argument] exactly when [new_capacity <= 0], and then the
    buffer is left as it was. *)
Theorem set_capacity_invalid_iff {T : Type}
        (realloc : list T -> Z -> option (list T))
        (this : CircularBuffer T) (new_capacity : Z) :
  ((exists what s,
       set_capacity realloc new_capacity this = Raised (invalid_argument what) s)
   <-> new_capacity <= 0) /\
  (new_capacity <= 0 ->
   set_capacity realloc new_capacity this
   = Raised (invalid_argument "Capacity must be greater than 0") this).
Proof.
  assert (Hle : new_capacity <= 0 ->
                set_capacity realloc new_capacity this
                = Raised (invalid_argument "Capacity must be greater than 0") this).
  { intros Hn. unfold set_capacity.
    destruct (Z.leb_spec new_capacity 0) as [_ | Hpos]; [reflexivity | lia]. }
  split; [split |]; [| | exact Hle].
  - intros (what & s & Hraise). unfold set_capacity in Hraise.
    destruct (Z.leb_spec new_capacity 0) as [Hn | Hpos]; [exact Hn |].
    cbn in Hraise. destruct (realloc (buffer this) new_capacity); discriminate.
  - intros Hn. eexists. eexists. apply Hle, Hn.
Qed.

(** The C5 theorem at [new_capacity = -4]. *)
Lemma set_capacity_invalid_iff_witness :
  (-4) <= 0 /\
  set_capacity realloc_null (-4) (mkCB 3 1 [1; 0; 0] 0 0)
  = Raised (invalid_argument "Capacity must be greater than 0")
           (mkCB 3 1 [1; 0; 0] 0 0).
Proof.
  assert (Hn : (-4) <= 0) by lia.
  split; [exact Hn |].
  exact (proj2 (set_capacity_invalid_iff realloc_null (mkCB 3 1 [1; 0; 0] 0 0) (-4)) Hn).
Defined.

(** C6, at the failing input.  [a] holds [1, 2] and [b] holds [2, 1], both
    of capacity 2 and count 2; their elements at logical index 0 differ, and
    [a == b] is [true]. *)
Theorem operator_eq_accepts_different_sequences :
  exists a b : CircularBuffer Z,
    built 2 (push_back 1 ;; push_back 2) = Ok a /\
    built 2 (push_back 2 ;; push_back 1) = Ok b /\
    get_size a = 2 /\ get_size b = 2 /\
    eval (at_ 0) a = Ok 1 /\
    eval (at_ 0) b = Ok 2 /\
    operator_eq a b = Ok true.
Proof.
  exists (mkCB 2 2 [1; 2] 0 1), (mkCB 2 2 [2; 1] 0 1).
  repeat split.
Qed.

(** C7, at the failing input.  On the buffer of capacity 3 holding [1],
    [set_capacity(5)] with a [realloc] that returns a null pointer throws
    [std::out_of_range] after [capacity] and [buffer] were assigned: the
    capacity observed after the failure is 5 and the element at index 0 can
    no longer be read. *)
Theorem set_capacity_failure_keeps_new_capacity :
  exists this after : CircularBuffer Z,
    built 3 (push_back 1) = Ok this /\
    set_capacity realloc_null 5 this
    = Raised (out_of_range "Index out of bounds") after /\
    get_capacity this = 3 /\
    get_capacity after = 5 /\
    eval (at_ 0) this = Ok 1 /\
    eval (at_ 0) after = UB.
Proof.
  exists (mkCB 3 1 [1; 0; 0] 0 0), (mkCB 5 1 [] 0 0).
  repeat split.
Qed.

(** C8, counterexample.  [CircularBuffer<int> cb(0)] throws
    [std::invalid_argument]. *)
Lemma CircularBuffer_capacity_zero_rejected :
  CircularBuffer_capacity 0 0
  = Throw (invalid_argument "Capacity must be greater than 0").
Proof. reflexivity. Qed.

(** C8 (as amended).  Construction with an explicit capacity fails with
    [std::invalid_argument] exactly when [capacity <= 0]; for every
    [capacity > 0] it succeeds and the new buffer has count 0, the requested
    capacity, a block of that many slots, and is empty and not full. *)
Theorem CircularBuffer_capacity_spec {T : Type} (dflt : T) (c : Z) :
  ((exists what, CircularBuffer_capacity dflt c = Throw (invalid_argument what))
   <-> c <= 0) /\
  (0 < c ->
   exists this,
     CircularBuffer_capacity dflt c = Ok this /\
     get_size this = 0 /\
     get_capacity this = c /\
     empty this = true /\
     full this = false /\
     Z.of_nat (List.length (buffer this)) = c).
Proof.
  unfold CircularBuffer_capacity.
  destruct (Z.leb_spec c 0) as [Hn | Hpos].
  - split; [split |]; [intros _; exact Hn | intros _; eexists; reflexivity | lia].
  - split; [split |].
    + intros (what & Habs). discriminate.
    + lia.
    + intros _. eexists. split; [reflexivity |].
      unfold get_size, get_capacity, empty, full, new_array.
      cbn [size buffer capacity].
      rewrite repeat_length.
      destruct (Z.eqb_spec 0 c) as [H0 | _]; [lia |].
      repeat split. lia.
Qed.

(** The C8 theorem at capacity 3. *)
Lemma CircularBuffer_capacity_spec_witness :
  0 < 3 /\
  exists this : CircularBuffer Z,
    CircularBuffer_capacity 0 3 = Ok this /\
    get_size this = 0 /\
    get_capacity this = 3 /\
    empty this = true /\
    full this = false /\
    Z.of_nat (List.length (buffer this)) = 3.
Proof.
  assert (Hpos : 0 < 3) by lia.
  split; [exact Hpos |].
  exact (proj2 (CircularBuffer_capacity_spec 0 3) Hpos).
Defined.

(** C9, at the failing input.  On a freshly constructed buffer of capacity 3
    (count 0, not full, [start = -1]) [insert(0, 7)] computes the slot
    [(-1 + 0) % 3 = -1] and writes outside the block, so neither this call
    nor the sequence [insert(0, 7); erase(0, 0)] has a defined outcome. *)
Theorem insert_into_fresh_buffer_is_undefined :
  exists this : CircularBuffer Z,
    CircularBuffer_capacity 0 3 = Ok this /\
    full this = false /\
    size this = 0 /\
    eval (slot 0) this = Ok (-1) /\
    insert 0 7 this = Undef /\
    (insert 0 7 ;; erase 0 0) this = Undef.
Proof.
  exists (mkCB 3 0 [0; 0; 0] (-1) (-1)).
  repeat split.
Qed.

(** Each end insertion or removal on a default-constructed buffer throws
    its exception and leaves the object as it was. *)
Lemma end_call_on_default {T : Type} (c : end_call T) :
  run_end_call c CircularBuffer_default
  = Raised (end_call_error c) CircularBuffer_default.
Proof. destruct c; reflexivity. Qed.

(** C10, counterexample.  After [CircularBuffer<int> d;
    CircularBuffer<int> e(d);] the copy [e] has capacity 0 although it was
    not built by the zero-argument constructor; and after
    [CircularBuffer<int> f(3); f.push_back(1); d = f;] the
    default-constructed [d] has count 1 and [d.at(0)] is 1: it did not stay
    empty. *)
Lemma default_buffer_copied_and_assigned :
  exists e f d : CircularBuffer Z,
    CircularBuffer_copy 0 CircularBuffer_default = Ok e /\
    get_capacity e = 0 /\
    built 3 (push_back 1) = Ok f /\
    assign 0 false f CircularBuffer_default = Normal tt d /\
    get_capacity d = 3 /\
    get_size d = 1 /\
    empty d = false /\
    at_ 0 d = Normal 1 d.
Proof.
  exists (mkCB 0 0 [] (-1) (-1)), (mkCB 3 1 [1; 0; 0] 0 0),
         (mkCB 3 1 [1; 0; 0] 0 0).
  repeat split.
Qed.

(** C10 (as amended).  A default-constructed buffer has capacity 0 and
    count 0; [empty()] and [full()] are both true and [reserve()] is 0;
    whatever sequence of pushes and pops a caller attempts, each push throws
    [std::overflow_error], each pop throws [std::underflow_error], and the
    buffer is the default-constructed one at the end.  Both constructors
    that take a capacity reject 0, a buffer the explicit-capacity
    constructor returns has a positive capacity, and [set_capacity] rejects
    0 as well.  The zero-argument constructor is not the only source of a
    zero-capacity buffer: the copy of a default-constructed buffer, and any
    object a default-constructed buffer is assigned to, is such a buffer
    again.  Nor is the buffer empty for good: assigned a buffer that holds
    an element, it holds that element. *)
Theorem default_constructed_buffer {T : Type} (dflt : T) :
  get_capacity (@CircularBuffer_default T) = 0 /\
  get_size (@CircularBuffer_default T) = 0 /\
  empty (@CircularBuffer_default T) = true /\
  full (@CircularBuffer_default T) = true /\
  reserve (@CircularBuffer_default T) = Normal 0 CircularBuffer_default /\
  (forall cs : list (end_call T),
      attempts cs CircularBuffer_default
      = Some (map (fun c => Some (end_call_error c)) cs, CircularBuffer_default)) /\
  CircularBuffer_capacity dflt 0
  = Throw (invalid_argument "Capacity must be greater than 0") /\
  (forall elem : T,
      CircularBuffer_fill dflt 0 elem
      = Throw (invalid_argument "Capacity must be greater than 0")) /\
  (forall c : Z,
      match CircularBuffer_capacity dflt c with
      | Ok this => 0 <? get_capacity this
      | Throw _ => c <=? 0
      | UB => false
      end = true) /\
  (forall (realloc : list T -> Z -> option (list T)) (this : CircularBuffer T),
      set_capacity realloc 0 this
      = Raised (invalid_argument "Capacity must be greater than 0") this) /\
  CircularBuffer_copy dflt CircularBuffer_default = Ok CircularBuffer_default /\
  (forall this : CircularBuffer T,
      assign dflt false CircularBuffer_default this
      = Normal tt CircularBuffer_default) /\
  (forall x : T,
      assign dflt false (mkCB 1 1 [x] 0 0) CircularBuffer_default
      = Normal tt (mkCB 1 1 [x] 0 0) /\
      empty (mkCB 1 1 [x] 0 0) = false /\
      at_ 0 (mkCB 1 1 [x] 0 0) = Normal x (mkCB 1 1 [x] 0 0)).
Proof.
  repeat split.
  - induction cs as [| c cs IH]; [reflexivity |].
    cbn [attempts map]. rewrite end_call_on_default, IH. reflexivity.
  - intros c. unfold CircularBuffer_capacity.
    destruct (Z.leb_spec c 0) as [Hn | Hpos].
    + reflexivity.
    + unfold get_capacity. cbn [capacity]. now apply Z.ltb_lt.
Qed.

(** ** Further properties of the header *)

(** *** Reading the logical sequence *)

Section Contents.
Context {T : Type}.

Lemma at_some (s : CircularBuffer T) (j : Z) :
  0 <= start s < capacity s ->
  Z.of_nat (List.length (buffer s)) = capacity s ->
  2 * capacity s <= INT_MAX ->
  0 <= j < size s -> size s <= capacity s ->
  exists x,
    nth_error (buffer s) (ring_slot (capacity s) (start s) j) = Some x /\
    at_ j s = Normal x s.
Proof.
  intros Hst Hlen Hmax Hj Hsize.
  destruct (ring_slot_some (capacity s) (start s) Hst (buffer s) j Hlen)
    as [x Hx].
  exists x. split; [exact Hx |].
  apply at_run; try assumption; lia.
Qed.

(** Two reads agree when they reach equal slots. *)
Lemma eval_at_eq (s s' : CircularBuffer T) (j j' : Z) :
  0 <= start s < capacity s ->
  Z.of_nat (List.length (buffer s)) = capacity s ->
  2 * capacity s <= INT_MAX ->
  0 <= j < size s -> size s <= capacity s ->
  0 <= start s' < capacity s' ->
  Z.of_nat (List.length (buffer s')) = capacity s' ->
  2 * capacity s' <= INT_MAX ->
  0 <= j' < size s' -> size s' <= capacity s' ->
  nth_error (buffer s) (ring_slot (capacity s) (start s) j)
  = nth_error (buffer s') (ring_slot (capacity s') (start s') j') ->
  eval (at_ j) s = eval (at_ j') s'.
Proof.
  intros Hst Hlen Hmax Hj Hsize Hst' Hlen' Hmax' Hj' Hsize' Heq.
  destruct (at_some s j) as (x & Hx & Hat); try assumption.
  destruct (at_some s' j') as (x' & Hx' & Hat'); try assumption.
  unfold eval. rewrite Hat, Hat'. congruence.
Qed.

Lemma contents_length (s : CircularBuffer T) :
  List.length (contents s) = Z.to_nat (size s).
Proof. unfold contents. now rewrite length_map, length_seq. Qed.

Lemma contents_empty (s : CircularBuffer T) : size s = 0 -> contents s = [].
Proof. intros Hz. unfold contents. now rewrite Hz. Qed.

(** The sequence of a buffer with one more element than [s], whose first
    [size s] reads agree with those of [s]. *)
Lemma contents_snoc (s s' : CircularBuffer T) (r : result T) :
  0 <= size s -> size s' = size s + 1 ->
  (forall j, 0 <= j < size s -> eval (at_ j) s' = eval (at_ j) s) ->
  eval (at_ (size s)) s' = r ->
  contents s' = contents s ++ [r].
Proof.
  intros Hn Hsize Hsame Hlast. unfold contents.
  rewrite Hsize. replace (Z.to_nat (size s + 1)) with (S (Z.to_nat (size s))) by lia.
  rewrite seq_S, map_app. cbn [map Nat.add]. f_equal.
  - apply map_ext_in. intros j Hin. apply in_seq in Hin. apply Hsame. lia.
  - now rewrite Z2Nat.id by lia; subst r.
Qed.

(** The sequence of a buffer with one more element than [s], whose reads
    from 1 on agree with those of [s]. *)
Lemma contents_cons (s s' : CircularBuffer T) (r : result T) :
  0 <= size s -> size s' = size s + 1 ->
  (forall j, 0 <= j < size s -> eval (at_ (j + 1)) s' = eval (at_ j) s) ->
  eval (at_ 0) s' = r ->
  contents s' = r :: contents s.
Proof.
  intros Hn Hsize Hsame Hfirst. unfold contents.
  rewrite Hsize. replace (Z.to_nat (size s + 1)) with (S (Z.to_nat (size s))) by lia.
  cbn [seq map]. f_equal; [now subst r |].
  rewrite <- seq_shift, map_map.
  apply map_ext_in. intros j Hin. apply in_seq in Hin.
  replace (Z.of_nat (S j)) with (Z.of_nat j + 1) by lia.
  apply Hsame. lia.
Qed.

End Contents.

(** *** The end operations on a well-formed buffer *)

Lemma ring_slot_shift (c st d j : Z) :
  0 < c -> ring_slot c ((st + d) mod c) j = ring_slot c st (d + j).
Proof.
  intros Hc. unfold ring_slot.
  rewrite Z.add_mod_idemp_l by lia. f_equal. f_equal. lia.
Qed.

Lemma ring_slot_zero (c st : Z) :
  0 <= st < c -> ring_slot c st 0 = Z.to_nat st.
Proof.
  intros Hst. unfold ring_slot. now rewrite Z.add_0_r, Z.mod_small.
Qed.

Section EndOperations.
Context {T : Type}.

(** The object [push_back] leaves. *)
Lemma push_back_state (item : T) (this : CircularBuffer T) :
  block_ready this -> size this <> capacity this ->
  push_back item this
  = Normal tt
      (mkCB (capacity this) (size this + 1)
            (update (buffer this)
                    (Z.to_nat (Z.rem (end_ this + 1) (capacity this))) item)
            (if size this =? 0 then 0 else start this)
            (Z.rem (end_ this + 1) (capacity this))).
Proof.
  intros (Hlen & Hmax & Hsize & Hend) Hroom.
  destruct int_bounds as [Hmin Hmaxv].
  assert (Hslot : 0 <= Z.rem (end_ this + 1) (capacity this) < capacity this).
  { apply Z.rem_bound_pos; lia. }
  unfold push_back. run_with reflexivity.
  unfold full.
  destruct (Z.eqb_spec (size this) (capacity this)) as [Hfull | _]; [lia |].
  run_with ltac:(apply add_run; lia).
  run_with ltac:(apply rem_run; lia).
  run_with reflexivity.
  run_with ltac:(apply store_run; cbn [buffer]; lia).
  destruct (size this =? 0);
    (run_with reflexivity; run_with ltac:(apply add_run; lia); reflexivity).
Qed.

Lemma well_formed_block_ready (this : CircularBuffer T) :
  well_formed this -> block_ready this.
Proof.
  intros (Hlen & Hcap & Hmax & Hmark). unfold block_ready.
  destruct Hmark as [(Hz & He & Hs) | (Hn & Hs & He)].
  - repeat split; lia.
  - pose proof (Z.mod_pos_bound (start this + size this - 1)
                  (capacity this) Hcap).
    repeat split; lia.
Qed.

(** [push_back(item)] on a well-formed buffer that is not full returns
    normally, keeps the buffer well formed and its capacity, appends the
    item to the logical sequence, and [back()] then yields the item. *)
Lemma push_back_step (item : T) (this : CircularBuffer T) :
  well_formed this -> size this <> capacity this ->
  exists after,
    push_back item this = Normal tt after /\
    well_formed after /\
    capacity after = capacity this /\
    contents after = contents this ++ [Ok item] /\
    back after = Normal item after.
Proof.
  intros Hwf Hroom.
  pose proof (push_back_state item this (well_formed_block_ready this Hwf) Hroom)
    as Hrun.
  destruct Hwf as (Hlen & Hcap & Hmax & Hmark).
  eexists. split; [exact Hrun |].
  destruct Hmark as [(Hz & He & Hs) | (Hn & Hs & He)].
  - (* empty: the item goes to slot 0 and [start] becomes 0 *)
    rewrite Hz, He. cbn [Z.eqb Z.add].
    rewrite Z.rem_0_l by lia. cbn [Z.to_nat].
    assert (Hin : (0 < List.length (buffer this))%nat) by lia.
    split; [| split; [reflexivity | split]].
    + unfold well_formed. cbn [buffer capacity size start end_].
      rewrite update_length. repeat split; try lia.
      right. rewrite Z.mod_0_l by lia. lia.
    + apply contents_snoc; cbn [size]; try lia.
      rewrite Hz. unfold eval.
      rewrite (at_run 0 item); [reflexivity | | | | |];
        cbn [buffer capacity size start]; try lia.
      rewrite ring_slot_zero by lia. cbn [Z.to_nat].
      now apply nth_error_update_eq.
    + unfold back. run_with reflexivity. cbn [end_].
      apply load_run; cbn [buffer]; [lia |].
      now apply nth_error_update_eq.
  - (* not empty: the item goes to the slot after the last one *)
    destruct (Z.eqb_spec (size this) 0) as [H0 | _]; [lia |].
    assert (Hslot : Z.rem (end_ this + 1) (capacity this)
                    = (start this + size this) mod capacity this).
    { rewrite Z.rem_mod_nonneg.
      - rewrite He, Z.add_mod_idemp_l by lia. f_equal. lia.
      - rewrite He. pose proof (Z.mod_pos_bound (start this + size this - 1)
                                  (capacity this) Hcap). lia.
      - lia. }
    rewrite Hslot.
    change (Z.to_nat ((start this + size this) mod capacity this))
      with (ring_slot (capacity this) (start this) (size this)).
    assert (Hin : (ring_slot (capacity this) (start this) (size this)
                   < List.length (buffer this))%nat).
    { pose proof (ring_slot_bound (capacity this) (start this) (size this)). lia. }
    split; [| split; [reflexivity | split]].
    + unfold well_formed. cbn [buffer capacity size start end_].
      rewrite update_length. repeat split; try lia.
      right. repeat split; try lia. f_equal. lia.
    + apply contents_snoc; cbn [size]; try lia.
      * intros j Hj. apply eval_at_eq;
          cbn [buffer capacity size start]; rewrite ?update_length; try lia.
        apply nth_error_update_neq. intros Heq.
        apply ring_slot_inj in Heq; lia.
      * unfold eval.
        rewrite (at_run (size this) item); [reflexivity | | | | |];
          cbn [buffer capacity size start]; try lia.
        now apply nth_error_update_eq.
    + unfold back. run_with reflexivity. cbn [end_].
      apply load_run; cbn [buffer].
      * apply Z.mod_pos_bound. lia.
      * now apply nth_error_update_eq.
Qed.

(** The object [pop_front] leaves. *)
Lemma pop_front_state (this : CircularBuffer T) :
  well_formed this -> size this <> 0 ->
  pop_front this
  = Normal tt
      (mkCB (capacity this) (size this - 1) (buffer this)
            ((start this + 1) mod capacity this)
            (if size this - 1 =? 0 then -1 else end_ this)).
Proof.
  intros (Hlen & Hcap & Hmax & Hmark) Hne.
  destruct Hmark as [(Hz & He & Hs) | (Hn & Hs & He)]; [lia |].
  destruct int_bounds as [Hmin Hmaxv].
  unfold pop_front. run_with reflexivity.
  unfold empty.
  destruct (Z.eqb_spec (size this) 0) as [H0 | _]; [lia |].
  run_with ltac:(apply add_run; lia).
  run_with ltac:(apply rem_run; lia).
  run_with reflexivity.
  run_with ltac:(apply sub_run; lia).
  run_with reflexivity.
  rewrite Z.rem_mod_nonneg by lia.
  destruct (size this - 1 =? 0); reflexivity.
Qed.

(** The object [pop_back] leaves. *)
Lemma pop_back_state (this : CircularBuffer T) :
  well_formed this -> size this <> 0 ->
  pop_back this
  = Normal tt
      (mkCB (capacity this) (size this - 1) (buffer this) (start this)
            (if size this - 1 =? 0 then -1
             else (start this + size this - 2) mod capacity this)).
Proof.
  intros (Hlen & Hcap & Hmax & Hmark) Hne.
  destruct Hmark as [(Hz & He & Hs) | (Hn & Hs & He)]; [lia |].
  destruct int_bounds as [Hmin Hmaxv].
  pose proof (Z.mod_pos_bound (start this + size this - 1) (capacity this) Hcap)
    as Hbound.
  unfold pop_back. run_with reflexivity.
  unfold empty.
  destruct (Z.eqb_spec (size this) 0) as [H0 | _]; [lia |].
  run_with ltac:(apply sub_run; lia).
  run_with ltac:(apply add_run; lia).
  run_with ltac:(apply rem_run; lia).
  run_with reflexivity.
  run_with ltac:(apply sub_run; lia).
  run_with reflexivity.
  rewrite Z.rem_mod_nonneg by lia.
  replace ((end_ this - 1 + capacity this) mod capacity this)
    with ((start this + size this - 2) mod capacity this).
  - destruct (size this - 1 =? 0); reflexivity.
  - rewrite He.
    replace ((start this + size this - 1) mod capacity this - 1 + capacity this)
      with ((start this + size this - 1) mod capacity this
            + (-1 + 1 * capacity this)) by lia.
    rewrite Z.add_mod_idemp_l, Z.add_assoc, Z.mod_add by lia.
    f_equal. lia.
Qed.

(** [pop_front()] on a well-formed, non-empty buffer returns normally,
    keeps the buffer well formed and its capacity, and removes from the
    logical sequence its first element, the one [front()] returned. *)
Lemma pop_front_step (this : CircularBuffer T) :
  well_formed this -> size this <> 0 ->
  exists x after,
    front this = Normal x this /\
    pop_front this = Normal tt after /\
    well_formed after /\
    capacity after = capacity this /\
    contents this = Ok x :: contents after.
Proof.
  intros Hwf Hne. pose proof (pop_front_state this Hwf Hne) as Hrun.
  destruct Hwf as (Hlen & Hcap & Hmax & Hmark).
  destruct Hmark as [(Hz & He & Hs) | (Hn & Hs & He)]; [lia |].
  pose proof (Z.mod_pos_bound (start this + 1) (capacity this) Hcap) as Hbound.
  destruct (at_some this 0) as (x & Hx & Hat); try assumption; try lia.
  rewrite ring_slot_zero in Hx by lia.
  exists x. eexists. split; [| split; [exact Hrun | split; [| split]]].
  - unfold front. run_with reflexivity. apply load_run; [lia | exact Hx].
  - unfold well_formed. cbn [buffer capacity size start end_].
    repeat split; try lia.
    destruct (Z.eqb_spec (size this - 1) 0) as [H1 | H1].
    + left. lia.
    + right. repeat split; try lia.
      replace ((start this + 1) mod capacity this + (size this - 1) - 1)
        with ((start this + 1) mod capacity this + (size this - 2)) by lia.
      rewrite He, Z.add_mod_idemp_l by lia. f_equal. lia.
  - reflexivity.
  - apply contents_cons; cbn [size]; try lia.
    + intros j Hj. apply eval_at_eq;
        cbn [buffer capacity size start]; try lia.
      rewrite (ring_slot_shift (capacity this) (start this) 1 j) by lia.
      do 2 f_equal. lia.
    + unfold eval. now rewrite Hat.
Qed.

(** [pop_back()] on a well-formed, non-empty buffer returns normally,
    keeps the buffer well formed and its capacity, and removes from the
    logical sequence its last element, the one [back()] returned. *)
Lemma pop_back_step (this : CircularBuffer T) :
  well_formed this -> size this <> 0 ->
  exists x after,
    back this = Normal x this /\
    pop_back this = Normal tt after /\
    well_formed after /\
    capacity after = capacity this /\
    contents this = contents after ++ [Ok x].
Proof.
  intros Hwf Hne. pose proof (pop_back_state this Hwf Hne) as Hrun.
  destruct Hwf as (Hlen & Hcap & Hmax & Hmark).
  destruct Hmark as [(Hz & He & Hs) | (Hn & Hs & He)]; [lia |].
  pose proof (Z.mod_pos_bound (start this + size this - 1) (capacity this) Hcap)
    as Hbound.
  destruct (at_some this (size this - 1)) as (x & Hx & Hat);
    try assumption; try lia.
  exists x. eexists. split; [| split; [exact Hrun | split; [| split]]].
  - unfold back. run_with reflexivity. apply load_run; [lia |].
    rewrite He. unfold ring_slot in Hx.
    now replace (start this + (size this - 1))
      with (start this + size this - 1) in Hx by lia.
  - unfold well_formed. cbn [buffer capacity size start end_].
    repeat split; try lia.
    destruct (Z.eqb_spec (size this - 1) 0) as [H1 | H1].
    + left. lia.
    + right. repeat split; try lia. f_equal. lia.
  - reflexivity.
  - apply contents_snoc; cbn [size]; try lia.
    + intros j Hj. apply eval_at_eq;
        cbn [buffer capacity size start]; try lia. reflexivity.
    + unfold eval. now rewrite Hat.
Qed.

(** The object [push_front] leaves on a buffer that is neither empty nor
    full. *)
Lemma push_front_state (item : T) (this : CircularBuffer T) :
  well_formed this -> size this <> 0 -> size this <> capacity this ->
  push_front item this
  = Normal tt
      (mkCB (capacity this) (size this + 1)
            (update (buffer this)
                    (Z.to_nat ((start this + -1) mod capacity this)) item)
            ((start this + -1) mod capacity this)
            (end_ this)).
Proof.
  intros (Hlen & Hcap & Hmax & Hmark) Hne Hroom.
  destruct Hmark as [(Hz & He & Hs) | (Hn & Hs & He)]; [lia |].
  destruct int_bounds as [Hmin Hmaxv].
  assert (Hslot : Z.rem (start this - 1 + capacity this) (capacity this)
                  = (start this + -1) mod capacity this).
  { rewrite Z.rem_mod_nonneg by lia.
    replace (start this - 1 + capacity this)
      with (start this + -1 + 1 * capacity this) by lia.
    now rewrite Z.mod_add by lia. }
  pose proof (Z.mod_pos_bound (start this + -1) (capacity this) Hcap) as Hbound.
  unfold push_front. run_with reflexivity.
  unfold full.
  destruct (Z.eqb_spec (size this) (capacity this)) as [Hfull | _]; [lia |].
  run_with ltac:(apply sub_run; lia).
  run_with ltac:(apply add_run; lia).
  run_with ltac:(apply rem_run; lia).
  rewrite Hslot.
  run_with reflexivity.
  run_with ltac:(apply store_run; cbn [buffer]; lia).
  destruct (Z.eqb_spec (size this) 0) as [H0 | _]; [lia |].
  run_with reflexivity.
  run_with ltac:(apply add_run; lia).
  reflexivity.
Qed.

(** [push_front(item)] on a well-formed buffer that is neither empty
    nor full returns normally, keeps the buffer well formed and its
    capacity, puts the item in front of the logical sequence, and [front()]
    then yields the item. *)
Lemma push_front_step (item : T) (this : CircularBuffer T) :
  well_formed this -> size this <> 0 -> size this <> capacity this ->
  exists after,
    push_front item this = Normal tt after /\
    well_formed after /\
    capacity after = capacity this /\
    contents after = Ok item :: contents this /\
    front after = Normal item after.
Proof.
  intros Hwf Hne Hroom.
  pose proof (push_front_state item this Hwf Hne Hroom) as Hrun.
  destruct Hwf as (Hlen & Hcap & Hmax & Hmark).
  destruct Hmark as [(Hz & He & Hs) | (Hn & Hs & He)]; [lia |].
  pose proof (Z.mod_pos_bound (start this + -1) (capacity this) Hcap) as Hbound.
  assert (Hin : (Z.to_nat ((start this + -1) mod capacity this)
                 < List.length (buffer this))%nat) by lia.
  eexists. split; [exact Hrun | split; [| split; [reflexivity | split]]].
  - unfold well_formed. cbn [buffer capacity size start end_].
    rewrite update_length. repeat split; try lia.
    right. repeat split; try lia.
    replace ((start this + -1) mod capacity this + (size this + 1) - 1)
      with ((start this + -1) mod capacity this + size this) by lia.
    rewrite He, Z.add_mod_idemp_l by lia. f_equal. lia.
  - apply contents_cons; cbn [size]; try lia.
    + intros j Hj. apply eval_at_eq;
        cbn [buffer capacity size start]; rewrite ?update_length; try lia.
      rewrite (ring_slot_shift (capacity this) (start this) (-1) (j + 1)) by lia.
      replace (-1 + (j + 1)) with j by lia.
      apply nth_error_update_neq.
      rewrite <- (ring_slot_zero (capacity this)
                    ((start this + -1) mod capacity this)) by lia.
      rewrite (ring_slot_shift (capacity this) (start this) (-1) 0) by lia.
      intros Heq. unfold ring_slot in Heq.
      pose proof (Z.mod_pos_bound (start this + (-1 + 0)) (capacity this) Hcap).
      pose proof (Z.mod_pos_bound (start this + j) (capacity this) Hcap).
      assert (Hmod : (start this + (-1 + 0)) mod capacity this
                     = (start this + j) mod capacity this) by lia.
      replace (start this + (-1 + 0))
        with (start this + (capacity this - 1) + (-1) * capacity this)
        in Hmod by lia.
      rewrite Z.mod_add in Hmod by lia.
      assert (Hinj : ring_slot (capacity this) (start this) (capacity this - 1)
                     = ring_slot (capacity this) (start this) j).
      { unfold ring_slot. now rewrite Hmod. }
      apply ring_slot_inj in Hinj; lia.
    + unfold eval.
      rewrite (at_run 0 item); [reflexivity | | | | |];
        cbn [buffer capacity size start]; try lia.
      rewrite ring_slot_zero by lia.
      now apply nth_error_update_eq.
  - unfold front. run_with reflexivity. cbn [start].
    apply load_run; cbn [buffer]; [lia |].
    now apply nth_error_update_eq.
Qed.

(** X5.  [pop_back()] and [pop_front()] throw exactly when the buffer is
    empty; what they throw is [std::underflow_error], and the buffer is
    left as it was. *)
Theorem pops_throw_iff_empty (this : CircularBuffer T) :
  ((exists e s, pop_back this = Raised e s) <-> size this = 0) /\
  ((exists e s, pop_front this = Raised e s) <-> size this = 0) /\
  (forall e s, pop_back this = Raised e s ->
               e = underflow_error "Buffer is empty" /\ s = this) /\
  (forall e s, pop_front this = Raised e s ->
               e = underflow_error "Buffer is empty" /\ s = this).
Proof.
  assert (Hback : forall e s, pop_back this = Raised e s ->
                    size this = 0 /\
                    e = underflow_error "Buffer is empty" /\ s = this).
  { intros e s Hrun. unfold pop_back in Hrun.
    rewrite (bind_run get _ this this this eq_refl) in Hrun.
    unfold empty in Hrun.
    destruct (Z.eqb_spec (size this) 0) as [Hz | _].
    - inversion Hrun; subst. repeat split; auto.
    - exfalso. revert Hrun.
      match goal with |- ?c this = _ -> _ => assert (Hc : no_raise c) end.
      { never_raises. }
      apply Hc. }
  assert (Hfront : forall e s, pop_front this = Raised e s ->
                     size this = 0 /\
                     e = underflow_error "Buffer is empty" /\ s = this).
  { intros e s Hrun. unfold pop_front in Hrun.
    rewrite (bind_run get _ this this this eq_refl) in Hrun.
    unfold empty in Hrun.
    destruct (Z.eqb_spec (size this) 0) as [Hz | _].
    - inversion Hrun; subst. repeat split; auto.
    - exfalso. revert Hrun.
      match goal with |- ?c this = _ -> _ => assert (Hc : no_raise c) end.
      { never_raises. }
      apply Hc. }
  split; [| split; [| split]].
  - split.
    + intros (e & s & Hrun). now apply Hback in Hrun.
    + intros Hz. exists (underflow_error "Buffer is empty"), this.
      unfold pop_back. run_with reflexivity.
      unfold empty. now rewrite Hz.
  - split.
    + intros (e & s & Hrun). now apply Hfront in Hrun.
    + intros Hz. exists (underflow_error "Buffer is empty"), this.
      unfold pop_front. run_with reflexivity.
      unfold empty. now rewrite Hz.
  - intros e s Hrun. now apply Hback in Hrun.
  - intros e s Hrun. now apply Hfront in Hrun.
Qed.

(** X6.  [at(i)] throws exactly when [i < 0] or [i >= size()]; what it
    throws is [std::out_of_range], with the buffer untouched; and no call
    of [at] or [operator[]] that returns changes the buffer. *)
Theorem at_throws_iff_out_of_range (i : Z) (this : CircularBuffer T) :
  ((exists e s, at_ i this = Raised e s) <-> i < 0 \/ size this <= i) /\
  (forall e s, at_ i this = Raised e s ->
               e = out_of_range "Index out of bounds" /\ s = this) /\
  (forall x s, at_ i this = Normal x s -> s = this) /\
  (forall x s, index i this = Normal x s -> s = this).
Proof.
  assert (Hread : forall x s, (p <- slot i ;; load p) this = Normal x s -> s = this).
  { intros x s Hrun. unfold slot, load, get, lift, add, rem, int_of in Hrun.
    cbn in Hrun.
    repeat match type of Hrun with
           | context [if ?b then _ else _] => destruct b; cbn in Hrun
           | context [match ?r with _ => _ end] => destruct r; cbn in Hrun
           end; try discriminate; now inversion Hrun. }
  assert (Hguard : (i <? 0) || (i >=? size this) = true <-> i < 0 \/ size this <= i).
  { rewrite orb_true_iff, Z.ltb_lt, Z.geb_le. reflexivity. }
  assert (Hthrow : forall e s, at_ i this = Raised e s ->
                     (i < 0 \/ size this <= i) /\
                     e = out_of_range "Index out of bounds" /\ s = this).
  { intros e s Hrun. unfold at_ in Hrun.
    rewrite (bind_run get _ this this this eq_refl) in Hrun.
    destruct ((i <? 0) || (i >=? size this)) eqn:Hg.
    - inversion Hrun; subst. split; [now apply Hguard | split; reflexivity].
    - exfalso. revert Hrun.
      match goal with |- ?c this = _ -> _ => assert (Hc : no_raise c) end.
      { never_raises. }
      apply Hc. }
  split; [| split; [| split]].
  - split.
    + intros (e & s & Hrun). now apply Hthrow in Hrun.
    + intros Hout. exists (out_of_range "Index out of bounds"), this.
      unfold at_. run_with reflexivity.
      apply Hguard in Hout. now rewrite Hout.
  - intros e s Hrun. now apply Hthrow in Hrun.
  - intros x s Hrun. unfold at_ in Hrun.
    rewrite (bind_run get _ this this this eq_refl) in Hrun.
    destruct ((i <? 0) || (i >=? size this)); [discriminate |].
    now apply Hread in Hrun.
  - intros x s Hrun. now apply Hread in Hrun.
Qed.

End EndOperations.

(** *** The buffer as a bounded double-ended queue *)

Section Deque.
Context {T : Type}.

Lemma map_Ok_removelast (l : list T) :
  map (@Ok T) (removelast l) = removelast (map Ok l).
Proof.
  induction l as [| x l IH]; [reflexivity |].
  destruct l as [| y l]; [reflexivity |].
  cbn [removelast map] in *. now rewrite IH.
Qed.

Lemma map_Ok_inj (l l' : list T) : map (@Ok T) l = map Ok l' -> l = l'.
Proof.
  revert l'. induction l as [| x l IH]; intros [| y l'] Heq;
    try discriminate; [reflexivity |].
  cbn in Heq. inversion Heq. f_equal. now apply IH.
Qed.

Lemma contents_size (this : CircularBuffer T) (l : list T) :
  0 <= size this -> contents this = map Ok l ->
  Z.of_nat (List.length l) = size this.
Proof.
  intros Hn Heq. apply (f_equal (@List.length _)) in Heq.
  rewrite contents_length, length_map in Heq. lia.
Qed.

Lemma well_formed_size (this : CircularBuffer T) :
  well_formed this -> 0 <= size this <= capacity this.
Proof.
  intros (Hlen & Hcap & Hmax & [(Hz & _) | (Hn & _)]); lia.
Qed.

(** One end call on a well-formed buffer follows the queue. *)
Lemma end_call_follows_deque (call : end_call T) (this : CircularBuffer T)
      (l : list T) :
  well_formed this -> contents this = map Ok l ->
  match call, l with PushFront _, [] => false | _, _ => true end = true ->
  match deque_step (capacity this) call l with
  | inl e => run_end_call call this = Raised e this
  | inr l1 =>
      exists after,
        run_end_call call this = Normal tt after /\
        well_formed after /\
        capacity after = capacity this /\
        contents after = map Ok l1
  end.
Proof.
  intros Hwf Hl Hsafe.
  pose proof (well_formed_size this Hwf) as Hsize.
  pose proof (contents_size this l ltac:(lia) Hl) as Hlen.
  destruct call as [item | item | |]; cbn [deque_step run_end_call].
  - rewrite Hlen.
    destruct (Z.eqb_spec (size this) (capacity this)) as [Hfull | Hroom].
    + unfold push_back. run_with reflexivity.
      unfold full. now rewrite Hfull, Z.eqb_refl.
    + destruct (push_back_step item this Hwf Hroom)
        as (after & Hrun & Hwf' & Hcap & Hcont & _).
      exists after. split; [exact Hrun | split; [exact Hwf' | split; [exact Hcap |]]].
      now rewrite Hcont, Hl, map_app.
  - rewrite Hlen.
    destruct (Z.eqb_spec (size this) (capacity this)) as [Hfull | Hroom].
    + unfold push_front. run_with reflexivity.
      unfold full. now rewrite Hfull, Z.eqb_refl.
    + destruct l as [| x l]; [discriminate |].
      assert (Hne : size this <> 0) by (cbn [List.length] in Hlen; lia).
      destruct (push_front_step item this Hwf Hne Hroom)
        as (after & Hrun & Hwf' & Hcap & Hcont & _).
      exists after. split; [exact Hrun | split; [exact Hwf' | split; [exact Hcap |]]].
      now rewrite Hcont, Hl.
  - destruct l as [| x l].
    + unfold pop_back. run_with reflexivity.
      unfold empty. cbn [List.length] in Hlen.
      now replace (size this) with 0 by lia.
    + assert (Hne : size this <> 0) by (cbn [List.length] in Hlen; lia).
      destruct (pop_back_step this Hwf Hne)
        as (y & after & _ & Hrun & Hwf' & Hcap & Hcont).
      exists after. split; [exact Hrun | split; [exact Hwf' | split; [exact Hcap |]]].
      rewrite map_Ok_removelast, <- Hl, Hcont.
      now rewrite removelast_last.
  - destruct l as [| x l].
    + unfold pop_front. run_with reflexivity.
      unfold empty. cbn [List.length] in Hlen.
      now replace (size this) with 0 by lia.
    + assert (Hne : size this <> 0) by (cbn [List.length] in Hlen; lia).
      destruct (pop_front_step this Hwf Hne)
        as (y & after & _ & Hrun & Hwf' & Hcap & Hcont).
      exists after. split; [exact Hrun | split; [exact Hwf' | split; [exact Hcap |]]].
      rewrite Hl in Hcont. cbn [map] in Hcont. now inversion Hcont.
Qed.

(** X7.  On a well-formed buffer whose logical sequence is [l], any
    sequence of [push_back], [push_front], [pop_back] and [pop_front]
    calls, each inside [try]/[catch], in which no [push_front] meets an
    empty buffer, behaves as the same calls on a queue bounded by the
    capacity: the same calls throw, with the same exceptions, and the
    buffer ends well formed with the sequence the queue ends with. *)
Theorem attempts_follow_deque (cs : list (end_call T)) :
  forall (this : CircularBuffer T) (l : list T),
    well_formed this -> contents this = map Ok l ->
    no_push_front_on_empty (capacity this) cs l = true ->
    exists after,
      attempts cs this = Some (fst (deque_run (capacity this) cs l), after) /\
      well_formed after /\
      capacity after = capacity this /\
      contents after = map Ok (snd (deque_run (capacity this) cs l)).
Proof.
  induction cs as [| call cs IH]; intros this l Hwf Hl Hsafe.
  - exists this. split; [reflexivity | split; [exact Hwf | split; [reflexivity | exact Hl]]].
  - cbn [no_push_front_on_empty] in Hsafe.
    apply andb_true_iff in Hsafe as [Hcall Hrest].
    pose proof (end_call_follows_deque call this l Hwf Hl Hcall) as Hstep.
    cbn [attempts deque_run].
    destruct (deque_step (capacity this) call l) as [e | l1].
    + rewrite Hstep.
      destruct (IH this l Hwf Hl Hrest) as (after & Hrun & Hwf' & Hcap & Hcont).
      exists after. rewrite Hrun.
      destruct (deque_run (capacity this) cs l) as [es l'].
      split; [reflexivity | split; [exact Hwf' | split; [exact Hcap | exact Hcont]]].
    + destruct Hstep as (mid & Hrun1 & Hwf1 & Hcap1 & Hcont1).
      rewrite Hrun1.
      rewrite <- Hcap1 in Hrest.
      destruct (IH mid l1 Hwf1 Hcont1 Hrest) as (after & Hrun & Hwf' & Hcap & Hcont).
      exists after. rewrite Hrun. rewrite Hcap1 in *.
      destruct (deque_run (capacity this) cs l1) as [es l'].
      split; [reflexivity | split; [exact Hwf' | split; [exact Hcap | exact Hcont]]].
Qed.

End Deque.

(** *** Constructors, copies and assignment *)

Section Construction.
Context {T : Type}.

Lemma contents_constant (s : CircularBuffer T) (r : result T) :
  (forall j, 0 <= j < size s -> eval (at_ j) s = r) ->
  contents s = repeat r (Z.to_nat (size s)).
Proof.
  intros Hall. unfold contents.
  assert (Hgen : forall n,
             (forall j, (j < n)%nat -> eval (at_ (Z.of_nat j)) s = r) ->
             map (fun j => eval (at_ (Z.of_nat j)) s) (seq 0 n) = repeat r n).
  { induction n as [| n IH]; intros Hn; [reflexivity |].
    rewrite seq_S, map_app, IH by (intros j Hj; apply Hn; lia).
    cbn [map Nat.add]. rewrite Hn by lia.
    now rewrite <- repeat_cons. }
  apply Hgen. intros j Hj. apply Hall. lia.
Qed.

(** The loop of the filling constructor: [k] iterations from [i], each
    assigning [elem] to position [i] of the block. *)
Lemma fill_loop (elem : T) (k : nat) :
  forall (i : Z) (s : CircularBuffer T),
    0 <= i -> i + Z.of_nat k <= Z.of_nat (List.length (buffer s)) ->
    exists a',
      for_up_n k i tt (fun i _ => store i elem) s = Normal tt (with_buffer s a') /\
      List.length a' = List.length (buffer s) /\
      forall j, 0 <= j ->
        nth_error a' (Z.to_nat j) =
        if (i <=? j) && (j <? i + Z.of_nat k) then Some elem
        else nth_error (buffer s) (Z.to_nat j).
Proof.
  induction k as [| k IH]; intros i s Hlow Hhigh.
  - exists (buffer s). cbn [for_up_n]. rewrite with_buffer_same.
    split; [reflexivity |]. split; [reflexivity |].
    intros j Hj.
    destruct (Z.leb_spec i j), (Z.ltb_spec j (i + Z.of_nat 0));
      cbn [andb]; try reflexivity; lia.
  - destruct (IH (i + 1) (with_buffer s (update (buffer s) (Z.to_nat i) elem)))
      as (a' & Hrun & Hlen' & Hview); try lia.
    { cbn [buffer with_buffer]. rewrite update_length. lia. }
    exists a'. split; [| split].
    + cbn [for_up_n].
      rewrite (bind_run _ _ _ _ _ (store_run i elem s ltac:(lia))).
      exact Hrun.
    + rewrite Hlen'. cbn [buffer with_buffer]. apply update_length.
    + intros j Hj. rewrite (Hview j Hj). cbn [buffer with_buffer].
      destruct (Z.leb_spec (i + 1) j), (Z.ltb_spec j (i + 1 + Z.of_nat k)),
               (Z.leb_spec i j), (Z.ltb_spec j (i + Z.of_nat (S k)));
        cbn [andb]; try reflexivity; try lia;
        first [ apply nth_error_update_neq; lia
              | assert (j = i) by lia; subst j;
                apply nth_error_update_eq; lia ].
Qed.

(** The filling constructor on a capacity whose double is an [int]. *)
Lemma CircularBuffer_fill_run (dflt elem : T) (c : Z) :
  0 < c -> 2 * c <= INT_MAX ->
  exists this,
    CircularBuffer_fill dflt c elem = Ok this /\
    well_formed this /\
    capacity this = c /\
    size this = c /\
    contents this = repeat (Ok elem) (Z.to_nat c).
Proof.
  intros Hpos Hmax. destruct int_bounds as [Hmin Hmaxv].
  unfold CircularBuffer_fill, CircularBuffer_capacity.
  destruct (Z.leb_spec c 0) as [Hn | _]; [lia |].
  cbn [bind result_monad].
  assert (Hlen0 : Z.of_nat (List.length (new_array dflt c)) = c).
  { unfold new_array. rewrite repeat_length. lia. }
  destruct (fill_loop elem (Z.to_nat (c - 0)) 0
              (mkCB c 0 (new_array dflt c) (-1) (-1)))
    as (a' & Hrun & Hlen' & Hview); cbn [buffer]; try lia.
  cbn [buffer] in Hlen', Hview.
  exists (mkCB c c a' 0 (c - 1)).
  assert (Hall : forall j, 0 <= j < c ->
                   at_ j (mkCB c c a' 0 (c - 1)) = Normal elem (mkCB c c a' 0 (c - 1))).
  { intros j Hj. apply at_run; cbn [buffer capacity size start]; try lia.
    unfold ring_slot. rewrite Z.add_0_l, Z.mod_small by lia.
    rewrite Hview by lia.
    destruct (Z.leb_spec 0 j), (Z.ltb_spec j (0 + Z.of_nat (Z.to_nat (c - 0))));
      cbn [andb]; try reflexivity; lia. }
  split; [| split; [| split; [reflexivity | split; [reflexivity |]]]].
  - unfold exec, for_up.
    run_with ltac:(exact Hrun).
    run_with reflexivity. run_with reflexivity. run_with reflexivity.
    run_with ltac:(apply sub_run; cbn [size with_buffer]; lia).
    reflexivity.
  - unfold well_formed. cbn [buffer capacity size start end_].
    repeat split; try lia.
    right. repeat split; try lia.
    rewrite Z.mod_small by lia. lia.
  - rewrite (contents_constant _ (Ok elem)); [reflexivity |].
    intros j Hj. cbn [size] in Hj. unfold eval. now rewrite Hall.
Qed.

(** The loop of the copy constructor and of the assignment operator: [k]
    iterations from [i], each copying the slot of logical index [i] of [cb]
    to the same slot of the object, which has the capacity and the [start]
    of [cb]. *)
Lemma copy_ring_loop (cb : CircularBuffer T) :
  0 <= start cb < capacity cb ->
  Z.of_nat (List.length (buffer cb)) = capacity cb ->
  2 * capacity cb <= INT_MAX ->
  forall (k : nat) (i : Z) (s : CircularBuffer T),
    capacity s = capacity cb -> start s = start cb ->
    Z.of_nat (List.length (buffer s)) = capacity cb ->
    0 <= i -> i + Z.of_nat k <= capacity cb ->
    exists a',
      for_up_n k i tt
        (fun i _ =>
           d <- slot i ;;
           p <- lift (eval (slot i) cb) ;;
           x <- lift (array_get (buffer cb) p) ;;
           store d x) s
      = Normal tt (with_buffer s a') /\
      List.length a' = List.length (buffer s) /\
      forall j, 0 <= j < capacity cb ->
        nth_error a' (ring_slot (capacity cb) (start cb) j) =
        if (i <=? j) && (j <? i + Z.of_nat k)
        then nth_error (buffer cb) (ring_slot (capacity cb) (start cb) j)
        else nth_error (buffer s) (ring_slot (capacity cb) (start cb) j).
Proof.
  intros Hst Hlen Hmax. destruct int_bounds as [Hmin Hmaxv].
  induction k as [| k IH]; intros i s Hc Hs Hl Hlow Hhigh.
  - exists (buffer s). cbn [for_up_n]. rewrite with_buffer_same.
    split; [reflexivity |]. split; [reflexivity |].
    intros j Hj.
    destruct (Z.leb_spec i j), (Z.ltb_spec j (i + Z.of_nat 0));
      cbn [andb]; try reflexivity; lia.
  - destruct (ring_slot_some (capacity cb) (start cb) Hst (buffer cb) i Hlen)
      as [x Hx].
    pose proof (Z.mod_pos_bound (start cb + i) (capacity cb) ltac:(lia)) as Hb.
    destruct (IH (i + 1)
                (with_buffer s (update (buffer s)
                                  (ring_slot (capacity cb) (start cb) i) x)))
      as (a' & Hrun & Hlen' & Hview); try assumption; try lia.
    { cbn [buffer with_buffer]. now rewrite update_length. }
    exists a'. split; [| split].
    + cbn [for_up_n].
      erewrite bind_run; [exact Hrun |].
      run_with ltac:(apply slot_in_ring; lia).
      rewrite Hc, Hs.
      unfold eval. rewrite slot_in_ring by lia.
      run_with reflexivity.
      unfold array_get.
      destruct (Z.ltb_spec ((start cb + i) mod capacity cb) 0) as [Hneg | _];
        [lia |].
      unfold ring_slot in Hx. rewrite Hx.
      run_with reflexivity.
      apply store_run. lia.
    + rewrite Hlen'. cbn [buffer with_buffer]. apply update_length.
    + intros j Hj. rewrite (Hview j Hj). cbn [buffer with_buffer].
      assert (Hin : (ring_slot (capacity cb) (start cb) i
                     < List.length (buffer s))%nat).
      { pose proof (ring_slot_bound (capacity cb) (start cb) i). lia. }
      destruct (Z.leb_spec (i + 1) j), (Z.ltb_spec j (i + 1 + Z.of_nat k)),
               (Z.leb_spec i j), (Z.ltb_spec j (i + Z.of_nat (S k)));
        cbn [andb]; try reflexivity; try lia;
        first [ apply nth_error_update_neq; intros Heq;
                apply ring_slot_inj in Heq; lia
              | assert (j = i) by lia; subst j;
                rewrite nth_error_update_eq by exact Hin; now rewrite Hx ].
Qed.

(** What the copying loop leaves when run on the object the copy
    constructor starts from. *)
Lemma copy_run (dflt : T) (cb : CircularBuffer T) :
  well_formed cb ->
  exists copy,
    for_up 0 (size cb)
      (fun i =>
         d <- slot i ;;
         p <- lift (eval (slot i) cb) ;;
         x <- lift (array_get (buffer cb) p) ;;
         store d x)
      (mkCB (capacity cb) (size cb) (new_array dflt (capacity cb))
            (start cb) (end_ cb))
    = Normal tt copy /\
    well_formed copy /\
    capacity copy = capacity cb /\
    size copy = size cb /\
    contents copy = contents cb.
Proof.
  intros (Hlen & Hcap & Hmax & Hmark).
  assert (Hlen0 : Z.of_nat (List.length (new_array dflt (capacity cb)))
                  = capacity cb).
  { unfold new_array. rewrite repeat_length. lia. }
  destruct Hmark as [(Hz & He & Hs) | (Hn & Hs & He)].
  - exists (mkCB (capacity cb) (size cb) (new_array dflt (capacity cb))
                 (start cb) (end_ cb)).
    split; [| split; [| split; [reflexivity | split; [reflexivity |]]]].
    + unfold for_up. now rewrite Hz.
    + unfold well_formed. cbn [buffer capacity size start end_].
      repeat split; lia.
    + now rewrite !contents_empty.
  - destruct (copy_ring_loop cb Hs Hlen Hmax (Z.to_nat (size cb - 0)) 0
                (mkCB (capacity cb) (size cb) (new_array dflt (capacity cb))
                      (start cb) (end_ cb)))
      as (a' & Hrun & Hlen' & Hview); cbn [buffer capacity start]; try lia.
    cbn [buffer] in Hlen', Hview.
    exists (mkCB (capacity cb) (size cb) a' (start cb) (end_ cb)).
    split; [exact Hrun | split; [| split; [reflexivity | split; [reflexivity |]]]].
    + unfold well_formed. cbn [buffer capacity size start end_].
      repeat split; lia.
    + unfold contents. cbn [size]. apply map_ext_in. intros j Hin.
      apply in_seq in Hin.
      apply eval_at_eq; cbn [buffer capacity size start]; try lia.
      rewrite Hview by lia.
      destruct (Z.leb_spec 0 (Z.of_nat j)),
               (Z.ltb_spec (Z.of_nat j) (0 + Z.of_nat (Z.to_nat (size cb - 0))));
        cbn [andb]; try reflexivity; lia.
Qed.

End Construction.

(** *** [linearize] and [clear] *)

Section LinearizeClear.
Context {T : Type}.

(** The copying loop of [linearize], whose new block has as many slots as
    there are elements. *)
Lemma linearize_loop (s : CircularBuffer T) :
  0 <= start s < capacity s ->
  Z.of_nat (List.length (buffer s)) = capacity s ->
  2 * capacity s <= INT_MAX ->
  forall (k : nat) (i : Z) (acc : list T),
    0 <= i -> i + Z.of_nat k <= Z.of_nat (List.length acc) ->
    i + Z.of_nat k <= capacity s ->
    exists acc',
      for_up_n k i acc
        (fun i linearBuffer =>
           p <- slot i ;; x <- load p ;; lift (array_set linearBuffer i x)) s
      = Normal acc' s /\
      List.length acc' = List.length acc /\
      forall j, 0 <= j ->
        nth_error acc' (Z.to_nat j) =
        if (i <=? j) && (j <? i + Z.of_nat k)
        then nth_error (buffer s) (ring_slot (capacity s) (start s) j)
        else nth_error acc (Z.to_nat j).
Proof.
  intros Hst Hlen Hmax. destruct int_bounds as [Hmin Hmaxv].
  induction k as [| k IH]; intros i acc Hlow Hroom Hhigh.
  - exists acc. cbn [for_up_n]. split; [reflexivity |]. split; [reflexivity |].
    intros j Hj.
    destruct (Z.leb_spec i j), (Z.ltb_spec j (i + Z.of_nat 0));
      cbn [andb]; try reflexivity; lia.
  - destruct (ring_slot_some (capacity s) (start s) Hst (buffer s) i Hlen)
      as [x Hx].
    destruct (IH (i + 1) (update acc (Z.to_nat i) x))
      as (acc' & Hrun & Hlen' & Hview); try lia.
    { rewrite update_length. lia. }
    exists acc'. split; [| split].
    + cbn [for_up_n].
      erewrite bind_run; [exact Hrun |].
      run_with ltac:(apply slot_in_ring; lia).
      run_with ltac:(apply load_run; [apply Z.mod_pos_bound; lia | exact Hx]).
      unfold lift, array_set.
      destruct (Z.leb_spec 0 i) as [_ | Hneg]; [| lia].
      destruct (Z.ltb_spec i (Z.of_nat (List.length acc))) as [_ | Hbig]; [| lia].
      reflexivity.
    + rewrite Hlen'. apply update_length.
    + intros j Hj. rewrite (Hview j Hj).
      destruct (Z.leb_spec (i + 1) j), (Z.ltb_spec j (i + 1 + Z.of_nat k)),
               (Z.leb_spec i j), (Z.ltb_spec j (i + Z.of_nat (S k)));
        cbn [andb]; try reflexivity; try lia;
        first [ apply nth_error_update_neq; lia
              | assert (j = i) by lia; subst j;
                rewrite nth_error_update_eq by lia; now rewrite Hx ].
Qed.

(** The object and the block [linearize] leaves on a non-empty buffer. *)
Lemma linearize_run (dflt : T) (this : CircularBuffer T) :
  well_formed this -> size this <> 0 ->
  exists block,
    linearize dflt this
    = Normal block (mkCB (capacity this) (size this) block 0 (size this - 1)) /\
    Z.of_nat (List.length block) = size this /\
    forall j, 0 <= j < size this ->
      nth_error block (Z.to_nat j)
      = nth_error (buffer this) (ring_slot (capacity this) (start this) j).
Proof.
  intros (Hlen & Hcap & Hmax & Hmark) Hne.
  destruct Hmark as [(Hz & He & Hs) | (Hn & Hs & He)]; [lia |].
  destruct int_bounds as [Hmin Hmaxv].
  assert (Hlen0 : Z.of_nat (List.length (new_array dflt (size this))) = size this).
  { unfold new_array. rewrite repeat_length. lia. }
  destruct (linearize_loop this Hs Hlen Hmax (Z.to_nat (size this - 0)) 0
              (new_array dflt (size this)))
    as (block & Hrun & Hlen' & Hview); try lia.
  exists block. split; [| split].
  - unfold linearize. run_with reflexivity.
    destruct (Z.eqb_spec (size this) 0) as [H0 | _]; [lia |].
    unfold for_up_acc. run_with ltac:(exact Hrun).
    run_with reflexivity.
    run_with ltac:(apply sub_run; lia).
    run_with reflexivity. run_with reflexivity.
    reflexivity.
  - lia.
  - intros j Hj. rewrite Hview by lia.
    destruct (Z.leb_spec 0 j), (Z.ltb_spec j (0 + Z.of_nat (Z.to_nat (size this - 0))));
      cbn [andb]; try reflexivity; lia.
Qed.

(** X11.  [linearize()] on a well-formed, non-empty buffer returns the new
    block, which holds the logical sequence in order and has exactly
    [size()] slots; afterwards [start] is 0, [is_linearized()] is true, and
    the count, the capacity and the logical sequence are as before. *)
Theorem linearize_keeps_sequence (dflt : T) (this : CircularBuffer T) :
  well_formed this -> size this <> 0 ->
  exists block after,
    linearize dflt this = Normal block after /\
    buffer after = block /\
    map Ok block = contents this /\
    contents after = contents this /\
    is_linearized after = Normal true after /\
    start after = 0 /\
    size after = size this /\
    capacity after = capacity this.
Proof.
  intros Hwf Hne.
  destruct (linearize_run dflt this Hwf Hne) as (block & Hrun & Hlen' & Hview).
  destruct Hwf as (Hlen & Hcap & Hmax & Hmark).
  destruct Hmark as [(Hz & He & Hs) | (Hn & Hs & He)]; [lia |].
  destruct int_bounds as [Hmin Hmaxv].
  assert (Hread : forall j, 0 <= j < size this ->
            exists x,
              nth_error block (Z.to_nat j) = Some x /\
              at_ j this = Normal x this /\
              at_ j (mkCB (capacity this) (size this) block 0 (size this - 1))
              = Normal x (mkCB (capacity this) (size this) block 0 (size this - 1))).
  { intros j Hj.
    destruct (at_some this j) as (x & Hx & Hat); try assumption; try lia.
    exists x. rewrite Hview by lia. split; [exact Hx | split; [exact Hat |]].
    apply at_run; cbn [buffer capacity size start]; try lia.
    unfold ring_slot. rewrite Z.add_0_l, Z.mod_small by lia.
    now rewrite Hview by lia. }
  exists block. eexists.
  split; [exact Hrun | split; [reflexivity |]].
  split; [| split; [| split; [| split; [reflexivity | split; reflexivity]]]].
  - unfold contents.
    apply nth_error_ext. intros n.
    rewrite !nth_error_map.
    destruct (Nat.ltb_spec n (Z.to_nat (size this))) as [Hin | Hout].
    + destruct (Hread (Z.of_nat n) ltac:(lia)) as (x & Hx & Hat & _).
      rewrite Nat2Z.id in Hx. rewrite Hx.
      rewrite nth_error_seq. 
      destruct (Nat.ltb_spec n (Z.to_nat (size this))) as [_ | Hge]; [| lia].
      cbn [option_map Nat.add]. unfold eval. now rewrite Hat.
    + rewrite (proj2 (nth_error_None block n)) by lia.
      rewrite nth_error_seq.
      destruct (Nat.ltb_spec n (Z.to_nat (size this))) as [Hlt | _]; [lia |].
      reflexivity.
  - unfold contents. cbn [size]. apply map_ext_in. intros j Hin.
    apply in_seq in Hin.
    destruct (Hread (Z.of_nat j) ltac:(lia)) as (x & _ & Hat & Hat').
    unfold eval. now rewrite Hat, Hat'.
  - unfold is_linearized. run_with reflexivity. cbn [start size end_ Z.eqb].
    run_with ltac:(apply sub_run; lia).
    cbn [ret M_monad]. now rewrite Z.eqb_refl.
Qed.

(** X12.  After [linearize()] on a well-formed buffer that is neither empty
    nor full, the block has only [size()] slots while the capacity is
    unchanged: the next [push_back] writes past the end of the block. *)
Theorem push_back_after_linearize_is_undefined
        (dflt item : T) (this : CircularBuffer T) :
  well_formed this -> size this <> 0 -> size this <> capacity this ->
  (linearize dflt ;; push_back item) this = Undef.
Proof.
  intros Hwf Hne Hroom.
  destruct (linearize_run dflt this Hwf Hne) as (block & Hrun & Hlen' & Hview).
  destruct Hwf as (Hlen & Hcap & Hmax & Hmark).
  destruct Hmark as [(Hz & He & Hs) | (Hn & Hs & He)]; [lia |].
  destruct int_bounds as [Hmin Hmaxv].
  run_with ltac:(exact Hrun).
  unfold push_back. run_with reflexivity.
  unfold full. cbn [size capacity end_].
  destruct (Z.eqb_spec (size this) (capacity this)) as [Hfull | _]; [lia |].
  run_with ltac:(apply add_run; lia).
  run_with ltac:(apply rem_run; lia).
  run_with reflexivity.
  rewrite Z.rem_small by lia.
  unfold store. cbn [bind M_monad get lift set_end buffer].
  unfold array_set.
  replace (size this - 1 + 1) with (size this) by lia.
  destruct (Z.ltb_spec (size this) (Z.of_nat (List.length block))) as [Hlt | _];
    [lia |].
  now rewrite andb_false_r.
Qed.

(** X13.  [clear()] sets [end] to 0, not to [-1]: on a buffer whose block
    has [capacity >= 2] slots, the [push_back] that follows stores the item
    in slot 1 and sets [start] to 0.  The count is 1 and [back()] yields the
    item, but [front()] and [at(0)] yield what slot 0 held before. *)
Theorem push_back_after_clear_is_not_front (item : T) (this : CircularBuffer T) :
  Z.of_nat (List.length (buffer this)) = capacity this ->
  2 <= capacity this <= INT_MAX ->
  exists stale after,
    nth_error (buffer this) 0 = Some stale /\
    (clear ;; push_back item) this = Normal tt after /\
    size after = 1 /\
    back after = Normal item after /\
    front after = Normal stale after /\
    at_ 0 after = Normal stale after.
Proof.
  intros Hlen Hcap. destruct int_bounds as [Hmin Hmaxv].
  destruct (nth_error (buffer this) 0) as [stale |] eqn:Hstale.
  2: { apply nth_error_None in Hstale. lia. }
  exists stale.
  exists (mkCB (capacity this) 1 (update (buffer this) 1 item) 0 1).
  split; [reflexivity |].
  split; [| split; [reflexivity | split; [| split]]].
  - run_with reflexivity.
    unfold push_back. run_with reflexivity.
    unfold full. cbn [size capacity end_ start buffer].
    destruct (Z.eqb_spec 0 (capacity this)) as [Hfull | _]; [lia |].
    run_with ltac:(apply add_run; lia).
    run_with ltac:(apply rem_run; lia).
    rewrite Z.rem_small by lia.
    run_with reflexivity.
    run_with ltac:(apply store_run; cbn [buffer]; lia).
    run_with reflexivity.
    run_with ltac:(apply add_run; lia).
    reflexivity.
  - unfold back. run_with reflexivity. cbn [end_].
    apply load_run; cbn [buffer]; [lia |].
    apply nth_error_update_eq. lia.
  - unfold front. run_with reflexivity. cbn [start].
    apply load_run; cbn [buffer]; [lia |].
    now rewrite nth_error_update_neq by lia.
  - unfold at_. run_with reflexivity. cbn [size Z.ltb Z.geb Z.compare orb].
    run_with ltac:(apply slot_in_ring; cbn [start capacity]; lia).
    cbn [start capacity]. rewrite Z.mod_small by lia.
    apply load_run; cbn [buffer]; [lia |].
    now rewrite nth_error_update_neq by lia.
Qed.

End LinearizeClear.

(** *** [resize] *)

Section Resize.
Context {T : Type}.

Lemma step_size (s s' : CircularBuffer T) (l l' : list (result T)) :
  0 <= size s -> 0 <= size s' ->
  contents s = l -> contents s' = l' ->
  Z.of_nat (List.length l') = Z.of_nat (List.length l) + (size s' - size s).
Proof.
  intros Hn Hn' <- <-. rewrite !contents_length. lia.
Qed.

(** [k] calls of [push_back] on a well-formed buffer with room for them. *)
Lemma push_back_loop (item : T) (k : nat) :
  forall (i : Z) (this : CircularBuffer T),
    well_formed this -> size this + Z.of_nat k <= capacity this ->
    exists after,
      for_up_n k i tt (fun _ _ => push_back item) this = Normal tt after /\
      well_formed after /\
      capacity after = capacity this /\
      size after = size this + Z.of_nat k /\
      contents after = contents this ++ repeat (Ok item) k.
Proof.
  induction k as [| k IH]; intros i this Hwf Hroom.
  - exists this. cbn [for_up_n repeat]. rewrite app_nil_r.
    split; [reflexivity | split; [exact Hwf | split; [reflexivity | split; [lia | reflexivity]]]].
  - pose proof (well_formed_size this Hwf) as Hsz.
    destruct (push_back_step item this Hwf ltac:(lia))
      as (mid & Hrun1 & Hwf1 & Hcap1 & Hcont1 & _).
    pose proof (well_formed_size mid Hwf1) as Hsz1.
    assert (Hsize1 : size mid = size this + 1).
    { pose proof (step_size this mid _ _ ltac:(lia) ltac:(lia) eq_refl Hcont1)
        as Hl.
      rewrite length_app in Hl. cbn [List.length] in Hl. lia. }
    destruct (IH (i + 1) mid Hwf1 ltac:(lia))
      as (after & Hrun & Hwf' & Hcap & Hsize & Hcont).
    exists after.
    split; [| split; [exact Hwf' | split; [lia | split; [lia |]]]].
    + cbn [for_up_n]. rewrite (bind_run _ _ _ _ _ Hrun1). exact Hrun.
    + rewrite Hcont, Hcont1, <- app_assoc. reflexivity.
Qed.

(** [k] calls of [pop_back] on a well-formed buffer with at least [k]
    elements. *)
Lemma pop_back_loop (k : nat) :
  forall (i : Z) (this : CircularBuffer T),
    well_formed this -> Z.of_nat k <= size this ->
    exists after,
      for_down_n k i (fun _ => pop_back) this = Normal tt after /\
      well_formed after /\
      capacity after = capacity this /\
      size after = size this - Z.of_nat k /\
      contents after = firstn (Z.to_nat (size this - Z.of_nat k)) (contents this).
Proof.
  induction k as [| k IH]; intros i this Hwf Hroom.
  - exists this. cbn [for_down_n].
    split; [reflexivity | split; [exact Hwf | split; [reflexivity | split; [lia |]]]].
    rewrite firstn_all2; [reflexivity |]. rewrite contents_length. lia.
  - pose proof (well_formed_size this Hwf) as Hsz.
    destruct (pop_back_step this Hwf ltac:(lia))
      as (x & mid & _ & Hrun1 & Hwf1 & Hcap1 & Hcont1).
    pose proof (well_formed_size mid Hwf1) as Hsz1.
    assert (Hsize1 : size this = size mid + 1).
    { pose proof (step_size mid this _ _ ltac:(lia) ltac:(lia) eq_refl Hcont1)
        as Hl.
      rewrite length_app in Hl. cbn [List.length] in Hl. lia. }
    destruct (IH (i - 1) mid Hwf1 ltac:(lia))
      as (after & Hrun & Hwf' & Hcap & Hsize & Hcont).
    exists after.
    split; [| split; [exact Hwf' | split; [lia | split; [lia |]]]].
    + cbn [for_down_n]. rewrite (bind_run _ _ _ _ _ Hrun1). exact Hrun.
    + rewrite Hcont, Hcont1.
      replace (size this - Z.of_nat (S k)) with (size mid - Z.of_nat k) by lia.
      rewrite firstn_app.
      replace (Z.to_nat (size mid - Z.of_nat k) - List.length (contents mid))%nat
        with 0%nat by (rewrite contents_length; lia).
      cbn [firstn]. now rewrite app_nil_r.
Qed.

(** X14.  [resize(new_size, item)] with [0 <= new_size <= capacity] on a
    well-formed buffer returns normally and keeps it well formed: the count
    becomes [new_size], the capacity is unchanged, and the logical sequence
    is the old one cut to its first [new_size] elements, followed by as
    many copies of [item] as it takes to reach [new_size]. *)
Theorem resize_to (new_size : Z) (item : T) (this : CircularBuffer T) :
  well_formed this -> 0 <= new_size <= capacity this ->
  exists after,
    resize new_size item this = Normal tt after /\
    well_formed after /\
    capacity after = capacity this /\
    size after = new_size /\
    contents after
    = firstn (Z.to_nat new_size) (contents this)
      ++ repeat (Ok item) (Z.to_nat (new_size - size this)).
Proof.
  intros Hwf Hnew. pose proof (well_formed_size this Hwf) as Hsz.
  destruct int_bounds as [Hmin Hmaxv].
  assert (Hmax : 2 * capacity this <= INT_MAX) by (destruct Hwf as (_ & _ & H & _); exact H).
  unfold resize.
  rewrite (bind_run get _ this this this eq_refl).
  destruct (Z.ltb_spec new_size 0) as [Hneg | _]; [lia |].
  destruct (Z.gtb_spec new_size (capacity this)) as [Hbig | _]; [lia |].
  cbn [orb].
  destruct (Z.gtb_spec new_size (size this)) as [Hgrow | Hle].
  - destruct (push_back_loop item (Z.to_nat (new_size - size this)) (size this)
                this Hwf ltac:(lia))
      as (after & Hrun & Hwf' & Hcap & Hsize & Hcont).
    exists after.
    split; [exact Hrun | split; [exact Hwf' | split; [exact Hcap | split; [lia |]]]].
    rewrite Hcont. f_equal.
    rewrite firstn_all2; [reflexivity |]. rewrite contents_length. lia.
  - destruct (Z.ltb_spec new_size (size this)) as [Hshrink | Hsame].
    + destruct (pop_back_loop (Z.to_nat (size this - 1 - new_size + 1))
                  (size this - 1) this Hwf ltac:(lia))
        as (after & Hrun & Hwf' & Hcap & Hsize & Hcont).
      exists after.
      split; [| split; [exact Hwf' | split; [exact Hcap | split; [lia |]]]].
      * run_with ltac:(apply sub_run; lia). exact Hrun.
      * rewrite Hcont.
        replace (Z.to_nat (new_size - size this)) with 0%nat by lia.
        cbn [repeat]. rewrite app_nil_r. f_equal. lia.
    + exists this.
      split; [reflexivity | split; [exact Hwf | split; [reflexivity | split; [lia |]]]].
      replace (Z.to_nat (new_size - size this)) with 0%nat by lia.
      cbn [repeat]. rewrite app_nil_r.
      rewrite firstn_all2; [reflexivity |]. rewrite contents_length. lia.
Qed.

End Resize.

(** *** Argument checks *)

Section ArgumentChecks.
Context {T : Type}.

Lemma not_raised_of_no_raise {A : Type} (c : M T A) (this s : CircularBuffer T)
      (e : exn) :
  no_raise c -> c this = Raised e s -> False.
Proof. intros Hc Hrun. now apply Hc in Hrun. Qed.

(** X15.  The argument checks of [rotate], [insert], [erase] and [resize]:
    [rotate(new_begin)] throws exactly when [new_begin < 0] or
    [new_begin >= size]; [insert(pos, item)] throws [std::out_of_range]
    exactly when [pos < 0] or [pos > size], and [std::overflow_error]
    exactly when [pos] is valid and the buffer is full;
    [erase(first, last)] throws exactly when [first < 0], [last >= size] or
    [first > last]; [resize(new_size, item)] throws exactly when
    [new_size < 0] or [new_size > capacity]. *)
Theorem argument_errors (dflt : T) (this : CircularBuffer T) :
  (forall new_begin,
      (exists e s, rotate dflt new_begin this = Raised e s)
      <-> new_begin < 0 \/ size this <= new_begin) /\
  (forall pos item,
      (exists s, insert pos item this
                 = Raised (out_of_range "Index out of bounds") s)
      <-> pos < 0 \/ size this < pos) /\
  (forall pos item,
      (exists s, insert pos item this = Raised (overflow_error "Buffer is full") s)
      <-> 0 <= pos <= size this /\ size this = capacity this) /\
  (forall first last,
      (exists e s, erase first last this = Raised e s)
      <-> first < 0 \/ size this <= last \/ last < first) /\
  (forall new_size item,
      (exists e s, resize new_size item this = Raised e s)
      <-> new_size < 0 \/ capacity this < new_size).
Proof.
  split; [| split; [| split; [| split]]].
  - intros new_begin. unfold rotate.
    rewrite (bind_run get _ this this this eq_refl).
    destruct (Z.ltb_spec new_begin 0), (Z.geb_spec new_begin (size this));
      cbn [orb]; (split; [intros (e & s & Hrun) | intros Hout]); try lia;
      try (eexists; eexists; reflexivity).
    exfalso. revert Hrun. apply not_raised_of_no_raise. never_raises.
  - intros pos item. unfold insert.
    rewrite (bind_run get _ this this this eq_refl).
    destruct (Z.ltb_spec pos 0), (Z.gtb_spec pos (size this));
      cbn [orb]; (split; [intros (s & Hrun) | intros Hout]); try lia;
      try (eexists; reflexivity).
    exfalso. destruct (full this); [discriminate |].
    revert Hrun. apply not_raised_of_no_raise. never_raises.
  - intros pos item. unfold insert.
    rewrite (bind_run get _ this this this eq_refl). unfold full.
    destruct (Z.ltb_spec pos 0), (Z.gtb_spec pos (size this));
      cbn [orb]; (split; [intros (s & Hrun) | intros Hout]);
      try lia; try discriminate.
    + destruct (Z.eqb_spec (size this) (capacity this)) as [Hfull | Hroom];
        [lia |].
      exfalso. revert Hrun. apply not_raised_of_no_raise. never_raises.
    + destruct (Z.eqb_spec (size this) (capacity this)) as [Hfull | Hroom];
        [| lia].
      eexists; reflexivity.
  - intros first last. unfold erase.
    rewrite (bind_run get _ this this this eq_refl).
    destruct (Z.ltb_spec first 0), (Z.geb_spec last (size this)),
             (Z.gtb_spec first last);
      cbn [orb]; (split; [intros (e & s & Hrun) | intros Hout]); try lia;
      try (eexists; eexists; reflexivity).
    exfalso. revert Hrun. apply not_raised_of_no_raise. never_raises.
  - intros new_size item. split.
    + intros (e & s & Hrun). unfold resize in Hrun.
      rewrite (bind_run get _ this this this eq_refl) in Hrun.
      destruct (Z.ltb_spec new_size 0); [lia |].
      destruct (Z.gtb_spec new_size (capacity this)); [lia |].
      cbn [orb] in Hrun. exfalso.
      destruct (Z.gtb_spec new_size (size this)).
      * revert Hrun. unfold for_up. apply push_back_loop_never_raises. lia.
      * destruct (Z.ltb_spec new_size (size this)).
        -- revert Hrun. cbn. unfold sub, int_of.
           destruct (in_int (size this - 1)); [| discriminate]. cbn.
           unfold for_down. apply pop_back_loop_never_raises. lia.
        -- discriminate.
    + intros Hout. unfold resize.
      rewrite (bind_run get _ this this this eq_refl).
      destruct (Z.ltb_spec new_size 0), (Z.gtb_spec new_size (capacity this));
        cbn [orb]; try lia; eexists; eexists; reflexivity.
Qed.

End ArgumentChecks.

(** *** [insert] and [erase] *)

Section InsertEraseGeneral.
Context {T : Type}.

Lemma insert_ref_outside (pos : Z) (x : T) (this : CircularBuffer T) :
  insert_ref pos (Outside x) this = insert pos x this.
Proof. reflexivity. Qed.

(** The slot a reference into the block points to, as a logical index. *)
Lemma slot_of_index (c st k : Z) :
  0 <= st < c -> 0 <= k < c ->
  0 <= (k - st) mod c < c /\ ring_slot c st ((k - st) mod c) = Z.to_nat k.
Proof.
  intros Hst Hk. split; [apply Z.mod_pos_bound; lia |].
  unfold ring_slot. rewrite Z.add_mod_idemp_r by lia.
  replace (st + (k - st)) with k by lia. now rewrite Z.mod_small by lia.
Qed.

Lemma index_run (j : Z) (x : T) (s : CircularBuffer T) :
  0 <= start s < capacity s -> 2 * capacity s <= INT_MAX -> 0 <= j < capacity s ->
  nth_error (buffer s) (ring_slot (capacity s) (start s) j) = Some x ->
  index j s = Normal x s.
Proof.
  intros Hst Hmax Hj Hx. unfold index.
  run_with ltac:(apply slot_in_ring; lia).
  apply load_run; [apply Z.mod_pos_bound; lia | exact Hx].
Qed.

Lemma insert_ref_run (this : CircularBuffer T) (pos : Z) (item : cref T) :
  ring_ready this -> size this <> capacity this -> 0 <= pos <= size this ->
  valid_ref this item ->
  exists a' v,
    insert_ref pos item this
    = Normal tt (mkCB (capacity this) (size this + 1) a' (start this) (end_ this)) /\
    List.length a' = List.length (buffer this) /\
    item_read this pos item = Ok v /\
    forall j, 0 <= j < capacity this ->
      nth_error a' (ring_slot (capacity this) (start this) j) =
      if j =? pos then Some v
      else if (pos <? j) && (j <=? size this)
           then nth_error (buffer this) (ring_slot (capacity this) (start this) (j - 1))
           else nth_error (buffer this) (ring_slot (capacity this) (start this) j).
Proof.
  intros (Hst & Hlen & Hmax & Hsize & Hend) Hroom Hpos Hitem.
  destruct int_bounds as [Hmin Hmaxv].
  pose (body := fun i : Z =>
          (d <- add (start this) i ;;
           d <- add d 1 ;;
           d <- rem d (capacity this) ;;
           s <- slot i ;;
           x <- load s ;;
           store d x) : M T unit).
  assert (Hbody : forall i s x,
             capacity s = capacity this -> start s = start this ->
             Z.of_nat (List.length (buffer s)) = capacity this ->
             0 <= i -> i + 1 < capacity this ->
             nth_error (buffer s) (ring_slot (capacity this) (start this) i) = Some x ->
             body i s
             = Normal tt (with_buffer s (update (buffer s)
                            (ring_slot (capacity this) (start this) (i + 1)) x))).
  { intros i s x Hc Hs Hl Hi Hi' Hx. unfold body.
    run_with ltac:(apply add_run; lia).
    run_with ltac:(apply add_run; lia).
    run_with ltac:(apply rem_run; lia).
    run_with ltac:(apply slot_in_ring; lia).
    rewrite Hc, Hs.
    run_with ltac:(apply load_run; [apply Z.mod_pos_bound; lia | exact Hx]).
    rewrite Z.rem_mod_nonneg by lia.
    replace (start this + i + 1) with (start this + (i + 1)) by lia.
    apply store_run. rewrite Hl. apply Z.mod_pos_bound. lia. }
  destruct (shift_up_loop (capacity this) (start this) Hst body Hbody
              (Z.to_nat (size this - 1 - pos + 1)) (size this - 1) this
              eq_refl eq_refl Hlen)
    as (a1 & Hloop & Hlen1 & Hview1); [lia | lia |].
  assert (Hview : forall j, 0 <= j < capacity this ->
             nth_error a1 (ring_slot (capacity this) (start this) j) =
             if (pos <? j) && (j <=? size this)
             then nth_error (buffer this) (ring_slot (capacity this) (start this) (j - 1))
             else nth_error (buffer this) (ring_slot (capacity this) (start this) j)).
  { intros j Hj. rewrite (Hview1 j Hj). rewrite Z2Nat.id by lia.
    destruct (Z.ltb_spec (size this - 1 - (size this - 1 - pos + 1) + 1) j),
             (Z.leb_spec j (size this - 1 + 1)),
             (Z.ltb_spec pos j), (Z.leb_spec j (size this));
      cbn [andb]; try reflexivity; lia. }
  assert (Hread : exists v,
             deref item (with_buffer this a1) = Normal v (with_buffer this a1) /\
             item_read this pos item = Ok v).
  { destruct item as [x | k]; cbn [deref item_read valid_ref] in *.
    - exists x. split; reflexivity.
    - destruct (slot_of_index (capacity this) (start this) k Hst Hitem)
        as [Hi Hslot].
      set (i := (k - start this) mod capacity this) in *.
      set (i' := if (pos <? i) && (i <=? size this) then i - 1 else i).
      assert (Hi' : 0 <= i' < capacity this).
      { unfold i'. destruct (Z.ltb_spec pos i), (Z.leb_spec i (size this));
          cbn [andb]; lia. }
      destruct (ring_slot_some (capacity this) (start this) Hst (buffer this) i' Hlen)
        as [v Hv].
      exists v. split.
      + apply load_run; [lia |]. cbn [buffer with_buffer].
        rewrite <- Hslot, (Hview i Hi). rewrite <- Hv. unfold i'.
        destruct ((pos <? i) && (i <=? size this)); reflexivity.
      + unfold eval. now rewrite (index_run i' v this). }
  destruct Hread as (v & Hderef & Hv).
  exists (update a1 (ring_slot (capacity this) (start this) pos) v), v.
  split; [| split; [| split]].
  - unfold insert_ref.
    run_with reflexivity.
    destruct (Z.ltb_spec pos 0) as [Hneg | _]; [lia |].
    destruct (Z.gtb_spec pos (size this)) as [Hbig | _]; [lia |].
    cbn [orb]. unfold full.
    destruct (Z.eqb_spec (size this) (capacity this)) as [Hfull | _]; [lia |].
    run_with ltac:(apply sub_run; lia).
    unfold for_down.
    run_with ltac:(exact Hloop).
    run_with ltac:(apply slot_in_ring; cbn [start capacity with_buffer]; lia).
    run_with ltac:(exact Hderef).
    run_with ltac:(apply store_run; cbn [start capacity buffer with_buffer];
                   rewrite Hlen1, Hlen; apply Z.mod_pos_bound; lia).
    run_with ltac:(apply add_run; lia).
    reflexivity.
  - now rewrite update_length.
  - exact Hv.
  - intros j Hj.
    assert (Hin : (ring_slot (capacity this) (start this) pos < List.length a1)%nat).
    { pose proof (ring_slot_bound (capacity this) (start this) pos). lia. }
    destruct (Z.eqb_spec j pos) as [-> | Hne].
    + now apply nth_error_update_eq.
    + rewrite nth_error_update_neq
        by (intros Heq; apply ring_slot_inj in Heq; lia).
      now apply Hview.
Qed.

(** X16.  [insert(pos, item)] with [0 <= pos <= size] on a buffer that is
    not full and whose markers are in place ([ring_ready]: the block has
    [capacity] slots, [0 <= start < capacity], [size <= capacity],
    [-1 <= end < capacity], twice the capacity is an [int]) returns
    normally: the count grows by one, the elements before [pos] stay, the
    elements from [pos] on move one index up, and [start] and [end] are left
    as they were.  The element at [pos] is what [item] refers to when it is
    read, after the move: the value passed when [item] is no slot of the
    block, and for [item] a slot of the block the content the move left in
    that slot, so that [cb.insert(pos, cb[i])] with [pos < i <= size]
    inserts the old element [i - 1]. *)
Theorem insert_shifts (this : CircularBuffer T) (pos : Z) (item : cref T) :
  ring_ready this -> size this <> capacity this -> 0 <= pos <= size this ->
  valid_ref this item ->
  exists after,
    insert_ref pos item this = Normal tt after /\
    size after = size this + 1 /\
    capacity after = capacity this /\
    start after = start this /\
    end_ after = end_ this /\
    forall j, 0 <= j <= size this ->
      eval (at_ j) after =
      if j <? pos then eval (at_ j) this
      else if j =? pos then item_read this pos item
           else eval (at_ (j - 1)) this.
Proof.
  intros Hready Hroom Hpos Hitem.
  destruct (insert_ref_run this pos item Hready Hroom Hpos Hitem)
    as (a' & v & Hrun & Hlen' & Hv & Hview).
  destruct Hready as (Hst & Hlen & Hmax & Hsize & Hend).
  eexists. split; [exact Hrun |].
  repeat (split; [reflexivity |]).
  intros j Hj.
  destruct (Z.ltb_spec j pos) as [Hbefore | Hfrom].
  - apply eval_at_eq; cbn [buffer capacity size start]; try lia.
    rewrite Hview by lia.
    destruct (Z.eqb_spec j pos) as [Heq | _]; [lia |].
    destruct (Z.ltb_spec pos j); [lia | reflexivity].
  - destruct (Z.eqb_spec j pos) as [-> | Hne].
    + rewrite Hv. unfold eval.
      rewrite (at_run pos v); [reflexivity | | | | |];
        cbn [buffer capacity size start]; try lia.
      rewrite Hview by lia. now rewrite Z.eqb_refl.
    + apply eval_at_eq; cbn [buffer capacity size start]; try lia.
      rewrite Hview by lia.
      destruct (Z.eqb_spec j pos) as [Heq | _]; [lia |].
      destruct (Z.ltb_spec pos j), (Z.leb_spec j (size this));
        cbn [andb]; try lia. reflexivity.
Qed.

(** X18.  On a buffer that is not full and whose markers are in place
    ([ring_ready]: the block has [capacity] slots, [0 <= start < capacity],
    [size <= capacity], [-1 <= end < capacity], twice the capacity is an
    [int]), [insert(pos, item)] with [0 <= pos <= size] followed by
    [erase(pos, pos)] returns normally and leaves the count, the capacity
    and the element at every logical index as they were, whether [item] is
    an object outside the block or refers to a slot of the block. *)
Theorem insert_erase_restores (this : CircularBuffer T) (pos : Z) (item : cref T) :
  ring_ready this -> size this <> capacity this -> 0 <= pos <= size this ->
  valid_ref this item ->
  exists after,
    (insert_ref pos item ;; erase pos pos) this = Normal tt after /\
    size after = size this /\
    capacity after = capacity this /\
    forall j, 0 <= j < size this ->
      exists x, at_ j this = Normal x this /\ at_ j after = Normal x after.
Proof.
  intros Hready Hroom Hpos Hitem.
  destruct (insert_ref_run this pos item Hready Hroom Hpos Hitem)
    as (a2 & v & Hins & Hlen2 & _ & Hview2).
  destruct Hready as (Hst & Hlen & Hmax & Hsize & Hend).
  set (s2 := mkCB (capacity this) (size this + 1) a2 (start this) (end_ this)) in *.
  destruct (erase_one_run s2 pos) as (a3 & e3 & Hera & Hlen3 & Hview3);
    cbn [s2 start capacity size buffer end_]; try lia.
  exists (mkCB (capacity this) (size this) a3 (start this) e3).
  split; [| split; [reflexivity | split; [reflexivity |]]].
  - rewrite (bind_run _ _ _ _ _ Hins). rewrite Hera.
    cbn [s2 start capacity size buffer end_].
    now replace (size this + 1 - 1) with (size this) by lia.
  - intros j Hj.
    destruct (ring_slot_some (capacity this) (start this) Hst (buffer this) j Hlen)
      as [x Hx].
    exists x. split.
    + apply at_run; try assumption; lia.
    + apply at_run; cbn [start capacity size buffer]; try lia.
      cbn [s2 start capacity size buffer end_] in Hview3.
      rewrite Hview3 by lia.
      destruct (Z.leb_spec pos j), (Z.ltb_spec j (size this + 1 - 1));
        cbn [andb]; try lia.
      * rewrite Hview2 by lia.
        destruct (Z.eqb_spec (j + 1) pos) as [Heq | _]; [lia |].
        destruct (Z.ltb_spec pos (j + 1)), (Z.leb_spec (j + 1) (size this));
          cbn [andb]; try lia.
        now replace (j + 1 - 1) with j by lia.
      * rewrite Hview2 by lia.
        destruct (Z.eqb_spec j pos) as [Heq | _]; [lia |].
        destruct (Z.ltb_spec pos j), (Z.leb_spec j (size this));
          cbn [andb]; try lia.
        exact Hx.
Qed.

(** The loop of [erase]: [k] iterations upwards from [i], each copying the
    element of logical index [i] to logical index [i - d]. *)
Lemma shift_down_by_loop (c st d : Z) (body : Z -> M T unit) :
  0 <= st < c -> 1 <= d ->
  (forall i s x,
      capacity s = c -> start s = st ->
      Z.of_nat (List.length (buffer s)) = c ->
      d <= i -> i < c ->
      nth_error (buffer s) (ring_slot c st i) = Some x ->
      body i s
      = Normal tt (with_buffer s (update (buffer s) (ring_slot c st (i - d)) x))) ->
  forall (k : nat) (i : Z) (s : CircularBuffer T),
    capacity s = c -> start s = st ->
    Z.of_nat (List.length (buffer s)) = c ->
    d <= i -> i + Z.of_nat k <= c ->
    exists a',
      for_up_n k i tt (fun i _ => body i) s = Normal tt (with_buffer s a') /\
      List.length a' = List.length (buffer s) /\
      forall j, 0 <= j < c ->
        nth_error a' (ring_slot c st j) =
        if (i - d <=? j) && (j <? i - d + Z.of_nat k)
        then nth_error (buffer s) (ring_slot c st (j + d))
        else nth_error (buffer s) (ring_slot c st j).
Proof.
  intros Hst Hd Hbody.
  induction k as [| k IH]; intros i s Hcap Hstart Hlen Hlow Hhigh.
  - exists (buffer s). cbn [for_up_n]. rewrite with_buffer_same.
    split; [reflexivity |]. split; [reflexivity |].
    intros j Hj.
    destruct (Z.leb_spec (i - d) j), (Z.ltb_spec j (i - d + Z.of_nat 0));
      cbn [andb]; try reflexivity; lia.
  - destruct (ring_slot_some c st Hst (buffer s) i Hlen) as [x Hx].
    assert (Hstep := Hbody i s x Hcap Hstart Hlen Hlow ltac:(lia) Hx).
    destruct (IH (i + 1)
                (with_buffer s (update (buffer s) (ring_slot c st (i - d)) x)))
      as (a' & Hrun & Hlen' & Hview); try reflexivity; try assumption; try lia.
    { cbn [buffer with_buffer]. now rewrite update_length. }
    exists a'. split; [| split].
    + cbn [for_up_n]. rewrite (bind_run _ _ _ _ _ Hstep). exact Hrun.
    + rewrite Hlen'. cbn [buffer with_buffer]. apply update_length.
    + intros j Hj. rewrite (Hview j Hj). cbn [buffer with_buffer].
      assert (Hin : (ring_slot c st (i - d) < List.length (buffer s))%nat).
      { pose proof (ring_slot_bound c st (i - d)). lia. }
      destruct (Z.leb_spec (i + 1 - d) j),
               (Z.ltb_spec j (i + 1 - d + Z.of_nat k)),
               (Z.leb_spec (i - d) j),
               (Z.ltb_spec j (i - d + Z.of_nat (S k))); cbn [andb]; try lia;
        first [ apply nth_error_update_neq; intros Heq;
                apply ring_slot_inj in Heq; lia
              | assert (j = i - d) by lia; subst j;
                rewrite nth_error_update_eq by exact Hin;
                now replace (i - d + d) with i by lia ].
Qed.

(** The object [erase] leaves. *)
Lemma erase_run (this : CircularBuffer T) (first last : Z) :
  ring_ready this -> 0 <= first -> first <= last -> last < size this ->
  exists a' e',
    erase first last this
    = Normal tt (mkCB (capacity this) (size this - (last - first + 1)) a'
                      (start this) e') /\
    List.length a' = List.length (buffer this) /\
    forall j, 0 <= j < capacity this ->
      nth_error a' (ring_slot (capacity this) (start this) j) =
      if (first <=? j) && (j <? size this - (last - first + 1))
      then nth_error (buffer this)
             (ring_slot (capacity this) (start this) (j + (last - first + 1)))
      else nth_error (buffer this) (ring_slot (capacity this) (start this) j).
Proof.
  intros (Hst & Hlen & Hmax & Hsize & Hend) Hfirst Hlast Hin.
  destruct int_bounds as [Hmin Hmaxv].
  pose (body := fun i : Z =>
          (d <- add (start this) i ;;
           k <- sub last first ;;
           k <- add k 1 ;;
           d <- sub d k ;;
           d <- rem d (capacity this) ;;
           s <- slot i ;;
           x <- load s ;;
           store d x) : M T unit).
  assert (Hbody : forall i s x,
             capacity s = capacity this -> start s = start this ->
             Z.of_nat (List.length (buffer s)) = capacity this ->
             last - first + 1 <= i -> i < capacity this ->
             nth_error (buffer s) (ring_slot (capacity this) (start this) i) = Some x ->
             body i s
             = Normal tt (with_buffer s (update (buffer s)
                            (ring_slot (capacity this) (start this)
                               (i - (last - first + 1))) x))).
  { intros i s x Hc Hs Hl Hi Hi' Hx. unfold body.
    run_with ltac:(apply add_run; lia).
    run_with ltac:(apply sub_run; lia).
    run_with ltac:(apply add_run; lia).
    run_with ltac:(apply sub_run; lia).
    run_with ltac:(apply rem_run; lia).
    run_with ltac:(apply slot_in_ring; lia).
    rewrite Hc, Hs.
    run_with ltac:(apply load_run; [apply Z.mod_pos_bound; lia | exact Hx]).
    rewrite Z.rem_mod_nonneg by lia.
    replace (start this + i - (last - first + 1))
      with (start this + (i - (last - first + 1))) by lia.
    apply store_run. rewrite Hl. apply Z.mod_pos_bound. lia. }
  destruct (shift_down_by_loop (capacity this) (start this) (last - first + 1)
              body Hst ltac:(lia) Hbody
              (Z.to_nat (size this - (last + 1))) (last + 1) this
              eq_refl eq_refl Hlen)
    as (a1 & Hloop & Hlen1 & Hview1); [lia | lia |].
  exists a1,
    (Z.rem (end_ this - (last - first + 1) + capacity this) (capacity this)).
  split; [| split].
  - unfold erase.
    run_with reflexivity.
    destruct (Z.ltb_spec first 0) as [Hneg | _]; [lia |].
    destruct (Z.geb_spec last (size this)) as [Hbig | _]; [lia |].
    destruct (Z.gtb_spec first last) as [Hgt | _]; [lia |].
    cbn [orb].
    run_with ltac:(apply add_run; lia).
    unfold for_up.
    run_with ltac:(exact Hloop).
    run_with ltac:(apply sub_run; lia).
    run_with ltac:(apply add_run; lia).
    run_with ltac:(apply sub_run; lia).
    run_with reflexivity.
    run_with ltac:(apply sub_run; lia).
    run_with ltac:(apply add_run; lia).
    run_with ltac:(apply sub_run; lia).
    run_with ltac:(apply add_run; lia).
    run_with ltac:(apply rem_run; lia).
    reflexivity.
  - exact Hlen1.
  - intros j Hj. rewrite (Hview1 j Hj).
    rewrite Z2Nat.id by lia.
    destruct (Z.leb_spec (last + 1 - (last - first + 1)) j),
             (Z.ltb_spec j (last + 1 - (last - first + 1) + (size this - (last + 1)))),
             (Z.leb_spec first j),
             (Z.ltb_spec j (size this - (last - first + 1)));
      cbn [andb]; try reflexivity; lia.
Qed.

(** X17.  [erase(first, last)] with [0 <= first <= last < size] on a buffer
    whose markers are in place ([ring_ready]: the block has [capacity]
    slots, [0 <= start < capacity], [size <= capacity],
    [-1 <= end < capacity], twice the capacity is an [int]) returns
    normally: the count drops by [last - first + 1], the elements before
    [first] stay, and the elements after [last] move down to close the
    gap. *)
Theorem erase_closes_gap (this : CircularBuffer T) (first last : Z) :
  ring_ready this -> 0 <= first -> first <= last -> last < size this ->
  exists after,
    erase first last this = Normal tt after /\
    size after = size this - (last - first + 1) /\
    capacity after = capacity this /\
    forall j, 0 <= j < size after ->
      eval (at_ j) after
      = eval (at_ (if j <? first then j else j + (last - first + 1))) this.
Proof.
  intros Hready Hfirst Hlast Hin.
  destruct (erase_run this first last Hready Hfirst Hlast Hin)
    as (a' & e' & Hrun & Hlen' & Hview).
  destruct Hready as (Hst & Hlen & Hmax & Hsize & Hend).
  eexists. split; [exact Hrun |].
  repeat (split; [reflexivity |]).
  cbn [size]. intros j Hj.
  destruct (Z.ltb_spec j first) as [Hbefore | Hfrom];
    (apply eval_at_eq; cbn [buffer capacity size start]; try lia;
     rewrite Hview by lia;
     destruct (Z.leb_spec first j),
              (Z.ltb_spec j (size this - (last - first + 1)));
     cbn [andb]; try lia; reflexivity).
Qed.

End InsertEraseGeneral.

(** *** The comparison operators *)

Lemma no_raise_front {T : Type} : no_raise (@front T).
Proof. unfold front. never_raises. Qed.

Lemma no_raise_index {T : Type} (i : Z) : no_raise (@index T i).
Proof. unfold index. never_raises. Qed.

(** The operand [a[(a.front() + i) % a.get_capacity()]] of the comparison
    never throws. *)
Lemma operand_never_throws (a : CircularBuffer Z) (i : Z) (e : exn) :
  (f <- eval front a ;;
   k <- add f i ;;
   k <- rem k (get_capacity a) ;;
   eval (index k) a) <> Throw e.
Proof.
  cbn [bind result_monad].
  destruct (eval front a) as [f | e' |] eqn:Hf; try discriminate.
  { unfold add, int_of. destruct (in_int (f + i)); cbn [ret undefined result_monad];
      [| discriminate].
    unfold rem.
    destruct ((get_capacity a =? 0) || ((f + i =? INT_MIN) && (get_capacity a =? -1)));
      cbn [ret undefined result_monad]; [discriminate |].
    apply no_raise_eval, no_raise_index. }
  now apply (no_raise_eval front a e' no_raise_front) in Hf.
Qed.

Lemma equal_from_sym (n : nat) :
  forall i a b, equal_from n i a b = equal_from n i b a.
Proof.
  induction n as [| n IH]; intros i a b; [reflexivity |].
  cbn [equal_from].
  pose proof (operand_never_throws a i) as Ha.
  pose proof (operand_never_throws b i) as Hb.
  destruct (f <- eval front a ;; k <- add f i ;;
            k <- rem k (get_capacity a) ;; eval (index k) a)
    as [x | ea |];
    destruct (f <- eval front b ;; k <- add f i ;;
              k <- rem k (get_capacity b) ;; eval (index k) b)
    as [y | eb |];
    cbn [bind result_monad]; try reflexivity;
    try (now destruct (Ha ea)); try (now destruct (Hb eb)).
  rewrite (Z.eqb_sym x y). now rewrite IH.
Qed.

Lemma equal_from_refl (n : nat) :
  forall i a, equal_from n i a a = Ok true \/ equal_from n i a a = UB.
Proof.
  induction n as [| n IH]; intros i a; [now left |].
  cbn [equal_from].
  pose proof (operand_never_throws a i) as Ha.
  destruct (f <- eval front a ;; k <- add f i ;;
            k <- rem k (get_capacity a) ;; eval (index k) a)
    as [x | ea |]; cbn [bind result_monad].
  - rewrite Z.eqb_refl. cbn [negb]. apply IH.
  - now destruct (Ha ea).
  - now right.
Qed.

(** X23.  [a == b] and [b == a] have the same outcome, and [a != b] is the
    negation of [a == b]. *)
Theorem operator_eq_symmetric (a b : CircularBuffer Z) :
  operator_eq a b = operator_eq b a /\
  operator_ne a b = (r <- operator_eq b a ;; Ok (negb r)).
Proof.
  assert (Hsym : operator_eq a b = operator_eq b a).
  { unfold operator_eq. rewrite (Z.eqb_sym (get_size a) (get_size b)).
    destruct (Z.eqb_spec (get_size b) (get_size a)) as [Heq | Hne];
      cbn [negb]; [| reflexivity].
    rewrite Heq. apply equal_from_sym. }
  split; [exact Hsym |]. unfold operator_ne. now rewrite Hsym.
Qed.

(** X24.  Comparing a buffer with itself never gives [false] and never
    throws: [a == a] is [true] whenever its reads are defined. *)
Theorem operator_eq_reflexive (a : CircularBuffer Z) :
  operator_eq a a = Ok true \/ operator_eq a a = UB.
Proof.
  unfold operator_eq. rewrite Z.eqb_refl. cbn [negb]. apply equal_from_refl.
Qed.

(** [cb.insert(0, cb[1])] on the buffer holding 10, 20, 30: the item is
    read after the move, when slot 1 holds 10; with an item outside the
    block, 20 is inserted. *)
Example insert_own_element :
  item_read (mkCB 5 3 [10; 20; 30; 0; 0] 0 2) 0 (Slot 1) = Ok 10 /\
  insert_ref 0 (Slot 1) (mkCB 5 3 [10; 20; 30; 0; 0] 0 2)
  = Normal tt (mkCB 5 4 [10; 10; 20; 30; 0] 0 2) /\
  insert_ref 0 (Outside 20) (mkCB 5 3 [10; 20; 30; 0; 0] 0 2)
  = Normal tt (mkCB 5 4 [20; 10; 20; 30; 0] 0 2).
Proof. repeat split. Qed.

(** *** The end operations, one by one *)

(** X1.  [push_back(item)] on a well-formed buffer that is not full returns
    normally, keeps the buffer well formed and its capacity, appends the
    item to the logical sequence, and [back()] then yields the item. *)
Theorem push_back_appends {T : Type} (item : T) (this : CircularBuffer T) :
  well_formed this -> size this <> capacity this ->
  exists after,
    push_back item this = Normal tt after /\
    well_formed after /\
    capacity after = capacity this /\
    contents after = contents this ++ [Ok item] /\
    back after = Normal item after.
Proof. apply push_back_step. Qed.

Lemma push_back_appends_witness :
  well_formed (mkCB 3 2 [1; 2; 3] 1 2) /\
  size (mkCB 3 2 [1; 2; 3] 1 2) <> capacity (mkCB 3 2 [1; 2; 3] 1 2) /\
  exists after,
    push_back 7 (mkCB 3 2 [1; 2; 3] 1 2) = Normal tt after /\
    well_formed after /\
    capacity after = capacity (mkCB 3 2 [1; 2; 3] 1 2) /\
    contents after = contents (mkCB 3 2 [1; 2; 3] 1 2) ++ [Ok 7] /\
    back after = Normal 7 after.
Proof.
  assert (Hwf : well_formed (mkCB 3 2 [1; 2; 3] 1 2)).
  { unfold well_formed, INT_MAX. cbn. lia. }
  assert (Hroom : size (mkCB 3 2 [1; 2; 3] 1 2) <> capacity (mkCB 3 2 [1; 2; 3] 1 2)).
  { cbn. lia. }
  split; [exact Hwf |]. split; [exact Hroom |].
  exact (push_back_appends 7 (mkCB 3 2 [1; 2; 3] 1 2) Hwf Hroom).
Defined.

(** X2.  [push_front(item)] on a well-formed buffer that is neither empty
    nor full returns normally, keeps the buffer well formed and its
    capacity, puts the item in front of the logical sequence, and [front()]
    then yields the item. *)
Theorem push_front_prepends {T : Type} (item : T) (this : CircularBuffer T) :
  well_formed this -> size this <> 0 -> size this <> capacity this ->
  exists after,
    push_front item this = Normal tt after /\
    well_formed after /\
    capacity after = capacity this /\
    contents after = Ok item :: contents this /\
    front after = Normal item after.
Proof. apply push_front_step. Qed.

Lemma push_front_prepends_witness :
  well_formed (mkCB 3 2 [1; 2; 3] 1 2) /\
  size (mkCB 3 2 [1; 2; 3] 1 2) <> 0 /\
  size (mkCB 3 2 [1; 2; 3] 1 2) <> capacity (mkCB 3 2 [1; 2; 3] 1 2) /\
  exists after,
    push_front 7 (mkCB 3 2 [1; 2; 3] 1 2) = Normal tt after /\
    well_formed after /\
    capacity after = capacity (mkCB 3 2 [1; 2; 3] 1 2) /\
    contents after = Ok 7 :: contents (mkCB 3 2 [1; 2; 3] 1 2) /\
    front after = Normal 7 after.
Proof.
  assert (Hwf : well_formed (mkCB 3 2 [1; 2; 3] 1 2)).
  { unfold well_formed, INT_MAX. cbn. lia. }
  assert (Hne : size (mkCB 3 2 [1; 2; 3] 1 2) <> 0) by (cbn; lia).
  assert (Hroom : size (mkCB 3 2 [1; 2; 3] 1 2) <> capacity (mkCB 3 2 [1; 2; 3] 1 2)).
  { cbn. lia. }
  split; [exact Hwf |]. split; [exact Hne |]. split; [exact Hroom |].
  exact (push_front_prepends 7 (mkCB 3 2 [1; 2; 3] 1 2) Hwf Hne Hroom).
Defined.

(** X3.  [pop_front()] on a well-formed, non-empty buffer returns normally,
    keeps the buffer well formed and its capacity, and removes from the
    logical sequence its first element, the one [front()] returned. *)
Theorem pop_front_drops_first {T : Type} (this : CircularBuffer T) :
  well_formed this -> size this <> 0 ->
  exists x after,
    front this = Normal x this /\
    pop_front this = Normal tt after /\
    well_formed after /\
    capacity after = capacity this /\
    contents this = Ok x :: contents after.
Proof. apply pop_front_step. Qed.

Lemma pop_front_drops_first_witness :
  well_formed (mkCB 3 2 [1; 2; 3] 1 2) /\
  size (mkCB 3 2 [1; 2; 3] 1 2) <> 0 /\
  exists x after,
    front (mkCB 3 2 [1; 2; 3] 1 2) = Normal x (mkCB 3 2 [1; 2; 3] 1 2) /\
    pop_front (mkCB 3 2 [1; 2; 3] 1 2) = Normal tt after /\
    well_formed after /\
    capacity after = capacity (mkCB 3 2 [1; 2; 3] 1 2) /\
    contents (mkCB 3 2 [1; 2; 3] 1 2) = Ok x :: contents after.
Proof.
  assert (Hwf : well_formed (mkCB 3 2 [1; 2; 3] 1 2)).
  { unfold well_formed, INT_MAX. cbn. lia. }
  assert (Hne : size (mkCB 3 2 [1; 2; 3] 1 2) <> 0) by (cbn; lia).
  split; [exact Hwf |]. split; [exact Hne |].
  exact (pop_front_drops_first (mkCB 3 2 [1; 2; 3] 1 2) Hwf Hne).
Defined.

(** X4.  [pop_back()] on a well-formed, non-empty buffer returns normally,
    keeps the buffer well formed and its capacity, and removes from the
    logical sequence its last element, the one [back()] returned. *)
Theorem pop_back_drops_last {T : Type} (this : CircularBuffer T) :
  well_formed this -> size this <> 0 ->
  exists x after,
    back this = Normal x this /\
    pop_back this = Normal tt after /\
    well_formed after /\
    capacity after = capacity this /\
    contents this = contents after ++ [Ok x].
Proof. apply pop_back_step. Qed.

Lemma pop_back_drops_last_witness :
  well_formed (mkCB 3 2 [1; 2; 3] 1 2) /\
  size (mkCB 3 2 [1; 2; 3] 1 2) <> 0 /\
  exists x after,
    back (mkCB 3 2 [1; 2; 3] 1 2) = Normal x (mkCB 3 2 [1; 2; 3] 1 2) /\
    pop_back (mkCB 3 2 [1; 2; 3] 1 2) = Normal tt after /\
    well_formed after /\
    capacity after = capacity (mkCB 3 2 [1; 2; 3] 1 2) /\
    contents (mkCB 3 2 [1; 2; 3] 1 2) = contents after ++ [Ok x].
Proof.
  assert (Hwf : well_formed (mkCB 3 2 [1; 2; 3] 1 2)).
  { unfold well_formed, INT_MAX. cbn. lia. }
  assert (Hne : size (mkCB 3 2 [1; 2; 3] 1 2) <> 0) by (cbn; lia).
  split; [exact Hwf |]. split; [exact Hne |].
  exact (pop_back_drops_last (mkCB 3 2 [1; 2; 3] 1 2) Hwf Hne).
Defined.

Lemma pops_throw_iff_empty_witness :
  pop_back (mkCB 3 0 [0; 0; 0] (-1) (-1))
  = Raised (underflow_error "Buffer is empty") (mkCB 3 0 [0; 0; 0] (-1) (-1)) /\
  underflow_error "Buffer is empty" = underflow_error "Buffer is empty" /\
  mkCB 3 0 [0; 0; 0] (-1) (-1) = mkCB 3 0 [0; 0; 0] (-1) (-1).
Proof.
  assert (Hrun : pop_back (mkCB 3 0 [0; 0; 0] (-1) (-1))
                 = Raised (underflow_error "Buffer is empty")
                          (mkCB 3 0 [0; 0; 0] (-1) (-1))) by reflexivity.
  split; [exact Hrun |].
  exact (proj1 (proj2 (proj2 (pops_throw_iff_empty (mkCB 3 0 [0; 0; 0] (-1) (-1)))))
           _ _ Hrun).
Defined.

Lemma at_throws_iff_out_of_range_witness :
  at_ 5 (mkCB 3 2 [1; 2; 3] 1 2)
  = Raised (out_of_range "Index out of bounds") (mkCB 3 2 [1; 2; 3] 1 2) /\
  out_of_range "Index out of bounds" = out_of_range "Index out of bounds" /\
  mkCB 3 2 [1; 2; 3] 1 2 = mkCB 3 2 [1; 2; 3] 1 2.
Proof.
  assert (Hrun : at_ 5 (mkCB 3 2 [1; 2; 3] 1 2)
                 = Raised (out_of_range "Index out of bounds")
                          (mkCB 3 2 [1; 2; 3] 1 2)) by reflexivity.
  split; [exact Hrun |].
  exact (proj1 (proj2 (at_throws_iff_out_of_range 5 (mkCB 3 2 [1; 2; 3] 1 2)))
           _ _ Hrun).
Defined.

(** A queue scenario on a fresh buffer of capacity 3: it fills up, one
    push is refused, it wraps around, and a pop on the emptied buffer is
    refused. *)
Lemma attempts_follow_deque_witness :
  well_formed (mkCB 3 0 [0; 0; 0] (-1) (-1)) /\
  contents (mkCB 3 0 [0; 0; 0] (-1) (-1)) = map Ok [] /\
  no_push_front_on_empty (capacity (mkCB 3 0 [0; 0; 0] (-1) (-1)))
    [PushBack 1; PushBack 2; PushFront 0; PushBack 3; PopFront; PopFront;
     PushBack 4; PopBack; PopBack; PopBack; PopBack] [] = true /\
  exists after,
    attempts
      [PushBack 1; PushBack 2; PushFront 0; PushBack 3; PopFront; PopFront;
       PushBack 4; PopBack; PopBack; PopBack; PopBack]
      (mkCB 3 0 [0; 0; 0] (-1) (-1))
    = Some (fst (deque_run (capacity (mkCB 3 0 [0; 0; 0] (-1) (-1)))
                   [PushBack 1; PushBack 2; PushFront 0; PushBack 3; PopFront;
                    PopFront; PushBack 4; PopBack; PopBack; PopBack; PopBack]
                   []), after) /\
    well_formed after /\
    capacity after = capacity (mkCB 3 0 [0; 0; 0] (-1) (-1)) /\
    contents after
    = map Ok (snd (deque_run (capacity (mkCB 3 0 [0; 0; 0] (-1) (-1)))
                     [PushBack 1; PushBack 2; PushFront 0; PushBack 3; PopFront;
                      PopFront; PushBack 4; PopBack; PopBack; PopBack; PopBack]
                     [])).
Proof.
  assert (Hwf : well_formed (mkCB 3 0 [0; 0; 0] (-1) (-1))).
  { unfold well_formed, INT_MAX. cbn. lia. }
  assert (Hl : contents (mkCB 3 0 [0; 0; 0] (-1) (-1)) = map Ok []) by reflexivity.
  assert (Hsafe : no_push_front_on_empty (capacity (mkCB 3 0 [0; 0; 0] (-1) (-1)))
                    [PushBack 1; PushBack 2; PushFront 0; PushBack 3; PopFront;
                     PopFront; PushBack 4; PopBack; PopBack; PopBack; PopBack] []
                  = true) by reflexivity.
  split; [exact Hwf |]. split; [exact Hl |]. split; [exact Hsafe |].
  exact (attempts_follow_deque _ (mkCB 3 0 [0; 0; 0] (-1) (-1)) [] Hwf Hl Hsafe).
Defined.

(** *** Constructors, copies and assignment *)

(** X8.  [CircularBuffer(capacity, elem)] with [capacity > 0] (twice the
    capacity being an [int]) builds a well-formed, full buffer of that
    capacity whose logical sequence is [capacity] copies of [elem]. *)
Theorem filling_constructor_fills {T : Type} (dflt elem : T) (c : Z) :
  0 < c -> 2 * c <= INT_MAX ->
  exists this,
    CircularBuffer_fill dflt c elem = Ok this /\
    well_formed this /\
    get_capacity this = c /\
    get_size this = c /\
    full this = true /\
    contents this = repeat (Ok elem) (Z.to_nat c).
Proof.
  intros Hpos Hmax.
  destruct (CircularBuffer_fill_run dflt elem c Hpos Hmax)
    as (this & Hrun & Hwf & Hcap & Hsize & Hcont).
  exists this. unfold get_capacity, get_size, full.
  rewrite Hsize, Hcap, Z.eqb_refl.
  split; [exact Hrun | split; [exact Hwf |]].
  split; [reflexivity | split; [reflexivity | split; [reflexivity | exact Hcont]]].
Qed.

Lemma filling_constructor_fills_witness :
  0 < 3 /\ 2 * 3 <= INT_MAX /\
  exists this,
    CircularBuffer_fill 0 3 42 = Ok this /\
    well_formed this /\
    get_capacity this = 3 /\
    get_size this = 3 /\
    full this = true /\
    contents this = repeat (Ok 42) (Z.to_nat 3).
Proof.
  assert (Hpos : 0 < 3) by lia.
  assert (Hmax : 2 * 3 <= INT_MAX) by (unfold INT_MAX; lia).
  split; [exact Hpos |]. split; [exact Hmax |].
  exact (filling_constructor_fills 0 42 3 Hpos Hmax).
Defined.

(** X9.  The copy constructor applied to a well-formed buffer returns a
    well-formed buffer with the same capacity, count and logical
    sequence. *)
Theorem copy_constructor_copies {T : Type} (dflt : T) (cb : CircularBuffer T) :
  well_formed cb ->
  exists copy,
    CircularBuffer_copy dflt cb = Ok copy /\
    well_formed copy /\
    capacity copy = capacity cb /\
    size copy = size cb /\
    contents copy = contents cb.
Proof.
  intros Hwf.
  destruct (copy_run dflt cb Hwf) as (copy & Hrun & Hrest).
  exists copy. split; [| exact Hrest].
  unfold CircularBuffer_copy, exec. now rewrite Hrun.
Qed.

Lemma copy_constructor_copies_witness :
  well_formed (mkCB 3 2 [1; 2; 3] 1 2) /\
  exists copy,
    CircularBuffer_copy 0 (mkCB 3 2 [1; 2; 3] 1 2) = Ok copy /\
    well_formed copy /\
    capacity copy = capacity (mkCB 3 2 [1; 2; 3] 1 2) /\
    size copy = size (mkCB 3 2 [1; 2; 3] 1 2) /\
    contents copy = contents (mkCB 3 2 [1; 2; 3] 1 2).
Proof.
  assert (Hwf : well_formed (mkCB 3 2 [1; 2; 3] 1 2)).
  { unfold well_formed, INT_MAX. cbn. lia. }
  split; [exact Hwf |].
  exact (copy_constructor_copies 0 (mkCB 3 2 [1; 2; 3] 1 2) Hwf).
Defined.

(** X10.  Assigning a well-formed buffer [cb] to another object leaves in
    that object, whatever it held, exactly the buffer the copy constructor
    builds from [cb]: well formed, with the capacity, count and logical
    sequence of [cb]. *)
Theorem assignment_copies {T : Type} (dflt : T) (cb this : CircularBuffer T) :
  well_formed cb ->
  exists after,
    assign dflt false cb this = Normal tt after /\
    CircularBuffer_copy dflt cb = Ok after /\
    well_formed after /\
    capacity after = capacity cb /\
    size after = size cb /\
    contents after = contents cb.
Proof.
  intros Hwf.
  destruct (copy_run dflt cb Hwf) as (copy & Hrun & Hrest).
  exists copy. split; [| split; [| exact Hrest]].
  - unfold assign.
    run_with reflexivity. run_with reflexivity. run_with reflexivity.
    run_with reflexivity. run_with reflexivity.
    exact Hrun.
  - unfold CircularBuffer_copy, exec. now rewrite Hrun.
Qed.

Lemma assignment_copies_witness :
  well_formed (mkCB 3 2 [1; 2; 3] 1 2) /\
  exists after,
    assign 0 false (mkCB 3 2 [1; 2; 3] 1 2) (mkCB 5 1 [9; 9; 9; 9; 9] 0 0)
    = Normal tt after /\
    CircularBuffer_copy 0 (mkCB 3 2 [1; 2; 3] 1 2) = Ok after /\
    well_formed after /\
    capacity after = capacity (mkCB 3 2 [1; 2; 3] 1 2) /\
    size after = size (mkCB 3 2 [1; 2; 3] 1 2) /\
    contents after = contents (mkCB 3 2 [1; 2; 3] 1 2).
Proof.
  assert (Hwf : well_formed (mkCB 3 2 [1; 2; 3] 1 2)).
  { unfold well_formed, INT_MAX. cbn. lia. }
  split; [exact Hwf |].
  exact (assignment_copies 0 (mkCB 3 2 [1; 2; 3] 1 2)
           (mkCB 5 1 [9; 9; 9; 9; 9] 0 0) Hwf).
Defined.

(** *** Witnesses of the remaining properties *)

Lemma linearize_keeps_sequence_witness :
  well_formed (mkCB 3 2 [1; 2; 3] 2 0) /\
  size (mkCB 3 2 [1; 2; 3] 2 0) <> 0 /\
  exists block after,
    linearize 0 (mkCB 3 2 [1; 2; 3] 2 0) = Normal block after /\
    buffer after = block /\
    map Ok block = contents (mkCB 3 2 [1; 2; 3] 2 0) /\
    contents after = contents (mkCB 3 2 [1; 2; 3] 2 0) /\
    is_linearized after = Normal true after /\
    start after = 0 /\
    size after = size (mkCB 3 2 [1; 2; 3] 2 0) /\
    capacity after = capacity (mkCB 3 2 [1; 2; 3] 2 0).
Proof.
  assert (Hwf : well_formed (mkCB 3 2 [1; 2; 3] 2 0)).
  { unfold well_formed, INT_MAX. cbn. lia. }
  assert (Hne : size (mkCB 3 2 [1; 2; 3] 2 0) <> 0) by (cbn; lia).
  split; [exact Hwf |]. split; [exact Hne |].
  exact (linearize_keeps_sequence 0 (mkCB 3 2 [1; 2; 3] 2 0) Hwf Hne).
Defined.

Lemma push_back_after_linearize_is_undefined_witness :
  well_formed (mkCB 3 2 [1; 2; 3] 2 0) /\
  size (mkCB 3 2 [1; 2; 3] 2 0) <> 0 /\
  size (mkCB 3 2 [1; 2; 3] 2 0) <> capacity (mkCB 3 2 [1; 2; 3] 2 0) /\
  (linearize 0 ;; push_back 7) (mkCB 3 2 [1; 2; 3] 2 0) = Undef.
Proof.
  assert (Hwf : well_formed (mkCB 3 2 [1; 2; 3] 2 0)).
  { unfold well_formed, INT_MAX. cbn. lia. }
  assert (Hne : size (mkCB 3 2 [1; 2; 3] 2 0) <> 0) by (cbn; lia).
  assert (Hroom : size (mkCB 3 2 [1; 2; 3] 2 0) <> capacity (mkCB 3 2 [1; 2; 3] 2 0)).
  { cbn. lia. }
  split; [exact Hwf |]. split; [exact Hne |]. split; [exact Hroom |].
  exact (push_back_after_linearize_is_undefined 0 7 (mkCB 3 2 [1; 2; 3] 2 0)
           Hwf Hne Hroom).
Defined.

Lemma push_back_after_clear_is_not_front_witness :
  Z.of_nat (List.length (buffer (mkCB 3 2 [1; 2; 3] 1 2)))
  = capacity (mkCB 3 2 [1; 2; 3] 1 2) /\
  2 <= capacity (mkCB 3 2 [1; 2; 3] 1 2) <= INT_MAX /\
  exists stale after,
    nth_error (buffer (mkCB 3 2 [1; 2; 3] 1 2)) 0 = Some stale /\
    (clear ;; push_back 7) (mkCB 3 2 [1; 2; 3] 1 2) = Normal tt after /\
    size after = 1 /\
    back after = Normal 7 after /\
    front after = Normal stale after /\
    at_ 0 after = Normal stale after.
Proof.
  assert (Hlen : Z.of_nat (List.length (buffer (mkCB 3 2 [1; 2; 3] 1 2)))
                 = capacity (mkCB 3 2 [1; 2; 3] 1 2)) by reflexivity.
  assert (Hcap : 2 <= capacity (mkCB 3 2 [1; 2; 3] 1 2) <= INT_MAX).
  { unfold INT_MAX. cbn. lia. }
  split; [exact Hlen |]. split; [exact Hcap |].
  exact (push_back_after_clear_is_not_front 7 (mkCB 3 2 [1; 2; 3] 1 2) Hlen Hcap).
Defined.

Lemma resize_to_witness :
  well_formed (mkCB 5 2 [1; 2; 3; 4; 5] 4 0) /\
  0 <= 4 <= capacity (mkCB 5 2 [1; 2; 3; 4; 5] 4 0) /\
  exists after,
    resize 4 9 (mkCB 5 2 [1; 2; 3; 4; 5] 4 0) = Normal tt after /\
    well_formed after /\
    capacity after = capacity (mkCB 5 2 [1; 2; 3; 4; 5] 4 0) /\
    size after = 4 /\
    contents after
    = firstn (Z.to_nat 4) (contents (mkCB 5 2 [1; 2; 3; 4; 5] 4 0))
      ++ repeat (Ok 9) (Z.to_nat (4 - size (mkCB 5 2 [1; 2; 3; 4; 5] 4 0))).
Proof.
  assert (Hwf : well_formed (mkCB 5 2 [1; 2; 3; 4; 5] 4 0)).
  { unfold well_formed, INT_MAX. cbn. lia. }
  assert (Hnew : 0 <= 4 <= capacity (mkCB 5 2 [1; 2; 3; 4; 5] 4 0)) by (cbn; lia).
  split; [exact Hwf |]. split; [exact Hnew |].
  exact (resize_to 4 9 (mkCB 5 2 [1; 2; 3; 4; 5] 4 0) Hwf Hnew).
Defined.

Lemma insert_shifts_witness :
  ring_ready (mkCB 5 3 [10; 20; 30; 0; 0] 0 2) /\
  size (mkCB 5 3 [10; 20; 30; 0; 0] 0 2) <> capacity (mkCB 5 3 [10; 20; 30; 0; 0] 0 2) /\
  0 <= 0 <= size (mkCB 5 3 [10; 20; 30; 0; 0] 0 2) /\
  valid_ref (mkCB 5 3 [10; 20; 30; 0; 0] 0 2) (Slot 1) /\
  exists after,
    insert_ref 0 (Slot 1) (mkCB 5 3 [10; 20; 30; 0; 0] 0 2) = Normal tt after /\
    size after = size (mkCB 5 3 [10; 20; 30; 0; 0] 0 2) + 1 /\
    capacity after = capacity (mkCB 5 3 [10; 20; 30; 0; 0] 0 2) /\
    start after = start (mkCB 5 3 [10; 20; 30; 0; 0] 0 2) /\
    end_ after = end_ (mkCB 5 3 [10; 20; 30; 0; 0] 0 2) /\
    forall j, 0 <= j <= size (mkCB 5 3 [10; 20; 30; 0; 0] 0 2) ->
      eval (at_ j) after =
      if j <? 0 then eval (at_ j) (mkCB 5 3 [10; 20; 30; 0; 0] 0 2)
      else if j =? 0 then item_read (mkCB 5 3 [10; 20; 30; 0; 0] 0 2) 0 (Slot 1)
           else eval (at_ (j - 1)) (mkCB 5 3 [10; 20; 30; 0; 0] 0 2).
Proof.
  assert (Hready : ring_ready (mkCB 5 3 [10; 20; 30; 0; 0] 0 2)).
  { unfold ring_ready, INT_MAX. cbn. lia. }
  assert (Hroom : size (mkCB 5 3 [10; 20; 30; 0; 0] 0 2) <> capacity (mkCB 5 3 [10; 20; 30; 0; 0] 0 2)).
  { cbn. lia. }
  assert (Hpos : 0 <= 0 <= size (mkCB 5 3 [10; 20; 30; 0; 0] 0 2)) by (cbn; lia).
  assert (Hitem : valid_ref (mkCB 5 3 [10; 20; 30; 0; 0] 0 2) (Slot 1)) by (cbn; lia).
  split; [exact Hready |]. split; [exact Hroom |]. split; [exact Hpos |].
  split; [exact Hitem |].
  exact (insert_shifts (mkCB 5 3 [10; 20; 30; 0; 0] 0 2) 0 (Slot 1) Hready Hroom Hpos Hitem).
Defined.

Lemma insert_erase_restores_witness :
  ring_ready (mkCB 5 3 [10; 20; 30; 0; 0] 0 2) /\
  size (mkCB 5 3 [10; 20; 30; 0; 0] 0 2) <> capacity (mkCB 5 3 [10; 20; 30; 0; 0] 0 2) /\
  0 <= 0 <= size (mkCB 5 3 [10; 20; 30; 0; 0] 0 2) /\
  valid_ref (mkCB 5 3 [10; 20; 30; 0; 0] 0 2) (Slot 1) /\
  exists after,
    (insert_ref 0 (Slot 1) ;; erase 0 0) (mkCB 5 3 [10; 20; 30; 0; 0] 0 2) = Normal tt after /\
    size after = size (mkCB 5 3 [10; 20; 30; 0; 0] 0 2) /\
    capacity after = capacity (mkCB 5 3 [10; 20; 30; 0; 0] 0 2) /\
    forall j, 0 <= j < size (mkCB 5 3 [10; 20; 30; 0; 0] 0 2) ->
      exists x, at_ j (mkCB 5 3 [10; 20; 30; 0; 0] 0 2) = Normal x (mkCB 5 3 [10; 20; 30; 0; 0] 0 2) /\
                at_ j after = Normal x after.
Proof.
  assert (Hready : ring_ready (mkCB 5 3 [10; 20; 30; 0; 0] 0 2)).
  { unfold ring_ready, INT_MAX. cbn. lia. }
  assert (Hroom : size (mkCB 5 3 [10; 20; 30; 0; 0] 0 2) <> capacity (mkCB 5 3 [10; 20; 30; 0; 0] 0 2)).
  { cbn. lia. }
  assert (Hpos : 0 <= 0 <= size (mkCB 5 3 [10; 20; 30; 0; 0] 0 2)) by (cbn; lia).
  assert (Hitem : valid_ref (mkCB 5 3 [10; 20; 30; 0; 0] 0 2) (Slot 1)) by (cbn; lia).
  split; [exact Hready |]. split; [exact Hroom |]. split; [exact Hpos |].
  split; [exact Hitem |].
  exact (insert_erase_restores (mkCB 5 3 [10; 20; 30; 0; 0] 0 2) 0 (Slot 1) Hready Hroom Hpos Hitem).
Defined.

Lemma erase_closes_gap_witness :
  ring_ready (mkCB 5 4 [1; 2; 3; 4; 5] 3 1) /\
  0 <= 1 /\ 1 <= 2 /\ 2 < size (mkCB 5 4 [1; 2; 3; 4; 5] 3 1) /\
  exists after,
    erase 1 2 (mkCB 5 4 [1; 2; 3; 4; 5] 3 1) = Normal tt after /\
    size after = size (mkCB 5 4 [1; 2; 3; 4; 5] 3 1) - (2 - 1 + 1) /\
    capacity after = capacity (mkCB 5 4 [1; 2; 3; 4; 5] 3 1) /\
    forall j, 0 <= j < size after ->
      eval (at_ j) after
      = eval (at_ (if j <? 1 then j else j + (2 - 1 + 1)))
          (mkCB 5 4 [1; 2; 3; 4; 5] 3 1).
Proof.
  assert (Hready : ring_ready (mkCB 5 4 [1; 2; 3; 4; 5] 3 1)).
  { unfold ring_ready, INT_MAX. cbn. lia. }
  assert (Hfirst : 0 <= 1) by lia.
  assert (Hlast : 1 <= 2) by lia.
  assert (Hin : 2 < size (mkCB 5 4 [1; 2; 3; 4; 5] 3 1)) by (cbn; lia).
  split; [exact Hready |]. split; [exact Hfirst |]. split; [exact Hlast |].
  split; [exact Hin |].
  exact (erase_closes_gap (mkCB 5 4 [1; 2; 3; 4; 5] 3 1) 1 2
           Hready Hfirst Hlast Hin).
Defined.

Lemma rotate_run_witness :
  ring_ready (mkCB 3 2 [1; 2; 3] 1 2) /\
  0 <= 0 < size (mkCB 3 2 [1; 2; 3] 1 2) /\
  exists after,
    rotate 0 0 (mkCB 3 2 [1; 2; 3] 1 2) = Normal tt after /\
    size after = size (mkCB 3 2 [1; 2; 3] 1 2) /\
    capacity after = capacity (mkCB 3 2 [1; 2; 3] 1 2) /\
    forall j, 0 <= j < size (mkCB 3 2 [1; 2; 3] 1 2) ->
      exists x,
        at_ j (mkCB 3 2 [1; 2; 3] 1 2) = Normal x (mkCB 3 2 [1; 2; 3] 1 2) /\
        at_ j after = Normal x after.
Proof.
  assert (Hready : ring_ready (mkCB 3 2 [1; 2; 3] 1 2)).
  { unfold ring_ready, INT_MAX. cbn. lia. }
  assert (Hnew : 0 <= 0 < size (mkCB 3 2 [1; 2; 3] 1 2)) by (cbn; lia).
  split; [exact Hready |]. split; [exact Hnew |].
  exact (rotate_run 0 (mkCB 3 2 [1; 2; 3] 1 2) 0 Hready Hnew).
Defined.

Lemma throws_precede_assignments_witness :
  run_call 0 realloc_null (CallResize 9 0) (mkCB 3 2 [1; 2; 3] 1 2)
  = Raised (out_of_range "Invalid new size") (mkCB 3 2 [1; 2; 3] 1 2) /\
  (mkCB 3 2 [1; 2; 3] 1 2 = mkCB 3 2 [1; 2; 3] 1 2 \/
   exists new_capacity,
     CallResize 9 0 = CallSetCapacity new_capacity /\ 0 < new_capacity /\
     realloc_null (buffer (mkCB 3 2 [1; 2; 3] 1 2)) new_capacity = None).
Proof.
  assert (Hrun : run_call 0 realloc_null (CallResize 9 0) (mkCB 3 2 [1; 2; 3] 1 2)
                 = Raised (out_of_range "Invalid new size")
                          (mkCB 3 2 [1; 2; 3] 1 2)) by reflexivity.
  split; [exact Hrun |].
  exact (throws_precede_assignments 0 realloc_null (CallResize 9 0) _ _ _ Hrun).
Defined.

Lemma capacity_stays_positive_witness :
  0 < capacity (mkCB 3 2 [1; 2; 3] 1 2) /\
  run_call 0 realloc_null (CallPopFront) (mkCB 3 2 [1; 2; 3] 1 2)
  = Normal tt (mkCB 3 1 [1; 2; 3] 2 2) /\
  0 < capacity (mkCB 3 1 [1; 2; 3] 2 2).
Proof.
  assert (Hpos : 0 < capacity (mkCB 3 2 [1; 2; 3] 1 2)) by (cbn; lia).
  assert (Hrun : run_call 0 realloc_null (CallPopFront) (mkCB 3 2 [1; 2; 3] 1 2)
                 = Normal tt (mkCB 3 1 [1; 2; 3] 2 2)) by reflexivity.
  split; [exact Hpos |]. split; [exact Hrun |].
  exact (capacity_stays_positive 0 realloc_null CallPopFront _ _ Hpos I Hrun).
Defined.

(** ** WordsFreqAnalyzator *)

Example parse_sample :
  parse ["The cat, the DOG"; ""; "a cat; b2b!"]%string WordsFreqAnalyzator_new
  = Ok ([("cat", 2); ("the", 2); ("a", 1); ("b2b", 1); ("dog", 1)]%string,
        mkWFA ["cat"; "the"; "a"; "b2b"; "dog"]%string
              [("a", 1); ("b2b", 1); ("cat", 2); ("dog", 1); ("the", 2)]%string).
Proof. vm_compute. reflexivity. Qed.

(** What the stream shows for some counts. *)
Example write_double_samples :
  map write_double [7; 999999; 1000000; 1234567; 1234565; 9999995; 2147483647]
  = ["7"; "999999"; "1e+06"; "1.23457e+06"; "1.23456e+06"; "1e+07";
     "2.14748e+09"]%string.
Proof. vm_compute. reflexivity. Qed.

Section Characters.

Ltac by_cases_on ch :=
  destruct ch as [[] [] [] [] [] [] [] []]; vm_compute; try reflexivity;
  intros; try discriminate.

Lemma tolower_token (ch : ascii) :
  is_token_char ch = true -> is_lower_or_digit (tolower ch) = true.
Proof. by_cases_on ch. Qed.

Lemma tolower_keeps_class (ch : ascii) :
  is_token_char (tolower ch) = is_token_char ch.
Proof. by_cases_on ch. Qed.

Lemma tolower_idempotent (ch : ascii) : tolower (tolower ch) = tolower ch.
Proof. by_cases_on ch. Qed.

Lemma lower_idempotent (word : string) : lower (lower word) = lower word.
Proof.
  induction word as [| ch word IH]; cbn; [reflexivity |].
  now rewrite tolower_idempotent, IH.
Qed.

Lemma lower_token (word : string) :
  all_chars is_token_char word = true ->
  all_chars is_lower_or_digit (lower word) = true.
Proof.
  induction word as [| ch word IH]; cbn; [reflexivity |].
  intros H. apply andb_true_iff in H. destruct H as [Hch Hw].
  rewrite (tolower_token ch Hch). cbn. now apply IH.
Qed.

Lemma lower_empty (word : string) : lower word = EmptyString -> word = EmptyString.
Proof. destruct word; cbn; [reflexivity | discriminate]. Qed.

End Characters.

Section Matches.

Lemma emit_matches (run : string) (later : list string) :
  all_chars is_token_char run = true -> Forall is_match later ->
  Forall is_match (emit run later).
Proof.
  intros Hrun Hlater. destruct run as [| ch run]; cbn; [exact Hlater |].
  constructor; [| exact Hlater]. split; [discriminate | exact Hrun].
Qed.

Lemma scan_matches (line : string) :
  all_chars is_token_char (fst (scan line)) = true /\
  Forall is_match (snd (scan line)).
Proof.
  induction line as [| ch line IH]; cbn; [split; [reflexivity | constructor] |].
  destruct (scan line) as [run later]. cbn in IH. destruct IH as [Hrun Hlater].
  destruct (is_token_char ch) eqn:Hch; cbn.
  - split; [now rewrite Hch | exact Hlater].
  - split; [reflexivity | now apply emit_matches].
Qed.

Lemma sregex_matches_are_matches (line : string) :
  Forall is_match (sregex_matches line).
Proof.
  unfold sregex_matches. pose proof (scan_matches line) as H.
  destruct (scan line) as [run later]. cbn in H. destruct H.
  now apply emit_matches.
Qed.

Lemma emit_lower (run : string) (later : list string) :
  emit (lower run) (map lower later) = map lower (emit run later).
Proof. destruct run; reflexivity. Qed.

Lemma scan_lower (line : string) :
  scan (lower line)
  = (lower (fst (scan line)), map lower (snd (scan line))).
Proof.
  induction line as [| ch line IH]; cbn; [reflexivity |].
  rewrite IH, tolower_keeps_class. destruct (scan line) as [run later]. cbn.
  destruct (is_token_char ch); [reflexivity |].
  now rewrite emit_lower.
Qed.

Lemma sregex_matches_lower (line : string) :
  sregex_matches (lower line) = map lower (sregex_matches line).
Proof.
  unfold sregex_matches. rewrite scan_lower.
  destruct (scan line) as [run later]. cbn. apply emit_lower.
Qed.

Lemma words_lower (lines : list string) :
  words (map lower lines) = words lines.
Proof.
  unfold words. induction lines as [| line lines IH]; cbn; [reflexivity |].
  rewrite IH, sregex_matches_lower, map_map. f_equal.
  apply map_ext. intros w. apply lower_idempotent.
Qed.

Lemma words_are_lowercase (lines : list string) (w : string) :
  In w (words lines) ->
  w <> EmptyString /\ all_chars is_lower_or_digit w = true.
Proof.
  unfold words. intros Hin. apply in_flat_map in Hin.
  destruct Hin as [line [_ Hin]]. apply in_map_iff in Hin.
  destruct Hin as [t [<- Hin]].
  pose proof (sregex_matches_are_matches line) as Hall.
  rewrite Forall_forall in Hall. destruct (Hall t Hin) as [Hne Htok].
  split; [| now apply lower_token].
  intros Hl. apply Hne. now apply lower_empty.
Qed.

End Matches.

Section WordMap.

Lemma key_before_trans (a b c : string) :
  key_before a b -> key_before b c -> key_before a c.
Proof.
  unfold key_before. intros Hab Hbc.
  apply OrderedTypeEx.String_as_OT.cmp_lt.
  apply OrderedTypeEx.String_as_OT.cmp_lt in Hab, Hbc.
  eapply OrderedTypeEx.String_as_OT.lt_trans; eassumption.
Qed.

Lemma key_before_irrefl (a : string) : ~ key_before a a.
Proof.
  unfold key_before. intros H.
  assert (Heq : (a ?= a)%string = Eq)
    by now apply OrderedTypeEx.String_as_OT.cmp_eq.
  congruence.
Qed.

Lemma key_before_neq (a b : string) : key_before a b -> (b =? a)%string = false.
Proof.
  intros H. apply String.eqb_neq. intros ->. now apply key_before_irrefl in H.
Qed.

Lemma compare_Gt (a b : string) : (a ?= b)%string = Gt -> key_before b a.
Proof.
  unfold key_before. intros H. rewrite String.compare_antisym, H. reflexivity.
Qed.

Lemma compare_Eq (a b : string) : (a ?= b)%string = Eq -> a = b.
Proof. apply String.compare_eq_iff. Qed.

Lemma ascending_nil : ascending [].
Proof. constructor. Qed.

Lemma second_absent (m : word_map) (w : string) :
  Forall (key_before w) (map fst m) -> second m w = 0.
Proof.
  induction m as [| [k n] m IH]; cbn; [reflexivity |].
  intros H. inversion H; subst.
  rewrite (proj2 (String.eqb_neq w k)).
  - now apply IH.
  - intros ->. eapply key_before_irrefl; eassumption.
Qed.

Lemma ascending_tail (p : string * Z) (m : word_map) :
  ascending (p :: m) -> ascending m /\ Forall (key_before (fst p)) (map fst m).
Proof. unfold ascending. cbn. intros H. inversion H; subst. now split. Qed.

Lemma total_cons (p : string * Z) (m : word_map) :
  total (p :: m) = snd p + total m.
Proof. reflexivity. Qed.

Lemma bump_inv (w : string) (m m' : word_map) :
  ascending m -> bump w m = Ok m' ->
  ascending m' /\
  (forall k, second m' k = if (k =? w)%string then second m w + 1 else second m k) /\
  (forall k, In k (map fst m') <-> k = w \/ In k (map fst m)) /\
  total m' = total m + 1.
Proof.
  revert m'. induction m as [| [key count] m IH]; intros m' Hasc Hrun.
  - cbn in Hrun. inversion Hrun; subst. cbn.
    split; [repeat constructor |]. split; [reflexivity |].
    split; [| reflexivity].
    intros k. split; [intros [<- | []]; now left | intros [-> | []]; now left].
  - cbn in Hrun. destruct (ascending_tail _ _ Hasc) as [Hm Hkey]. cbn in Hkey.
    destruct (w ?= key)%string eqn:Hcmp.
    + apply compare_Eq in Hcmp. subst key.
      unfold add, int_of in Hrun. destruct (in_int (count + 1)); [| discriminate].
      cbn in Hrun. inversion Hrun; subst. cbn. rewrite String.eqb_refl.
      split; [exact Hasc |]. split; [| split; [| lia]].
      * intros k. destruct (k =? w)%string; reflexivity.
      * intros k. split.
        -- intros [<- | Hin]; [now left | right; now right].
        -- intros [-> | [<- | Hin]]; [now left | now left | now right].
    + cbn in Hrun. inversion Hrun; subst. clear Hrun.
      assert (Hall : Forall (key_before w) (map fst ((key, count) :: m))).
      { cbn. constructor; [exact Hcmp |].
        eapply Forall_impl; [| exact Hkey].
        intros a Ha. eapply key_before_trans; eassumption. }
      rewrite (second_absent _ _ Hall).
      split; [| split; [| split]].
      * unfold ascending. cbn [map fst]. constructor; [exact Hasc | exact Hall].
      * intros k. cbn [second]. destruct (k =? w)%string; reflexivity.
      * intros k. cbn. split.
        -- intros [<- | H]; [now left | now right].
        -- intros [-> | H]; [now left | now right].
      * rewrite !total_cons. cbn [snd]. lia.
    + apply compare_Gt in Hcmp.
      destruct (bump w m) as [m1 | |] eqn:Hb; cbn in Hrun; try discriminate.
      inversion Hrun; subst. clear Hrun.
      destruct (IH m1 Hm eq_refl) as [Hasc1 [Hsec [Hkeys Htot]]].
      split; [| split; [| split]].
      * unfold ascending. cbn. constructor; [exact Hasc1 |].
        apply Forall_forall. intros k Hk. apply Hkeys in Hk.
        destruct Hk as [-> | Hk]; [exact Hcmp |].
        rewrite Forall_forall in Hkey. now apply Hkey.
      * intros k. cbn [second]. rewrite Hsec, (key_before_neq _ _ Hcmp).
        destruct (k =? key)%string eqn:Hk; [| reflexivity].
        apply String.eqb_eq in Hk. subst k.
        now rewrite (proj2 (String.eqb_neq key w))
          by (intros ->; eapply key_before_irrefl; eassumption).
      * intros k. cbn. split.
        -- intros [<- | H]; [right; now left |].
           apply Hkeys in H. destruct H; [now left | right; now right].
        -- intros [-> | [<- | H]].
           ++ right. apply Hkeys. now left.
           ++ now left.
           ++ right. apply Hkeys. now right.
      * rewrite !total_cons. cbn [snd]. lia.
Qed.

Lemma bump_ok (w : string) (m : word_map) :
  0 <= second m w < INT_MAX -> exists m', bump w m = Ok m'.
Proof.
  induction m as [| [key count] m IH]; intros Hb.
  - cbn. eexists. reflexivity.
  - cbn. destruct (w ?= key)%string eqn:Hcmp.
    + apply compare_Eq in Hcmp. subst key. cbn in Hb.
      rewrite String.eqb_refl in Hb.
      unfold add, int_of, in_int.
      replace ((INT_MIN <=? count + 1) && (count + 1 <=? INT_MAX)) with true.
      * cbn. eexists. reflexivity.
      * symmetry. apply andb_true_iff. unfold INT_MIN, INT_MAX in *. lia.
    + cbn. eexists. reflexivity.
    + apply compare_Gt in Hcmp. cbn in Hb.
      rewrite (proj2 (String.eqb_neq w key)) in Hb
        by (intros ->; eapply key_before_irrefl; eassumption).
      destruct (IH Hb) as [m1 ->]. cbn. eexists. reflexivity.
Qed.

Lemma count_all_inv (ws : list string) :
  forall m m', ascending m -> count_all ws m = Ok m' ->
  ascending m' /\
  (forall k, second m' k = second m k + Z.of_nat (count_occ string_dec ws k)) /\
  (forall k, In k (map fst m') <-> In k (map fst m) \/ In k ws) /\
  total m' = total m + Z.of_nat (List.length ws).
Proof.
  induction ws as [| w ws IH]; intros m m' Hasc Hrun.
  - cbn in Hrun. inversion Hrun; subst. cbn.
    split; [exact Hasc |]. split; [intros k; lia |]. split; [| lia].
    intros k. tauto.
  - cbn in Hrun. destruct (bump w m) as [m1 | |] eqn:Hb; cbn in Hrun; try discriminate.
    destruct (bump_inv _ _ _ Hasc Hb) as [Hasc1 [Hsec1 [Hkeys1 Htot1]]].
    destruct (IH _ _ Hasc1 Hrun) as [Hasc' [Hsec' [Hkeys' Htot']]].
    split; [exact Hasc' |]. split; [| split].
    + intros k. rewrite Hsec', Hsec1. cbn [count_occ].
      destruct (string_dec w k) as [-> | Hne].
      * rewrite String.eqb_refl. lia.
      * rewrite (proj2 (String.eqb_neq k w)) by congruence. lia.
    + intros k. split.
      * intros H. apply Hkeys' in H. destruct H as [H | H]; [| right; now right].
        apply Hkeys1 in H. destruct H as [-> | H]; [right; now left | now left].
      * intros [H | [<- | H]]; apply Hkeys'.
        -- left. apply Hkeys1. now right.
        -- left. apply Hkeys1. now left.
        -- now right.
    + rewrite Htot', Htot1. cbn [List.length]. lia.
Qed.

Lemma count_all_ok (ws : list string) :
  forall m, ascending m ->
  (forall k, 0 <= second m k /\
             second m k + Z.of_nat (List.length ws) <= INT_MAX) ->
  exists m', count_all ws m = Ok m'.
Proof.
  induction ws as [| w ws IH]; intros m Hasc Hb.
  - cbn. eexists. reflexivity.
  - cbn. destruct (bump_ok w m) as [m1 Hm1].
    { specialize (Hb w). cbn [List.length] in Hb. lia. }
    rewrite Hm1. cbn.
    destruct (bump_inv _ _ _ Hasc Hm1) as [Hasc1 [Hsec1 _]].
    apply IH; [exact Hasc1 |].
    intros k. rewrite Hsec1. specialize (Hb k) as Hk. specialize (Hb w) as Hw.
    cbn [List.length] in Hk, Hw.
    destruct (k =? w)%string; lia.
Qed.

Lemma count_matches_all (ms : list string) (m : word_map) :
  count_matches ms m = count_all (map lower ms) m.
Proof.
  revert m. induction ms as [| w ms IH]; intros m; cbn; [reflexivity |].
  destruct (bump (lower w) m); cbn; [apply IH | reflexivity | reflexivity].
Qed.

Lemma count_all_app (a b : list string) (m : word_map) :
  count_all (a ++ b) m = (m' <- count_all a m ;; count_all b m').
Proof.
  revert m. induction a as [| w a IH]; intros m; cbn; [reflexivity |].
  destruct (bump w m); cbn; [apply IH | reflexivity | reflexivity].
Qed.

Lemma read_lines_all (lines : list string) (m : word_map) :
  read_lines lines m = count_all (words lines) m.
Proof.
  revert m. induction lines as [| line lines IH]; intros m; cbn; [reflexivity |].
  unfold words in *. cbn. rewrite count_all_app, count_matches_all.
  destruct (count_all (map lower (sregex_matches line)) m); cbn;
    [apply IH | reflexivity | reflexivity].
Qed.

End WordMap.

Section Sort.
Context {A : Type} (f : A -> Z) (R0 : A -> A -> Prop).

Lemma sort_insert_perm (comp : A -> A -> bool) (x : A) (l : list A) :
  Permutation (sort_insert comp x l) (x :: l).
Proof.
  induction l as [| y l IH]; cbn; [reflexivity |].
  destruct (comp y x); [| reflexivity].
  rewrite IH. apply perm_swap.
Qed.

Lemma list_sort_perm (comp : A -> A -> bool) (l : list A) :
  Permutation (list_sort comp l) l.
Proof.
  induction l as [| x l IH]; cbn; [reflexivity |].
  fold (list_sort comp l). rewrite sort_insert_perm. now constructor.
Qed.

Lemma sort_insert_sorted (x : A) (s : list A) :
  StronglySorted (sorted_by f R0) s -> Forall (R0 x) s ->
  StronglySorted (sorted_by f R0) (sort_insert (fun a b => f b <? f a) x s).
Proof.
  induction s as [| y s IH]; intros Hs Hx; cbn.
  - repeat constructor.
  - inversion Hs as [| ? ? Hs' Hy]; subst. inversion Hx as [| ? ? Hxy Hx']; subst.
    destruct (f x <? f y) eqn:Hc.
    + apply Z.ltb_lt in Hc. constructor; [now apply IH |].
      eapply Permutation_Forall; [symmetry; apply sort_insert_perm |].
      constructor; [now left | exact Hy].
    + apply Z.ltb_ge in Hc. constructor; [exact Hs |].
      constructor.
      * destruct (Z.eq_dec (f x) (f y)) as [He | Hne]; [right; now split | left; lia].
      * rewrite Forall_forall in Hy, Hx' |- *. intros z Hz.
        assert (Hzy : f z <= f y)
          by (destruct (Hy z Hz) as [H | [H _]]; lia).
        destruct (Z.eq_dec (f x) (f z)) as [He | Hne].
        -- right. split; [exact He | now apply Hx'].
        -- left. lia.
Qed.

Lemma list_sort_sorted (l : list A) :
  StronglySorted R0 l ->
  StronglySorted (sorted_by f R0) (list_sort (fun a b => f b <? f a) l).
Proof.
  induction l as [| x l IH]; intros Hl; cbn; [constructor |].
  inversion Hl as [| ? ? Hl' Hx]; subst.
  fold (list_sort (fun a b => f b <? f a) l).
  apply sort_insert_sorted; [now apply IH |].
  eapply Permutation_Forall; [symmetry; apply list_sort_perm | exact Hx].
Qed.

End Sort.

Section Parse.

Lemma StronglySorted_map {A B : Type} (R : A -> A -> Prop) (R' : B -> B -> Prop)
      (g : A -> B) (l : list A) :
  (forall a b, R a b -> R' (g a) (g b)) ->
  StronglySorted R l -> StronglySorted R' (map g l).
Proof.
  intros Hg. induction 1 as [| a l Hl IH Ha]; cbn; constructor; [exact IH |].
  apply Forall_map. eapply Forall_impl; [| exact Ha]. intros b. apply Hg.
Qed.





(** What a call on a fresh object returns, in terms of the final map. *)
Lemma parse_new_inv (lines : list string) (rows : list (string * Z))
      (after : WordsFreqAnalyzator) :
  parse lines WordsFreqAnalyzator_new = Ok (rows, after) ->
  exists m,
    count_all (words lines) [] = Ok m /\
    ascending m /\
    rows = map (fun p => (p, second m p))
               (list_sort (fun a b => second m b <? second m a) (map fst m)) /\
    after = mkWFA (list_sort (fun a b => second m b <? second m a) (map fst m)) m.
Proof.
  unfold parse. cbn [mapWithWordsFrequency listOfMapEntries WordsFreqAnalyzator_new].
  rewrite read_lines_all.
  destruct (count_all (words lines) []) as [m | |] eqn:Hm; cbn; try discriminate.
  intros H. inversion H; subst. exists m.
  split; [reflexivity |]. split; [| split; reflexivity].
  apply (count_all_inv _ _ _ ascending_nil Hm).
Qed.


Lemma count_all_new_ok (ws : list string) :
  Z.of_nat (List.length ws) <= INT_MAX -> exists m, count_all ws [] = Ok m.
Proof.
  intros Hb. apply count_all_ok; [apply ascending_nil |].
  intros k. cbn [second]. lia.
Qed.

End Parse.

(** *** The report of [parse()] *)



(** X26.  The rows [parse()] writes on a fresh object are in descending
    order of count, and rows of equal count are in ascending order of their
    words (the order of [std::string]'s [operator<]). *)
Theorem parse_rows_sorted (lines : list string) (rows : list (string * Z))
        (after : WordsFreqAnalyzator) :
  parse lines WordsFreqAnalyzator_new = Ok (rows, after) ->
  StronglySorted row_before rows.
Proof.
  intros Hrun. destruct (parse_new_inv _ _ _ Hrun) as [m [_ [Hasc [-> _]]]].
  eapply StronglySorted_map;
    [| apply (list_sort_sorted (second m) key_before); exact Hasc].
  intros a b H. exact H.
Qed.

Lemma parse_rows_sorted_witness :
  parse ["The cat, the DOG"; "a cat"]%string WordsFreqAnalyzator_new
  = Ok ([("cat", 2); ("the", 2); ("a", 1); ("dog", 1)]%string,
        mkWFA ["cat"; "the"; "a"; "dog"]%string
              [("a", 1); ("cat", 2); ("dog", 1); ("the", 2)]%string) /\
  StronglySorted row_before [("cat", 2); ("the", 2); ("a", 1); ("dog", 1)]%string.
Proof.
  assert (Hrun : parse ["The cat, the DOG"; "a cat"]%string WordsFreqAnalyzator_new
                 = Ok ([("cat", 2); ("the", 2); ("a", 1); ("dog", 1)]%string,
                       mkWFA ["cat"; "the"; "a"; "dog"]%string
                             [("a", 1); ("cat", 2); ("dog", 1); ("the", 2)]%string)).
  { vm_compute. reflexivity. }
  split; [exact Hrun |].
  exact (parse_rows_sorted _ _ _ Hrun).
Defined.

(** X27.  Every word [parse()] writes on a fresh object is non-empty and
    consists of lower-case letters and digits only. *)
Theorem parse_words_lowercase (lines : list string) (rows : list (string * Z))
        (after : WordsFreqAnalyzator) :
  parse lines WordsFreqAnalyzator_new = Ok (rows, after) ->
  forall w n, In (w, n) rows ->
    w <> EmptyString /\ all_chars is_lower_or_digit w = true.
Proof.
  intros Hrun w n Hin.
  destruct (parse_new_inv _ _ _ Hrun) as [m [Hm [Hasc [-> _]]]].
  destruct (count_all_inv _ _ _ ascending_nil Hm) as [_ [_ [Hkeys _]]].
  apply in_map_iff in Hin. destruct Hin as [k [Heq Hin]]. inversion Heq; subst.
  apply words_are_lowercase with (lines := lines).
  assert (Hk : In w (map fst m))
    by (eapply Permutation_in; [apply list_sort_perm | exact Hin]).
  apply Hkeys in Hk. destruct Hk as [[] | Hk]. exact Hk.
Qed.

Lemma parse_words_lowercase_witness :
  parse ["B2B or b2b?"]%string WordsFreqAnalyzator_new
  = Ok ([("b2b", 2); ("or", 1)]%string,
        mkWFA ["b2b"; "or"]%string [("b2b", 2); ("or", 1)]%string) /\
  In ("b2b", 2)%string [("b2b", 2); ("or", 1)]%string /\
  "b2b"%string <> EmptyString /\
  all_chars is_lower_or_digit "b2b" = true.
Proof.
  assert (Hrun : parse ["B2B or b2b?"]%string WordsFreqAnalyzator_new
                 = Ok ([("b2b", 2); ("or", 1)]%string,
                       mkWFA ["b2b"; "or"]%string
                             [("b2b", 2); ("or", 1)]%string)).
  { vm_compute. reflexivity. }
  assert (Hin : In ("b2b", 2)%string [("b2b", 2); ("or", 1)]%string).
  { simpl. left. reflexivity. }
  split; [exact Hrun |]. split; [exact Hin |].
  exact (parse_words_lowercase _ _ _ Hrun _ _ Hin).
Defined.



(** X22.  [parse()] ignores the case of the letters A to Z: on the input
    with these letters put in lower case it returns what it returns on the
    input itself, whatever the object held before. *)
Theorem parse_ignores_case (lines : list string) (this : WordsFreqAnalyzator) :
  parse (map lower lines) this = parse lines this.
Proof.
  unfold parse. now rewrite !read_lines_all, words_lower.
Qed.


